(** * The MCTS dialogue search engine of acai-optim

    A shallow embedding of [src/source/cot-reflection.ts], the part that holds
    [DialogueState], [MCTSNode], [MCTS] and [mcts]; and, after it, of
    [extractSection] of [CoTReflection], of the sampling, unifying and
    shuffling helpers of [ECHOImplementation], and of
    [AdvancedSelfConsistency] with [selfConsistency].

    Conventions of the embedding.
    - A JavaScript [number] that holds a measured quantity (values, priors,
      scores) is a binary64 float, Rocq's primitive [float]: the same IEEE 754
      operations, with NaN, signed zeros and infinities.  Counters that the
      code only ever increments from 0 ([visits], [raveVisits], loop indices)
      are [nat] and are converted with [ofNat] where the code does arithmetic
      on them (exact below 2^53).  Configuration numbers that the code uses as
      integer bounds ([maxDepth], [maxChildren], [simulationDepth]) and
      [depth] are [Z].
    - A string is a Rocq [string].  [String.prototype.toLowerCase] follows
      the Unicode tables of the engine and is taken from the runtime (the
      class [Runtime]): [isTerminal] and the search are defined for any
      runtime, and the theorem on [isTerminal] is proved for any.  The
      theorems on the search read [isTerminal] in [asciiRuntime], which
      lowers A-Z only, as every runtime does below U+0080.  [trim] strips
      the white space below U+0080, and the theorem on the section
      [extractSection] returns is stated for a section below U+0080.
    - [Math.exp] and the operator [**] are implementation-approximated in
      ECMAScript: they are parameters [Math_exp] and [Math_pow].
    - Objects are records in a heap (a list, a reference is an index), so that
      the aliasing the transposition table creates is kept.
    - An [async] function runs until its next [await]; what is left of a
      simulation between two awaits is a [Control] state, and a scheduler
      decides which simulation resumes next and what the oracle
      ([generateText]) and [Math.random] hand to it.
    - The sequential code outside [MCTS] is a function of the replies of the
      model; a call that throws where nothing catches it gives [None].  An
      array whose elements can be [undefined] has elements of type
      [option]. *)

From Stdlib Require Import ZArith Lia Floats Uint63 Ascii String.
From stdpp Require Import gmap strings list fin_maps.

Set Warnings "-inexact-float".
Set Default Proof Using "Type".

(* ================================================================== *)
(** * Definitions                                                      *)
(* ================================================================== *)

(** ** JavaScript strings *)

(** [String.prototype.toLowerCase] applies the case mappings of the Unicode
    tables the engine ships: a character can map to several, or to another
    one according to its neighbours.  The embedding takes the function from
    the runtime, and every definition that lowers a string with it holds for
    any runtime. *)
Class Runtime := { toLowerCase : string -> string }.

(** The lower case of a character below U+0080: A-Z become a-z, the others
    stay. *)
Definition lowerChar (c : ascii) : ascii :=
  let n := nat_of_ascii c in
  if (65 <=? n)%nat && (n <=? 90)%nat then ascii_of_nat (n + 32) else c.

(** A string with every character lowered by [lowerChar]: what
    [toLowerCase] gives for a string below U+0080 in every engine, and the
    canonical form under which a [RegExp] with the flag [i] compares a
    character of the text with a letter a-z of the pattern. *)
Fixpoint asciiLowerCase (s : string) : string :=
  match s with
  | EmptyString => EmptyString
  | String c s' => String (lowerChar c) (asciiLowerCase s')
  end.

(** The runtime of the concrete inputs below, which are all below U+0080. *)
#[export] Instance asciiRuntime : Runtime :=
  {| toLowerCase := asciiLowerCase |}.

(** Every character of [s] is below U+0080. *)
Fixpoint isAscii (s : string) : bool :=
  match s with
  | EmptyString => true
  | String c s' => (nat_of_ascii c <? 128)%nat && isAscii s'
  end.

(** What [toLowerCase] does to the characters below U+0080 in every engine,
    wherever they stand in the string: they are lowered in place, whatever
    becomes of the characters around them. *)
Definition LowersAscii (rt : Runtime) : Prop :=
  forall pre mid post : string,
    isAscii mid = true ->
    exists pre' post' : string,
      toLowerCase (pre +:+ mid +:+ post)
      = (pre' +:+ asciiLowerCase mid +:+ post')%string.

(** [sub] is a prefix of [s] *)
Fixpoint startsWith (s sub : string) {struct sub} : bool :=
  match sub, s with
  | EmptyString, _ => true
  | String a sub', String b s' =>
      if decide (a = b) then startsWith s' sub' else false
  | String _ _, EmptyString => false
  end.

(** [String.prototype.includes] *)
Fixpoint includes (s sub : string) : bool :=
  startsWith s sub ||
  match s with
  | EmptyString => false
  | String _ s' => includes s' sub
  end.

(** White space and line terminators below U+0080. *)
Definition isWhiteSpace (c : ascii) : bool :=
  let n := nat_of_ascii c in
  ((9 <=? n)%nat && (n <=? 13)%nat) || (n =? 32)%nat.

Fixpoint trimStart (s : string) : string :=
  match s with
  | EmptyString => EmptyString
  | String c s' => if isWhiteSpace c then trimStart s' else s
  end.

Fixpoint trimEnd (s : string) : string :=
  match s with
  | EmptyString => EmptyString
  | String c s' =>
      match trimEnd s' with
      | EmptyString =>
          if isWhiteSpace c then EmptyString else String c EmptyString
      | t => String c t
      end
  end.

(** [String.prototype.trim] on a string below U+0080; above, JavaScript
    strips further characters (U+00A0, U+FEFF, the Unicode spaces and line
    separators). *)
Definition trim (s : string) : string := trimEnd (trimStart s).

(** [String.prototype.split] with a separator of one character. *)
Fixpoint split (sep : ascii) (s : string) : list string :=
  match s with
  | EmptyString => [EmptyString]
  | String c s' =>
      if decide (c = sep) then EmptyString :: split sep s'
      else match split sep s' with
           | h :: t => String c h :: t
           | [] => [String c EmptyString]
           end
  end.

(** ** JavaScript numbers *)

Definition ofNat (n : nat) : float :=
  PrimFloat.of_uint63 (Uint63.of_Z (Z.of_nat n)).

(** [Math.min] and [Math.max] of two arguments: NaN if either is NaN, and
    -0 is below +0. *)
Definition Math_min (a b : float) : float :=
  if PrimFloat.is_nan a || PrimFloat.is_nan b then nan
  else if (a <? b)%float then a
  else if (b <? a)%float then b
  else if PrimFloat.get_sign a then a else b.

Definition Math_max (a b : float) : float :=
  if PrimFloat.is_nan a || PrimFloat.is_nan b then nan
  else if (a <? b)%float then b
  else if (b <? a)%float then a
  else if PrimFloat.get_sign a then b else a.

(** *** [Number.parseFloat]

    The longest prefix of the trimmed string that is a StrDecimalLiteral,
    rounded to the nearest binary64 (ties to even); NaN when there is none. *)

Definition isDigit (c : ascii) : bool :=
  let n := nat_of_ascii c in (48 <=? n)%nat && (n <=? 57)%nat.

Fixpoint spanDigits (s : string) : list ascii * string :=
  match s with
  | EmptyString => ([], EmptyString)
  | String c s' =>
      if isDigit c then let '(ds, r) := spanDigits s' in (c :: ds, r)
      else ([], s)
  end.

Definition digitsValue (ds : list ascii) : Z :=
  foldl (fun acc d => (10 * acc + (Z.of_nat (nat_of_ascii d) - 48))%Z) 0%Z ds.

(** The ExponentPart at the head of [s], 0 when there is none. *)
Definition exponentPart (s : string) : Z :=
  match s with
  | String c r =>
      if bool_decide (c = "e"%char) || bool_decide (c = "E"%char) then
        match r with
        | String "+"%char ds =>
            let '(ed, _) := spanDigits ds in digitsValue ed
        | String "-"%char ds =>
            let '(ed, _) := spanDigits ds in (- digitsValue ed)%Z
        | _ => let '(ed, _) := spanDigits r in digitsValue ed
        end
      else 0%Z
  | EmptyString => 0%Z
  end.

(** The value [m * 10^e], for [0 <= m], rounded to binary64. *)
Definition decimalToFloat (m e : Z) : float :=
  match m with
  | Zpos p =>
      if (0 <=? e)%Z
      then SF2Prim (binary_normalize prec emax (m * 10 ^ e) 0 false)
      else SF2Prim (SFdiv prec emax (S754_finite false p 0)
                          (S754_finite false (Z.to_pos (10 ^ (- e))) 0))
  | _ => 0%float
  end.

Definition parseUnsignedDecimal (s : string) : float :=
  if startsWith s "Infinity" then infinity
  else
    let '(ip, r1) := spanDigits s in
    let '(fp, r2) :=
      match r1 with
      | String "."%char r => spanDigits r
      | _ => ([], r1)
      end in
    match ip, fp with
    | [], [] => nan
    | _, _ => decimalToFloat (digitsValue (ip ++ fp))
                             (exponentPart r2 - Z.of_nat (length fp))
    end.

Definition parseFloat (s : string) : float :=
  match trimStart s with
  | String "-"%char r => (- parseUnsignedDecimal r)%float
  | String "+"%char r => parseUnsignedDecimal r
  | r => parseUnsignedDecimal r
  end.

(** A value that may be [undefined], used as a number. *)
Definition ToNumber (v : option float) : float :=
  match v with
  | Some x => x
  | None => nan
  end.

(** A zero of either sign, or NaN. *)
Definition zeroOrNaN (z : float) : Prop :=
  z = 0%float \/ z = (-0)%float \/ z = nan.

(** ** DialogueState *)

Inductive Role := user | assistant.

Record CoreMessage := { role : Role; content : string }.

(** The fields are typed [number]; destructuring an array that is too short
    leaves them [undefined], which is [None]. *)
Record EvaluationMetrics := {
  coherence : option float;
  relevance : option float;
  engagement : option float
}.

Record DialogueState := {
  conversationHistory : list CoreMessage;
  systemPrompt : string;
  currentQuery : string;
  depth : Z;
  metrics : option EvaluationMetrics
}.

(** [DialogueState.create]; the two defaulted arguments are explicit. *)
Definition DialogueState_create (systemPrompt : string)
    (history : list CoreMessage) (query : string) (depth : Z)
    (metrics : option EvaluationMetrics) : DialogueState :=
  {| conversationHistory := history; systemPrompt := systemPrompt;
     currentQuery := query; depth := depth; metrics := metrics |}.

Definition withNewMessage (this : DialogueState) (r : Role) (c : string)
    : DialogueState :=
  DialogueState_create (systemPrompt this)
    (conversationHistory this ++ [{| role := r; content := c |}])
    (currentQuery this) (depth this + 1)%Z (metrics this).

Definition getLastResponse (this : DialogueState) : option string :=
  match last (conversationHistory this) with
  | Some m => match role m with
              | assistant => Some (content m)
              | user => None
              end
  | None => None
  end.

(** [hash] is [JSON.stringify] of the history, the query and the depth.  The
    encoding is injective on these three fields and is used only as a map key,
    so the key is the triple itself. *)
Abbreviation StateHash :=
  (list (bool * string) * string * Z)%type (only parsing).

Definition hashMessage (m : CoreMessage) : bool * string :=
  (match role m with user => false | assistant => true end, content m).

Definition hash (this : DialogueState) : StateHash :=
  (hashMessage <$> conversationHistory this, currentQuery this, depth this).

(** ** MCTSNode *)

(** A reference to a node object: its index in the heap.  The [id] field
    (a random UUID) is read nowhere and is left out. *)
Abbreviation NodeRef := nat (only parsing).

Record MCTSNode := {
  state : DialogueState;
  parent : option NodeRef;
  action : option string;
  children : list NodeRef;
  visits : nat;
  isFullyExpanded : bool;
  totalValue : float;
  raveVisits : nat;
  raveValue : float
}.

(** [new MCTSNode(state, parent, action)] *)
Definition newMCTSNode (s : DialogueState) (p : option NodeRef)
    (a : option string) : MCTSNode :=
  {| state := s; parent := p; action := a; children := []; visits := 0;
     isFullyExpanded := false; totalValue := 0; raveVisits := 0;
     raveValue := 0 |}.

Definition addVisit (value : float) (this : MCTSNode) : MCTSNode :=
  {| state := state this; parent := parent this; action := action this;
     children := children this; visits := S (visits this);
     isFullyExpanded := isFullyExpanded this;
     totalValue := (totalValue this + value)%float;
     raveVisits := raveVisits this; raveValue := raveValue this |}.

Definition addRaveData (value : float) (this : MCTSNode) : MCTSNode :=
  {| state := state this; parent := parent this; action := action this;
     children := children this; visits := visits this;
     isFullyExpanded := isFullyExpanded this; totalValue := totalValue this;
     raveVisits := S (raveVisits this);
     raveValue := (raveValue this + value)%float |}.

(** [node.children.push(c)] *)
Definition pushChild (c : NodeRef) (this : MCTSNode) : MCTSNode :=
  {| state := state this; parent := parent this; action := action this;
     children := children this ++ [c]; visits := visits this;
     isFullyExpanded := isFullyExpanded this; totalValue := totalValue this;
     raveVisits := raveVisits this; raveValue := raveValue this |}.

(** [node.isFullyExpanded = true] *)
Definition markFullyExpanded (this : MCTSNode) : MCTSNode :=
  {| state := state this; parent := parent this; action := action this;
     children := children this; visits := visits this;
     isFullyExpanded := true; totalValue := totalValue this;
     raveVisits := raveVisits this; raveValue := raveValue this |}.

Definition getVisits (this : MCTSNode) : nat := visits this.

Definition getTotalValue (this : MCTSNode) : float := totalValue this.

Definition getAverageValue (this : MCTSNode) : float :=
  if (visits this =? 0)%nat then 0%float
  else (totalValue this / ofNat (visits this))%float.

Definition getRaveValue (this : MCTSNode) : float :=
  if (raveVisits this =? 0)%nat then 0%float
  else (raveValue this / ofNat (raveVisits this))%float.

(** PUCT (Predictor + UCT) formula for selection *)
Definition getPUCTScore (this : MCTSNode)
    (totalParentVisits priorProbability : float) : float :=
  let C := 1.5%float in
  let exploitation :=
    if (visits this =? 0)%nat then 0%float
    else (totalValue this / ofNat (visits this))%float in
  let exploration :=
    ((C * priorProbability * PrimFloat.sqrt totalParentVisits)
     / (1 + ofNat (visits this)))%float in
  let beta :=
    (ofNat (visits this)
     / (ofNat (visits this) + ofNat (raveVisits this)
        + 4 * priorProbability * totalParentVisits))%float in
  let raveComponent := getRaveValue this in
  (beta * exploitation + (1 - beta) * raveComponent + exploration)%float.

(** The selection score as the specification words it, with the exploration
    constant [C] an argument. *)
Definition specScore (C exploitation raveAverage prior : float)
    (parentVisits childVisits childRaveVisits : nat) : float :=
  let exploration :=
    (C * prior * PrimFloat.sqrt (ofNat parentVisits)
     / (1 + ofNat childVisits))%float in
  let beta :=
    (ofNat childVisits
     / (ofNat childVisits + ofNat childRaveVisits
        + 4 * prior * ofNat parentVisits))%float in
  (beta * exploitation + (1 - beta) * raveAverage + exploration)%float.

(** ** MCTS: configuration and shared state *)

Record Options := {
  maxDepth : Z;
  maxChildren : Z;
  explorationConstant : float;
  temperature : float;
  useRAVE : bool
}.

(** The [readonly] fields the constructor receives.  [numSimulations] is the
    length of the array [findBestResponse] makes of it: a number that is no
    array length is the matter of [arrayLength] and
    [findBestResponseOfCount] below. *)
Record Config := {
  simulationDepth : Z;
  numSimulations : nat;
  options : Options
}.

(** What the simulations share and mutate: the node objects, the two maps
    and the token counter of the [MCTS] instance.  [oracleCalls] counts the
    calls of [generateText]; the code does not read it. *)
Record Store := {
  heap : list MCTSNode;
  transpositionTable : gmap StateHash NodeRef;
  actionPriors : gmap string (option float);
  completionTokens : Z;
  oracleCalls : nat
}.

Definition setHeap (h : list MCTSNode) (st : Store) : Store :=
  {| heap := h; transpositionTable := transpositionTable st;
     actionPriors := actionPriors st; completionTokens := completionTokens st;
     oracleCalls := oracleCalls st |}.

Definition setTranspositionTable (t : gmap StateHash NodeRef) (st : Store)
    : Store :=
  {| heap := heap st; transpositionTable := t;
     actionPriors := actionPriors st; completionTokens := completionTokens st;
     oracleCalls := oracleCalls st |}.

Definition setActionPriors (a : gmap string (option float)) (st : Store)
    : Store :=
  {| heap := heap st; transpositionTable := transpositionTable st;
     actionPriors := a; completionTokens := completionTokens st;
     oracleCalls := oracleCalls st |}.

Definition addTokens (usage : Z) (st : Store) : Store :=
  {| heap := heap st; transpositionTable := transpositionTable st;
     actionPriors := actionPriors st;
     completionTokens := (completionTokens st + usage)%Z;
     oracleCalls := oracleCalls st |}.

(** A call of [generateText] is issued. *)
Definition callOracle (st : Store) : Store :=
  {| heap := heap st; transpositionTable := transpositionTable st;
     actionPriors := actionPriors st; completionTokens := completionTokens st;
     oracleCalls := S (oracleCalls st) |}.

Abbreviation root := 0%nat (only parsing).

Section WithRuntime.

Context {rt : Runtime}.

Definition isTerminal (cfg : Config) (s : DialogueState) : bool :=
  (maxDepth (options cfg) <=? depth s)%Z
  || includes (toLowerCase (currentQuery s)) "goodbye"
  || includes (toLowerCase (currentQuery s)) "thank you".

(** What the specification says of [isTerminal]: the query contains the
    phrase, letter case ignored.  The phrase, in lower case, occurs in the
    query brought to lower case. *)
Definition containsIgnoringCase (text phrase : string) : Prop :=
  exists pre post : string,
    toLowerCase text = (pre +:+ phrase +:+ post)%string.

(** ** The oracle and the environment *)

(** What [await generateText(...)] does: it returns [{ text, usage }] or it
    throws. *)
Inductive Reply :=
| Text (text : string) (usage : Z)
| Failure.

(** What a simulation receives when it resumes: the reply of the oracle, if
    it waits for one, and the index [Math.floor(Math.random() * n)] draws, if
    it draws one (taken modulo [n]). *)
Record EnvInput := { reply : Reply; random : nat }.

(** The calls of [generateText], by the function that issues them. *)
Inductive Request :=
| GenerateRequest (s : DialogueState) (i : nat)
| PriorsRequest (s : DialogueState) (actions : list string)
| EvaluateRequest (s : DialogueState).

(** ** Selection *)

(** A number used as a condition. *)
Definition truthy (x : float) : bool :=
  negb (PrimFloat.is_zero x || PrimFloat.is_nan x).

(** The prior [select] passes to [getPUCTScore]: the one stored under the
    action of the child (under the empty string when it has none), or, when
    that is missing or falsy, [1.0 / current.children.length]. *)
Definition priorOf (st : Store) (current child : MCTSNode) : float :=
  let uniform := (1 / ofNat (length (children current)))%float in
  match actionPriors st !! default EmptyString (action child) with
  | Some (Some p) => if truthy p then p else uniform
  | _ => uniform
  end.

(** The score [select] gives a child of [current]. *)
Definition childScore (st : Store) (current child : MCTSNode) : float :=
  getPUCTScore child (ofNat (getVisits current)) (priorOf st current child).

(** [current.children.reduce((best, child) => ...)], after its first element;
    [None] when a reference is dangling. *)
Fixpoint reduceBest (st : Store) (current : MCTSNode) (best : NodeRef)
    (rest : list NodeRef) : option NodeRef :=
  match rest with
  | [] => Some best
  | child :: rest' =>
      match heap st !! best, heap st !! child with
      | Some b, Some c =>
          reduceBest st current
            (if (childScore st current b <? childScore st current c)%float
             then child else best) rest'
      | _, _ => None
      end
  end.

Inductive SelectOutcome :=
| Selected (path : list NodeRef) (inProgress : gset StateHash)
| SelectThrew (inProgress : gset StateHash)
| SelectDiverges.

(** The [while] loop of [select] and the [push] after it; [fuel] bounds the
    number of iterations. *)
Fixpoint selectLoop (fuel : nat) (cfg : Config) (st : Store)
    (path : list NodeRef) (current : NodeRef) (inProgress : gset StateHash)
    : SelectOutcome :=
  match fuel with
  | 0 => SelectDiverges
  | S fuel' =>
      match heap st !! current with
      | None => SelectThrew inProgress
      | Some cur =>
          if negb (isTerminal cfg (state cur)) && isFullyExpanded cur then
            let path := path ++ [current] in
            match children cur with
            | [] => Selected (path ++ [current]) inProgress
            | first :: rest =>
                let nodeHash := hash (state cur) in
                if decide (nodeHash ∈ inProgress) then
                  selectLoop fuel' cfg st path current inProgress
                else
                  let inProgress := {[nodeHash]} ∪ inProgress in
                  match reduceBest st cur first rest with
                  | Some best => selectLoop fuel' cfg st path best inProgress
                  | None => SelectThrew inProgress
                  end
            end
          else Selected (path ++ [current]) inProgress
      end
  end.

Definition select (fuel : nat) (cfg : Config) (st : Store) (node : NodeRef)
    (inProgress : gset StateHash) : SelectOutcome :=
  selectLoop fuel cfg st [] node inProgress.

(** ** Expansion, backpropagation *)

(** One iteration of the [for] loop of [expand]. *)
Definition expandAction (node : NodeRef) (nodeState : DialogueState)
    (act : string) (prior : option float) (st : Store) : Store :=
  let newState := withNewMessage nodeState assistant act in
  let stateHash := hash newState in
  let '(childNode, st) :=
    match transpositionTable st !! stateHash with
    | Some c => (c, st)
    | None =>
        let c := length (heap st) in
        (c, setTranspositionTable (<[stateHash := c]> (transpositionTable st))
              (setHeap (heap st
                        ++ [newMCTSNode newState (Some node) (Some act)]) st))
    end in
  setActionPriors (<[act := prior]> (actionPriors st))
    (setHeap (alter (pushChild childNode) node (heap st)) st).

(** The [for] loop of [expand], from index [i]. *)
Fixpoint expandLoop (node : NodeRef) (nodeState : DialogueState)
    (actions : list string) (priors : list float) (i : nat) (st : Store)
    : Store :=
  match actions with
  | [] => st
  | act :: actions' =>
      expandLoop node nodeState actions' priors (S i)
        (expandAction node nodeState act (priors !! i) st)
  end.

(** [expand] from its [for] loop to its end: the children are attached and
    the node is marked. *)
Definition expandAttach (node : NodeRef) (nodeState : DialogueState)
    (actions : list string) (priors : list float) (st : Store) : Store :=
  let st := expandLoop node nodeState actions priors 0 st in
  setHeap (alter markFullyExpanded node (heap st)) st.

Definition backpropagate (cfg : Config) (path : list NodeRef) (value : float)
    (st : Store) : Store :=
  foldl (fun st node =>
           setHeap (alter (fun n =>
                             let n := addVisit value n in
                             if useRAVE (options cfg) then addRaveData value n
                             else n) node (heap st)) st)
        st (reverse path).

(** ** The bodies of [evaluate] and [calculateActionPriors] after the reply *)

(** The weighted score and the state with its [metrics] assigned. *)
Definition evaluate (s : DialogueState) (r : Reply) : float * DialogueState :=
  match r with
  | Text text _ =>
      let ms := (fun n => Math_max 0 (Math_min (parseFloat (trim n)) 1))
                  <$> split ","%char text in
      let coherence := ms !! 0 in
      let relevance := ms !! 1 in
      let engagement := ms !! 2 in
      ((ToNumber coherence * 0.3 + ToNumber relevance * 0.4
        + ToNumber engagement * 0.3)%float,
       {| conversationHistory := conversationHistory s;
          systemPrompt := systemPrompt s; currentQuery := currentQuery s;
          depth := depth s;
          metrics := Some {| coherence := coherence; relevance := relevance;
                             engagement := engagement |} |})
  | Failure => (0.5%float, s)
  end.

Section WithMath.

(** [Math.exp] and [**]. *)
Variable Math_exp : float -> float.
Variable Math_pow : float -> float -> float.

Definition calculateActionPriors (actions : list string) (r : Reply)
    : list float :=
  match r with
  | Text text _ =>
      let scores :=
        filter (fun score => PrimFloat.is_nan score = false)
               ((fun line => parseFloat (trim line))
                  <$> split "010"%char text) in
      let expScores := Math_exp <$> scores in
      let sum := foldl (fun a b => (a + b)%float) 0%float expScores in
      (fun score => (score / sum)%float) <$> expScores
  | Failure =>
      replicate (length actions) (1 / ofNat (length actions))%float
  end.

(** ** One simulation, from await to await *)

(** Who awaits [generateActions]: [expand] on a node, or [simulate] with
    its locals [depth] and [value]. *)
Inductive Caller :=
| ByExpand (node : NodeRef)
| BySimulate (depth : nat) (value : float).

(** Where a simulation is suspended, with the locals it will need. *)
Inductive Control :=
| AwaitSelect
| AwaitGenerateText (k : Caller) (s : DialogueState) (i : nat)
    (completions : list string)
| AwaitGenerateActions (k : Caller) (s : DialogueState) (actions : list string)
| AwaitPriorsText (node : NodeRef) (s : DialogueState) (actions : list string)
| AwaitPriors (node : NodeRef) (s : DialogueState) (actions : list string)
    (priors : list float)
| AwaitExpand (expandedNode : NodeRef)
| AwaitEvaluateText (s : DialogueState) (depth : nat) (value : float)
| AwaitEvaluate (s : DialogueState) (depth : nat) (value : float)
    (intermediateValue : float)
| AwaitSimulate (value : float)
| Finished
| Threw.

Record Simulation := { path : list NodeRef; control : Control }.

(** The call of [generateText] a suspended simulation waits for. *)
Definition pendingRequest (c : Control) : option Request :=
  match c with
  | AwaitGenerateText _ s i _ => Some (GenerateRequest s i)
  | AwaitPriorsText _ s actions => Some (PriorsRequest s actions)
  | AwaitEvaluateText s _ _ => Some (EvaluateRequest s)
  | _ => None
  end.

(** The [for] loop of [generateActions] at its test. *)
Definition generateActionsLoop (cfg : Config) (k : Caller) (s : DialogueState)
    (i : nat) (completions : list string) (st : Store) : Store * Control :=
  if (Z.of_nat i <? maxChildren (options cfg))%Z
  then (callOracle st, AwaitGenerateText k s i completions)
  else (st, AwaitGenerateActions k s completions).

(** [value / (depth || 1)] *)
Definition normalize (value : float) (depth : nat) : float :=
  (value / (if (depth =? 0)%nat then 1 else ofNat depth))%float.

(** The [while] loop of [simulate] at its test. *)
Definition simulateLoop (cfg : Config) (currentState : DialogueState)
    (depth : nat) (value : float) (st : Store) : Store * Control :=
  if negb (isTerminal cfg currentState)
     && (Z.of_nat depth <? simulationDepth cfg)%Z
  then generateActionsLoop cfg (BySimulate depth value) currentState 0 [] st
  else (st, AwaitSimulate (normalize value depth)).

(** [expand] up to its first await. *)
Definition expandEnter (cfg : Config) (node : NodeRef) (st : Store)
    : Store * Control :=
  match heap st !! node with
  | None => (st, Threw)
  | Some n =>
      if isTerminal cfg (state n) then (st, AwaitExpand node)
      else generateActionsLoop cfg (ByExpand node) (state n) 0 [] st
  end.

(** A suspended simulation resumes and runs to its next await. *)
Definition step (cfg : Config) (ev : EnvInput) (st : Store) (sim : Simulation)
    : Store * Control :=
  match control sim with
  | AwaitSelect =>
      match last (path sim) with
      | None => (st, Threw)
      | Some leaf =>
          match heap st !! leaf with
          | None => (st, Threw)
          | Some n =>
              if negb (isTerminal cfg (state n)) then expandEnter cfg leaf st
              else (st, Finished)
          end
      end
  | AwaitGenerateText k s i completions =>
      match reply ev with
      | Text text usage =>
          generateActionsLoop cfg k s (S i) (completions ++ [text])
            (addTokens usage st)
      | Failure => (st, AwaitGenerateActions k s [])
      end
  | AwaitGenerateActions (ByExpand node) s actions =>
      match actions with
      | [] => (setHeap (alter markFullyExpanded node (heap st)) st,
               AwaitExpand node)
      | _ :: _ => (callOracle st, AwaitPriorsText node s actions)
      end
  | AwaitPriorsText node s actions =>
      (match reply ev with
       | Text _ usage => addTokens usage st
       | Failure => st
       end,
       AwaitPriors node s actions (calculateActionPriors actions (reply ev)))
  | AwaitPriors node s actions priors =>
      let st := expandAttach node s actions priors st in
      match heap st !! node with
      | Some n =>
          match children n with
          | c :: _ => (st, AwaitExpand c)
          | [] => (st, Threw)
          end
      | None => (st, Threw)
      end
  | AwaitExpand expandedNode =>
      match heap st !! expandedNode with
      | Some n => simulateLoop cfg (state n) 0 0%float st
      | None => (st, Threw)
      end
  | AwaitGenerateActions (BySimulate depth value) s actions =>
      match actions with
      | [] => (st, AwaitSimulate (normalize value depth))
      | first :: _ =>
          let numActions := Nat.max 1 (Nat.sqrt (depth + 1)) in
          let selectedActions := take numActions actions in
          let randomAction :=
            nth (random ev mod length selectedActions) selectedActions first in
          (callOracle st,
           AwaitEvaluateText (withNewMessage s assistant randomAction)
             depth value)
      end
  | AwaitEvaluateText s depth value =>
      let '(intermediateValue, s') := evaluate s (reply ev) in
      (match reply ev with
       | Text _ usage => addTokens usage st
       | Failure => st
       end,
       AwaitEvaluate s' depth value intermediateValue)
  | AwaitEvaluate s depth value intermediateValue =>
      simulateLoop cfg s (S depth)
        (value + intermediateValue * Math_pow 0.95 (ofNat depth))%float st
  | AwaitSimulate value => (backpropagate cfg (path sim) value st, Finished)
  | Finished => (st, Finished)
  | Threw => (st, Threw)
  end.

(** ** The search *)

Record Engine := { store : Store; simulations : list Simulation }.

(** Simulation [who] resumes with [ev]. *)
Definition resume (cfg : Config) (who : nat) (ev : EnvInput) (e : Engine)
    : Engine :=
  match simulations e !! who with
  | None => e
  | Some sim =>
      let '(st, c) := step cfg ev (store e) sim in
      {| store := st;
         simulations := <[who := {| path := path sim; control := c |}]>
                          (simulations e) |}
  end.

Definition run (cfg : Config) (sched : list (nat * EnvInput)) (e : Engine)
    : Engine :=
  foldl (fun e ev => resume cfg ev.1 ev.2 e) e sched.

(** An oracle that answers by the request alone. *)
Definition Oracle : Type := Request -> Reply.

Definition oracleInput (o : Oracle) (c : Control) (rnd : nat) : EnvInput :=
  {| reply := match pendingRequest c with
              | Some q => o q
              | None => Failure
              end;
     random := rnd |}.

Definition resumeWith (cfg : Config) (o : Oracle) (who rnd : nat) (e : Engine)
    : Engine :=
  match simulations e !! who with
  | None => e
  | Some sim => resume cfg who (oracleInput o (control sim) rnd) e
  end.

(** The search against the oracle [o]: [order] lists which simulation
    resumes next, with the index it draws. *)
Definition runWith (cfg : Config) (o : Oracle) (order : list (nat * nat))
    (e : Engine) : Engine :=
  foldl (fun e x => resumeWith cfg o x.1 x.2 e) e order.

End WithMath.

(** The [map] of [findBestResponse]: every simulation runs [select] when it is
    created, one after the other, and suspends.  [None] when a [select] does
    not return. *)
Fixpoint launch (fuel : nat) (cfg : Config) (st : Store) (root : NodeRef)
    (n : nat) (inProgress : gset StateHash) : option (list Simulation) :=
  match n with
  | 0 => Some []
  | S n' =>
      match select fuel cfg st root inProgress with
      | Selected p inProgress' =>
          cons {| path := p; control := AwaitSelect |}
            <$> launch fuel cfg st root n' inProgress'
      | SelectThrew inProgress' =>
          cons {| path := []; control := Threw |}
            <$> launch fuel cfg st root n' inProgress'
      | SelectDiverges => None
      end
  end.

(** The store when [findBestResponse] has made the root. *)
Definition initialStore (initialState : DialogueState) : Store :=
  {| heap := [newMCTSNode initialState None None];
     transpositionTable := {[hash initialState := 0]};
     actionPriors := ∅; completionTokens := 0; oracleCalls := 0 |}.

Definition start (fuel : nat) (cfg : Config) (initialState : DialogueState)
    : option Engine :=
  let st := initialStore initialState in
  (fun sims => {| store := st; simulations := sims |})
    <$> launch fuel cfg st root (numSimulations cfg) ∅.

(** The [reduce] over [root.children] that keeps the child with the most
    visits, the earlier one on a tie; [None] when a reference is dangling. *)
Fixpoint mostVisited (st : Store) (best : NodeRef) (rest : list NodeRef)
    : option NodeRef :=
  match rest with
  | [] => Some best
  | child :: rest' =>
      match heap st !! best, heap st !! child with
      | Some b, Some c =>
          mostVisited st (if (getVisits b <? getVisits c)%nat then child else best)
            rest'
      | _, _ => None
      end
  end.

(** The end of [findBestResponse], after [Promise.all]; [None] when it
    throws. *)
Definition bestAction (st : Store) : option string :=
  match heap st !! root with
  | None => None
  | Some r =>
      match children r with
      | [] => Some EmptyString
      | first :: rest =>
          match mostVisited st first rest with
          | Some best =>
              match heap st !! best with
              | Some b => Some (default EmptyString (action b))
              | None => None
              end
          | None => None
          end
      end
  end.

Definition isFinished (c : Control) : bool :=
  match c with Finished => true | _ => false end.

Definition isThrew (c : Control) : bool :=
  match c with Threw => true | _ => false end.

(** Every promise of [simulationPromises] is fulfilled. *)
Definition allFinished (e : Engine) : bool :=
  forallb (fun sim => isFinished (control sim)) (simulations e).

(** A promise of [simulationPromises] is rejected. *)
Definition anyThrew (e : Engine) : bool :=
  existsb (fun sim => isThrew (control sim)) (simulations e).

Inductive SearchOutcome :=
| Resolved (response : string)
| Rejected
| Pending
| Hangs.

(** What [findBestResponse] has come to when the simulations are as in [e]. *)
Definition settle (e : Engine) : SearchOutcome :=
  if anyThrew e then Rejected
  else if allFinished e then
    match bestAction (store e) with
    | Some a => Resolved a
    | None => Rejected
    end
  else Pending.

Definition findBestResponse (Math_exp : float -> float)
    (Math_pow : float -> float -> float) (fuel : nat) (cfg : Config)
    (initialState : DialogueState) (sched : list (nat * EnvInput))
    : SearchOutcome :=
  match start fuel cfg initialState with
  | None => Hangs
  | Some e => settle (run Math_exp Math_pow cfg sched e)
  end.

(** The [options] argument of [mcts], every field optional. *)
Record PartialOptions := {
  optMaxDepth : option Z;
  optMaxChildren : option Z;
  optExplorationConstant : option float;
  optTemperature : option float;
  optUseRAVE : option bool
}.

Definition mctsOptions (o : PartialOptions) : Options :=
  {| maxDepth := default 10%Z (optMaxDepth o);
     maxChildren := default 3%Z (optMaxChildren o);
     explorationConstant := default 1.5%float (optExplorationConstant o);
     temperature := default 0.8%float (optTemperature o);
     useRAVE := default true (optUseRAVE o) |}.

(** The configuration and the initial state [mcts] builds. *)
Definition mctsConfig (numSimulations : option nat) (simulationDepth : option Z)
    (o : PartialOptions) : Config :=
  {| simulationDepth := default 5%Z simulationDepth;
     numSimulations := default 10 numSimulations;
     options := mctsOptions o |}.

Definition mctsInitialState (system prompt : string) : DialogueState :=
  DialogueState_create system [] prompt 0 None.

(** ** Observations and invariants of a search *)

Definition rootVisits (st : Store) : nat :=
  match heap st !! root with Some r => visits r | None => 0 end.

Definition rootChildren (st : Store) : list NodeRef :=
  match heap st !! root with Some r => children r | None => [] end.

(** The action of the first child of the root. *)
Definition firstAction (st : Store) : option string :=
  match rootChildren st with
  | [] => None
  | c :: _ => match heap st !! c with Some n => action n | None => None end
  end.

(** The first child of the root that carries the action [act]. *)
Definition childFor (st : Store) (act : string) : option MCTSNode :=
  head (filter (fun n => action n = Some act)
               (omap (fun c => heap st !! c) (rootChildren st))).

(** The tree of a search that has only ever expanded its root, whose state
    is [s0]: the children of the root are other nodes of the heap, no node
    but the root has been visited, the transposition table points to nodes
    with the state it is keyed by, and every other node is a child state of
    [s0]. *)
Record StoreInv (s0 : DialogueState) (st : Store) : Prop := {
  inv_root : exists r, heap st !! root = Some r /\ state r = s0 /\
               Forall (fun c => c <> root /\ c < length (heap st)) (children r);
  inv_zero : forall j n, j <> root -> heap st !! j = Some n -> visits n = 0;
  inv_table : forall h c, transpositionTable st !! h = Some c ->
                exists n, heap st !! c = Some n /\ hash (state n) = h;
  inv_child : forall c n, c <> root -> heap st !! c = Some n ->
                exists act, action n = Some act /\
                            state n = withNewMessage s0 assistant act
}.

(** A field update that keeps [state] and [visits]. *)
Definition keeps (f : MCTSNode -> MCTSNode) : Prop :=
  forall x, state (f x) = state x /\ visits (f x) = visits x.

(** The two stores hold the same nodes and the same table. *)
Definition sameTree (st st' : Store) : Prop :=
  heap st' = heap st /\ transpositionTable st' = transpositionTable st.

Definition finishedBit (c : Control) : nat := if isFinished c then 1 else 0.

Fixpoint countFinished (sims : list Simulation) : nat :=
  match sims with
  | [] => 0
  | sim :: sims' => finishedBit (control sim) + countFinished sims'
  end.

(** The locals of a simulation that was selected at the root: it expands the
    root, with the state [s0], asks for priors only of a non-empty list of
    actions, rolls out from a node of the heap, and has not thrown. *)
Definition ctlOK (len : nat) (s0 : DialogueState) (c : Control) : Prop :=
  match c with
  | AwaitGenerateText (ByExpand node) s _ _
  | AwaitGenerateActions (ByExpand node) s _ => node = root /\ s = s0
  | AwaitPriorsText node s actions
  | AwaitPriors node s actions _ => node = root /\ s = s0 /\ actions <> []
  | AwaitExpand c => c < len
  | Threw => False
  | _ => True
  end.

Definition simOK (len : nat) (s0 : DialogueState) (sim : Simulation) : Prop :=
  path sim = [root] /\ ctlOK len s0 (control sim).

(** What a step does to the tree when the simulation was selected at the
    root of a search whose initial state is not terminal. *)
Definition stepOK (s0 : DialogueState) (st : Store) (c : Control)
    (r : Store * Control) : Prop :=
  StoreInv s0 r.1 /\ length (heap st) <= length (heap r.1) /\
  ctlOK (length (heap r.1)) s0 r.2 /\
  rootVisits r.1 + finishedBit c = rootVisits st + finishedBit r.2 /\
  (forall a, firstAction st = Some a -> firstAction r.1 = Some a).

Definition Inv (s0 : DialogueState) (e : Engine) : Prop :=
  StoreInv s0 (store e) /\
  Forall (simOK (length (heap (store e))) s0) (simulations e) /\
  rootVisits (store e) = countFinished (simulations e).

(** ** The concrete scenario of the specification *)

(** The stub oracle: it proposes "A" then "B", answers the request for
    priors with [priorsReply], and rates a state by its latest turn. *)
Definition stubOracle (priorsReply : Reply) : Oracle :=
  fun q =>
    match q with
    | GenerateRequest _ 0 => Text "A" 1
    | GenerateRequest _ (S _) => Text "B" 1
    | PriorsRequest _ _ => priorsReply
    | EvaluateRequest s =>
        match getLastResponse s with
        | Some "A"%string => Text "1,1,1" 1
        | _ => Text "0,0,0" 1
        end
    end.

(** Before it has expanded the root a simulation of the scenario holds a
    prefix of the actions "A", "B"; afterwards the first child of the root
    is the child for "A". *)
Definition stubOK (st : Store) (c : Control) : Prop :=
  match c with
  | AwaitSelect => True
  | AwaitGenerateText (ByExpand _) _ i completions =>
      (i = 0 /\ completions = []) \/ (i = 1 /\ completions = ["A"%string])
  | AwaitGenerateActions (ByExpand _) _ actions
  | AwaitPriorsText _ _ actions
  | AwaitPriors _ _ actions _ => actions = ["A"%string; "B"%string]
  | _ => firstAction st = Some "A"%string
  end.

Definition stubTree (st : Store) : Prop :=
  rootChildren st = [] \/ firstAction st = Some "A"%string.

Definition StubInv (s0 : DialogueState) (e : Engine) : Prop :=
  Inv s0 e /\ stubTree (store e) /\
  Forall (fun sim => stubOK (store e) (control sim)) (simulations e).

(** [mcts] called with [numSimulations = n] and the options
    [{ maxDepth: 1, maxChildren: 2 }]. *)
Definition scenarioConfig (n : nat) : Config :=
  mctsConfig (Some n) None
    {| optMaxDepth := Some 1%Z; optMaxChildren := Some 2%Z;
       optExplorationConstant := None; optTemperature := None;
       optUseRAVE := None |}.

Definition scenarioState : DialogueState := mctsInitialState "system" "hello".

(** The simulations resume in turn, [rounds] times each. *)
Definition roundRobin (n rounds : nat) : list (nat * nat) :=
  mjoin (replicate rounds ((fun i => (i, 0)) <$> seq 0 n)).

(** Each simulation resumes once, with [ev]. *)
Definition onceEach (n : nat) (ev : EnvInput) : list (nat * EnvInput) :=
  (fun i => (i, ev)) <$> seq 0 n.

(** ** A bound on the resumptions of a simulation *)

(** [generateActions] awaits the oracle at most [maxChildren] times. *)
Definition childrenBudget (cfg : Config) : nat :=
  Z.to_nat (maxChildren (options cfg)).

(** [simulate] at [depth] suspends at most this often before it returns. *)
Definition rolloutBudget (cfg : Config) (depth : nat) : nat :=
  1 + (Z.to_nat (simulationDepth cfg) - depth) * (childrenBudget cfg + 5).

#[global] Arguments rolloutBudget : simpl never.
#[global] Arguments childrenBudget : simpl never.

(** A bound on the number of times a simulation suspended at [c] resumes
    before it has finished or thrown. *)
Definition remaining (cfg : Config) (c : Control) : nat :=
  match c with
  | AwaitSelect => childrenBudget cfg + 6 + rolloutBudget cfg 0
  | AwaitGenerateText (ByExpand _) _ i _ =>
      (childrenBudget cfg - i) + 5 + rolloutBudget cfg 0
  | AwaitGenerateActions (ByExpand _) _ _ => 4 + rolloutBudget cfg 0
  | AwaitPriorsText _ _ _ => 3 + rolloutBudget cfg 0
  | AwaitPriors _ _ _ _ => 2 + rolloutBudget cfg 0
  | AwaitExpand _ => 1 + rolloutBudget cfg 0
  | AwaitGenerateText (BySimulate d _) _ i _ =>
      (childrenBudget cfg - i) + 4 + rolloutBudget cfg (S d)
  | AwaitGenerateActions (BySimulate d _) _ _ => 3 + rolloutBudget cfg (S d)
  | AwaitEvaluateText _ d _ => 2 + rolloutBudget cfg (S d)
  | AwaitEvaluate _ d _ _ => 1 + rolloutBudget cfg (S d)
  | AwaitSimulate _ => 1
  | Finished | Threw => 0
  end.

(** The bound for a simulation that has just selected. *)
Definition budget (cfg : Config) : nat := remaining cfg AwaitSelect.

(** How often simulation [who] resumes in a schedule. *)
Definition resumes {A : Type} (who : nat) (sched : list (nat * A)) : nat :=
  length (filter (fun x => x.1 = who) sched).

(** The promise of the simulation is fulfilled or rejected. *)
Definition settled (c : Control) : bool := isFinished c || isThrew c.

(** ** A terminal initial state *)

Definition finishedAtRoot : Simulation :=
  {| path := [root]; control := Finished |}.

Definition selectedAtRoot : Simulation :=
  {| path := [root]; control := AwaitSelect |}.

Definition idle (sim : Simulation) : Prop :=
  sim = selectedAtRoot \/ sim = finishedAtRoot.

(** ** Concrete inputs *)

(** Stand-ins for [Math.exp] and [**] in the runs below, none of which
    calls them. *)
Definition noExp : float -> float := fun _ => nan.

Definition noPow : float -> float -> float := fun _ _ => nan.

(** The oracle fails; nothing is drawn. *)
Definition failureInput : EnvInput := {| reply := Failure; random := 0 |}.

(** Every simulation resumes in turn with [ev], [rounds] times. *)
Definition inTurn (n rounds : nat) (ev : EnvInput) : list (nat * EnvInput) :=
  mjoin (replicate rounds (onceEach n ev)).

(** A state whose query closes the conversation. *)
Definition closingState : DialogueState :=
  mctsInitialState "system" "Thank you, goodbye!".

Definition withExplorationConstant (C : float) (cfg : Config) : Config :=
  {| simulationDepth := simulationDepth cfg;
     numSimulations := numSimulations cfg;
     options := {| maxDepth := maxDepth (options cfg);
                   maxChildren := maxChildren (options cfg);
                   explorationConstant := C;
                   temperature := temperature (options cfg);
                   useRAVE := useRAVE (options cfg) |} |}.

(** A root that has been expanded once, with one child. *)
Definition expandedStore : Store :=
  expandAttach root scenarioState ["A"%string] [1%float]
    (initialStore scenarioState).

(** ** The claims that fail, as they are stated *)

(** Visit conservation: when the search is over the root has been visited
    [numSimulations] times. *)
Definition visitConservation (Math_exp : float -> float)
    (Math_pow : float -> float -> float) (fuel : nat) (cfg : Config)
    (s0 : DialogueState) (sched : list (nat * EnvInput)) : Prop :=
  forall e0, start fuel cfg s0 = Some e0 ->
    allFinished (run Math_exp Math_pow cfg sched e0) = true ->
    rootVisits (store (run Math_exp Math_pow cfg sched e0))
    = numSimulations cfg.

(** Expansion happens once: the child list of the root holds no entry
    twice. *)
Definition expandedOnce (Math_exp : float -> float)
    (Math_pow : float -> float -> float) (fuel : nat) (cfg : Config)
    (s0 : DialogueState) (o : Oracle) (order : list (nat * nat)) : Prop :=
  forall e0, start fuel cfg s0 = Some e0 ->
    NoDup (rootChildren (store (runWith Math_exp Math_pow cfg o order e0))).

(** The key of the child state [expand] makes for [act]. *)
Definition childHash (s : DialogueState) (act : string) : StateHash :=
  hash (withNewMessage s assistant act).

(** ** A bound on the calls of the oracle *)

(** Every node but the root is as its constructor made it, a child of the
    root for some action. *)
Definition Flat (s0 : DialogueState) (st : Store) : Prop :=
  forall j n, j <> root -> heap st !! j = Some n ->
    exists act, n = newMCTSNode (withNewMessage s0 assistant act) (Some root)
                      (Some act).

(** The calls of [generateText] a simulation suspended at [c] can still
    issue. *)
Definition rolloutCalls (cfg : Config) (depth : nat) : nat :=
  (Z.to_nat (simulationDepth cfg) - depth) * (childrenBudget cfg + 1).

#[global] Arguments rolloutCalls : simpl never.

Definition callsLeft (cfg : Config) (c : Control) : nat :=
  match c with
  | AwaitSelect => childrenBudget cfg + 1 + rolloutCalls cfg 0
  | AwaitGenerateText (ByExpand _) _ i _ =>
      (childrenBudget cfg - S i) + 1 + rolloutCalls cfg 0
  | AwaitGenerateActions (ByExpand _) _ _ => 1 + rolloutCalls cfg 0
  | AwaitPriorsText _ _ _ | AwaitPriors _ _ _ _ | AwaitExpand _ =>
      rolloutCalls cfg 0
  | AwaitGenerateText (BySimulate d _) _ i _ =>
      (childrenBudget cfg - S i) + 1 + rolloutCalls cfg (S d)
  | AwaitGenerateActions (BySimulate d _) _ _ => 1 + rolloutCalls cfg (S d)
  | AwaitEvaluateText _ d _ | AwaitEvaluate _ d _ _ => rolloutCalls cfg (S d)
  | AwaitSimulate _ | Finished | Threw => 0
  end.

Fixpoint totalCallsLeft (cfg : Config) (sims : list Simulation) : nat :=
  match sims with
  | [] => 0
  | sim :: sims' => callsLeft cfg (control sim) + totalCallsLeft cfg sims'
  end.

(** ** Properties of [select], [backpropagate] and [expand] on any tree *)

(** The test of the [while] loop of [select]. *)
Definition selectable (cfg : Config) (n : MCTSNode) : bool :=
  negb (isTerminal cfg (state n)) && isFullyExpanded n.

(** The paths [select] can return from [current]: it stops on a node that
    fails the loop test, pushes a node that passes it but has no child
    twice, and otherwise goes on from a child. *)
Inductive selectPath (cfg : Config) (st : Store)
    : NodeRef -> list NodeRef -> Prop :=
| selectPath_leaf current n :
    heap st !! current = Some n -> selectable cfg n = false ->
    selectPath cfg st current [current]
| selectPath_childless current n :
    heap st !! current = Some n -> selectable cfg n = true ->
    children n = [] ->
    selectPath cfg st current [current; current]
| selectPath_child current n child p :
    heap st !! current = Some n -> selectable cfg n = true ->
    child ∈ children n ->
    selectPath cfg st child p ->
    selectPath cfg st current (current :: p).

(** How often [node] occurs in [path]. *)
Definition occurrences (node : NodeRef) (path : list NodeRef) : nat :=
  length (filter (fun x => x = node) path).

(** The body of the loop of [backpropagate]. *)
Definition recordVisit (cfg : Config) (value : float) (n : MCTSNode)
    : MCTSNode :=
  let n := addVisit value n in
  if useRAVE (options cfg) then addRaveData value n else n.

(** The transposition table and the heap agree: an entry of the table is a
    node with the state the entry is keyed by, and every node is the entry
    for its state. *)
Definition TableInv (st : Store) : Prop :=
  (forall h c, transpositionTable st !! h = Some c ->
     exists n, heap st !! c = Some n /\ hash (state n) = h) /\
  (forall c n, heap st !! c = Some n ->
     transpositionTable st !! hash (state n) = Some c).

(** ** [mcts] *)

(** What [mcts] has come to when the simulations have resumed as in
    [sched]: the outcome of [findBestResponse] and
    [mctsInstance.completionTokens], which it returns with the response
    once the search has resolved. *)
Definition mcts (Math_exp : float -> float)
    (Math_pow : float -> float -> float) (fuel : nat)
    (system prompt : string) (numSimulations : option nat)
    (simulationDepth : option Z) (o : PartialOptions)
    (sched : list (nat * EnvInput)) : SearchOutcome * Z :=
  let cfg := mctsConfig numSimulations simulationDepth o in
  match start fuel cfg (mctsInitialState system prompt) with
  | None => (Hangs, 0%Z)
  | Some e0 =>
      let e := run Math_exp Math_pow cfg sched e0 in
      (settle e, completionTokens (store e))
  end.

Definition withTemperature (t : float) (cfg : Config) : Config :=
  {| simulationDepth := simulationDepth cfg;
     numSimulations := numSimulations cfg;
     options := {| maxDepth := maxDepth (options cfg);
                   maxChildren := maxChildren (options cfg);
                   explorationConstant := explorationConstant (options cfg);
                   temperature := t;
                   useRAVE := useRAVE (options cfg) |} |}.

Definition withSimulationDepth (d : Z) (cfg : Config) : Config :=
  {| simulationDepth := d; numSimulations := numSimulations cfg;
     options := options cfg |}.

(** The sum of the [usage.completionTokens] of the replies. *)
Definition totalUsage (replies : list (string * Z)) : Z :=
  foldr Z.add 0%Z (snd <$> replies).

(** The inputs carry the replies, all of them texts. *)
Definition carry (evs : list EnvInput) (replies : list (string * Z)) : Prop :=
  reply <$> evs = (fun r => Text r.1 r.2) <$> replies.

(** A rollout that waits for proposals is at a depth below
    [simulationDepth]. *)
Definition depthOK (cfg : Config) (c : Control) : Prop :=
  match c with
  | AwaitGenerateText (BySimulate d _) _ _ _
  | AwaitGenerateActions (BySimulate d _) _ _ =>
      (Z.of_nat d < simulationDepth cfg)%Z
  | _ => True
  end.

(** The two schedules resume the same simulations with the same replies;
    the indices drawn may differ. *)
Definition sameReplies (sched sched' : list (nat * EnvInput)) : Prop :=
  Forall2 (fun x y => x.1 = y.1 /\ reply x.2 = reply y.2) sched sched'.

(** ** An oracle that always fails *)

(** Where a simulation can be when every call of the oracle has failed. *)
Definition failOK (c : Control) : Prop :=
  match c with
  | AwaitGenerateActions _ _ actions => actions = []
  | AwaitPriorsText _ _ _ | AwaitPriors _ _ _ _
  | AwaitEvaluateText _ _ _ | AwaitEvaluate _ _ _ _ => False
  | _ => True
  end.

(** A bound on the resumptions it still needs. *)
Definition failRemaining (c : Control) : nat :=
  match c with
  | AwaitSelect => 7
  | AwaitGenerateText (ByExpand _) _ _ _ => 6
  | AwaitGenerateActions (ByExpand _) _ _ => 5
  | AwaitExpand _ => 4
  | AwaitGenerateText (BySimulate _ _) _ _ _ => 3
  | AwaitGenerateActions (BySimulate _ _) _ _ => 2
  | AwaitSimulate _ => 1
  | _ => 0
  end.

(** The tree is the root alone and no token was counted. *)
Definition barren (st : Store) : Prop :=
  length (heap st) = 1 /\ rootChildren st = [] /\ completionTokens st = 0%Z.

Definition allFail (sched : list (nat * EnvInput)) : Prop :=
  Forall (fun x => reply x.2 = Failure) sched.

Definition FailInv (s0 : DialogueState) (e : Engine) : Prop :=
  Inv s0 e /\ barren (store e) /\
  Forall (fun sim => failOK (control sim)) (simulations e).

End WithRuntime.

(** ** AdvancedSelfConsistency: the edit distance *)

(** [s.charAt(i)]: the character at [i] as a string, the empty string out
    of range. *)
Definition charAt (s : string) (i : nat) : string :=
  match String.get i s with
  | Some c => String c EmptyString
  | None => EmptyString
  end.

(** The array [costs] of [editDistance].  An entry is a count, or [None]
    when it is [undefined] or [NaN]. *)
Definition arrayGet (costs : list (option nat)) (j : nat) : option nat :=
  mjoin (costs !! j).

(** [costs[j] = v]: an assignment beyond the end extends the array. *)
Definition arraySet (j : nat) (v : option nat) (costs : list (option nat))
    : list (option nat) :=
  if decide (j < length costs) then <[j := v]> costs
  else costs ++ replicate (j - length costs) None ++ [v].

(** [Math.min] on counts. *)
Definition minCount (a b : option nat) : option nat :=
  match a, b with
  | Some x, Some y => Some (Nat.min x y)
  | _, _ => None
  end.

(** The body of the inner loop of [editDistance], on [costs] and
    [lastValue]. *)
Definition editInner (s1 s2 : string) (i : nat)
    (acc : list (option nat) * option nat) (j : nat)
    : list (option nat) * option nat :=
  let '(costs, lastValue) := acc in
  if (i =? 0)%nat then (arraySet j (Some j) costs, lastValue)
  else if (0 <? j)%nat then
    let newValue := arrayGet costs (j - 1) in
    let newValue :=
      if negb (String.eqb (charAt s1 (i - 1)) (charAt s2 (j - 1)))
      then S <$> minCount (minCount newValue lastValue) (arrayGet costs j)
      else newValue in
    (arraySet (j - 1) lastValue costs, newValue)
  else (costs, lastValue).

(** The body of the outer loop. *)
Definition editOuter (s1 s2 : string) (costs : list (option nat)) (i : nat)
    : list (option nat) :=
  let '(costs, lastValue) :=
    foldl (editInner s1 s2 i) (costs, Some i)
          (seq 0 (S (String.length s2))) in
  if (0 <? i)%nat then arraySet (String.length s2) lastValue costs else costs.

Definition editDistance (s1 s2 : string) : option nat :=
  arrayGet (foldl (editOuter s1 s2) [] (seq 0 (S (String.length s1))))
           (String.length s2).

(** The recurrence [editDistance] tabulates, on the characters of the two
    strings from the last to the first. *)
Fixpoint editRecurrence (s : list ascii) : list ascii -> nat :=
  fix inner (t : list ascii) : nat :=
    match s, t with
    | [], _ => length t
    | _, [] => length s
    | a :: s', b :: t' =>
        if decide (a = b) then editRecurrence s' t'
        else S (Nat.min (Nat.min (editRecurrence s' t') (inner t'))
                        (editRecurrence s' t))
    end.

(** The Levenshtein distance as it is usually defined: the least of a
    deletion, an insertion and a substitution, which costs nothing between
    equal characters. *)
Fixpoint levenshtein (s : list ascii) : list ascii -> nat :=
  fix inner (t : list ascii) : nat :=
    match s, t with
    | [], _ => length t
    | _, [] => length s
    | a :: s', b :: t' =>
        Nat.min (Nat.min (S (levenshtein s' t)) (S (inner t')))
                (levenshtein s' t' + (if decide (a = b) then 0 else 1))
    end.

(** The entry of the table for the first [i] characters of [s1] and the
    first [j] of [s2]. *)
Definition editTable (s1 s2 : string) (i j : nat) : nat :=
  editRecurrence (reverse (take i (list_ascii_of_string s1)))
                 (reverse (take j (list_ascii_of_string s2))).

(** The row [f 0 .. f n] of the table. *)
Definition rowOf (f : nat -> nat) (n : nat) : list (option nat) :=
  (fun j => Some (f j)) <$> seq 0 (S n).

(** ** AdvancedSelfConsistency: similarity, clusters and the answer *)

(** A count as a number; [undefined] and [NaN] give [NaN]. *)
Definition countToNumber (c : option nat) : float :=
  match c with
  | Some d => ofNat d
  | None => nan
  end.

Definition calculateSimilarity (a b : string) : float :=
  let longer := if (String.length b <? String.length a)%nat then a else b in
  let shorter := if (String.length b <? String.length a)%nat then b else a in
  if (String.length longer =? 0)%nat then 1%float
  else ((ofNat (String.length longer)
         - countToNumber (editDistance longer shorter))
        / ofNat (String.length longer))%float.

(** The inner [for] loop of [clusterSimilarResponses]: [response] is pushed
    on the first cluster whose first element it is similar to, and
    [addedToCluster] tells whether there was one.  [None] when a cluster
    is empty: [cluster[0]] is [undefined] and reading its [length]
    throws. *)
Fixpoint pushOnSimilar (similarityThreshold : float) (response : string)
    (clusters : list (list string)) : option (bool * list (list string)) :=
  match clusters with
  | [] => Some (false, [])
  | cluster :: rest =>
      match cluster with
      | [] => None
      | first :: _ =>
          if (similarityThreshold <=? calculateSimilarity response first)%float
          then Some (true, (cluster ++ [response]) :: rest)
          else (fun r : bool * list (list string) => (r.1, cluster :: r.2))
                 <$> pushOnSimilar similarityThreshold response rest
      end
  end.

(** The body of the outer loop. *)
Definition clusterStep (similarityThreshold : float)
    (clusters : list (list string)) (response : string)
    : option (list (list string)) :=
  (fun r : bool * list (list string) =>
     if r.1 then r.2 else r.2 ++ [[response]])
    <$> pushOnSimilar similarityThreshold response clusters.

Definition clusterSimilarResponses (similarityThreshold : float)
    (responses : list string) : option (list (list string)) :=
  foldl (fun acc response =>
           acc ≫= fun clusters =>
             clusterStep similarityThreshold clusters response)
        (Some []) responses.

Record ClusterInfo := {
  answer : option string;
  frequency : nat;
  variants : list string
}.

(** [clusterInfo.sort((a, b) => b.frequency - a.frequency)]: the sort is
    stable, so the result is the one of an insertion that keeps an entry
    before the later entries of the same frequency. *)
Fixpoint insertByFrequency (x : ClusterInfo) (l : list ClusterInfo)
    : list ClusterInfo :=
  match l with
  | [] => [x]
  | y :: l' =>
      if (frequency x <? frequency y)%nat then y :: insertByFrequency x l'
      else x :: l
  end.

Definition sortByFrequency (l : list ClusterInfo) : list ClusterInfo :=
  foldr insertByFrequency [] l.

Record Aggregated := {
  clusters : list ClusterInfo;
  totalResponses : nat;
  numUniqueClusters : nat
}.

Definition clusterInfoOf (cluster : list string) : ClusterInfo :=
  {| answer := head cluster; frequency := length cluster;
     variants := cluster |}.

Definition aggregateResults (similarityThreshold : float)
    (responses : list string) : option Aggregated :=
  (fun raw =>
     {| clusters := sortByFrequency (clusterInfoOf <$> raw);
        totalResponses := length responses;
        numUniqueClusters := length raw |})
    <$> clusterSimilarResponses similarityThreshold responses.

(** What [generateText] returns to [generateResponses]: a text with an
    optional usage, or it throws. *)
Inductive SampleReply :=
| Sample (text : string) (usage : option Z)
| SampleFailure.

(** The loop of [generateResponses], with [remaining] iterations to go;
    [oracle i] is the reply to the call of iteration [i].  [None] when a
    call throws: nothing catches it. *)
Fixpoint generateResponsesLoop (oracle : nat -> SampleReply)
    (remaining i : nat) (responses : list string) (tokens : Z)
    : option (list string * Z) :=
  match remaining with
  | 0 => Some (responses, tokens)
  | S remaining' =>
      match oracle i with
      | Sample text usage =>
          generateResponsesLoop oracle remaining' (S i) (responses ++ [text])
            (tokens + default 0%Z usage)%Z
      | SampleFailure => None
      end
  end.

Definition generateResponses (numSamples : nat) (oracle : nat -> SampleReply)
    : option (list string * Z) :=
  generateResponsesLoop oracle numSamples 0 [] 0%Z.

(** The end of [selfConsistency]: the answer it appends to the report, or
    the message that there is none. *)
Inductive Verdict :=
| FinalAnswer (answer : option string)
| NoConsistentAnswer.

(** [selfConsistency], with the defaults of the constructor (5 samples,
    threshold 0.8): its verdict and the tokens counted; [None] when it
    rejects.  The report [evaluate] builds beside them only reads the
    clusters. *)
Definition selfConsistency (oracle : nat -> SampleReply)
    : option (Verdict * Z) :=
  generateResponses 5 oracle ≫= fun r : list string * Z =>
  aggregateResults 0.8 r.1 ≫= fun aggregated =>
  clusterSimilarResponses 0.8 r.1 ≫= fun _ =>
  Some (match clusters aggregated with
        | c :: _ => FinalAnswer (answer c)
        | [] => NoConsistentAnswer
        end, r.2).

(** The clusters as [clusterSimilarResponses] keeps them: none is empty,
    the members of a cluster are similar to its first element, and no
    member of a cluster is similar to the first element of an earlier
    cluster. *)
Definition similar (similarityThreshold : float) (a b : string) : bool :=
  (similarityThreshold <=? calculateSimilarity a b)%float.

Record Clustered (similarityThreshold : float) (cl : list (list string))
    : Prop := {
  clustered_nonempty : Forall (fun c => c <> []) cl;
  clustered_similar : forall first rest,
    first :: rest ∈ cl ->
    Forall (fun r => similar similarityThreshold r first = true) rest;
  clustered_apart : forall i k first ci ck r,
    i < k -> cl !! i = Some (first :: ci) -> cl !! k = Some ck -> r ∈ ck ->
    similar similarityThreshold r first = false
}.

Definition totalFrequency (l : list ClusterInfo) : nat :=
  foldr (fun c acc => frequency c + acc) 0 l.

(** No entry has a smaller frequency than a later one. *)
Fixpoint descending (l : list ClusterInfo) : Prop :=
  match l with
  | [] => True
  | x :: l' => Forall (fun y => frequency y <= frequency x) l' /\ descending l'
  end.

Definition textOf (r : SampleReply) : string :=
  match r with
  | Sample text _ => text
  | SampleFailure => EmptyString
  end.

(** [usage?.completionTokens ?? 0] *)
Definition usageOf (r : SampleReply) : Z :=
  match r with
  | Sample _ usage => default 0%Z usage
  | SampleFailure => 0%Z
  end.

Definition isSample (r : SampleReply) : bool :=
  match r with
  | Sample _ _ => true
  | SampleFailure => false
  end.

(** The texts and the tokens of the replies to the calls [i], ...,
    [i + n - 1]. *)
Definition sampledTexts (oracle : nat -> SampleReply) (i n : nat)
    : list string :=
  (fun j => textOf (oracle j)) <$> seq i n.

Definition sampledTokens (oracle : nat -> SampleReply) (i n : nat) : Z :=
  foldr (fun j acc => (usageOf (oracle j) + acc)%Z) 0%Z (seq i n).

(** ** CoTReflection: [extractSection] *)

(** [s] without its first [n] characters. *)
Fixpoint skip (n : nat) (s : string) : string :=
  match n, s with
  | S n', String _ s' => skip n' s'
  | _, _ => s
  end.

(** The text before, and the text after, the first place where [text]
    reads [pattern] when letter case is ignored ([pattern] is in lower
    case); [None] when there is none. *)
Fixpoint beforeFirst (pattern text : string) : option string :=
  if startsWith (asciiLowerCase text) pattern then Some EmptyString
  else match text with
       | EmptyString => None
       | String c text' => String c <$> beforeFirst pattern text'
       end.

Fixpoint afterFirst (pattern text : string) : option string :=
  if startsWith (asciiLowerCase text) pattern
  then Some (skip (String.length pattern) text)
  else match text with
       | EmptyString => None
       | String _ text' => afterFirst pattern text'
       end.

Definition openingTag (tag : string) : string :=
  ("<" +:+ asciiLowerCase tag +:+ ">")%string.

Definition closingTag (tag : string) : string :=
  ("</" +:+ asciiLowerCase tag +:+ ">")%string.

(** [text.match(regex)?.[1]] for the regular expression
    [<tag>([\s\S]*?)</tag>] with the flag [i], [tag] being a word as in the
    four calls of [send] ([plainTag] below): the match starts at the first
    opening tag, and the group, which is lazy, ends before the first closing
    tag after it.  Under the flag [i] a letter a-z of the pattern matches
    itself and its capital, and no character from U+0080 on. *)
Definition matchSection (text tag : string) : option string :=
  afterFirst (openingTag tag) text ≫= beforeFirst (closingTag tag).

Definition noSection (tag : string) : string :=
  ("No " +:+ tag +:+ " process provided.")%string.

Definition extractSection (text tag : string) : string :=
  match matchSection text tag with
  | Some (String c body) => trim (String c body)
  | _ => noSection tag
  end.

(** The character [c] does not occur in [s]. *)
Fixpoint without (c : ascii) (s : string) : Prop :=
  match s with
  | EmptyString => True
  | String d s' => d <> c /\ without c s'
  end.

(** A letter or a digit below U+0080. *)
Definition isWordChar (c : ascii) : bool :=
  let n := nat_of_ascii c in
  ((48 <=? n)%nat && (n <=? 57)%nat)
  || ((65 <=? n)%nat && (n <=? 90)%nat)
  || ((97 <=? n)%nat && (n <=? 122)%nat).

(** A tag that [new RegExp] reads as itself: letters and digits, none of the
    characters that mean something in a pattern.  The tags of the four
    calls, "thinking", "reflection", "adjustments" and "output", are such;
    [matchSection] is the match of the code for these tags only. *)
Fixpoint plainTag (tag : string) : bool :=
  match tag with
  | EmptyString => true
  | String c tag' => isWordChar c && plainTag tag'
  end.

(** ** ECHO: [shuffleArray] and [zip] *)

(** The two statements under the test of [shuffleArray]: the elements at
    [i] and [j] change places when neither is [undefined] (an element is
    [None] when it is). *)
Definition swapDefined {A : Type} (i j : nat) (newArray : list (option A))
    : list (option A) :=
  match mjoin (newArray !! i), mjoin (newArray !! j) with
  | Some temp, Some other =>
      <[j := Some temp]> (<[i := Some other]> newArray)
  | _, _ => newArray
  end.

(** The loop of [shuffleArray] from [i] down to 1; [draw i] is the index
    [Math.floor(Math.random() * (i + 1))] draws at [i], taken modulo
    [i + 1]. *)
Fixpoint shuffleLoop {A : Type} (draw : nat -> nat) (i : nat)
    (newArray : list (option A)) : list (option A) :=
  match i with
  | 0 => newArray
  | S i' =>
      shuffleLoop draw i' (swapDefined i (draw i mod (i + 1)) newArray)
  end.

Definition shuffleArray {A : Type} (draw : nat -> nat)
    (array : list (option A)) : list (option A) :=
  shuffleLoop draw (length array - 1) array.

(** The loop of [zip] from index [i], with [remaining] iterations to go;
    an element read out of range is [undefined]. *)
Fixpoint zipLoop {T U : Type} (arr1 : list T) (arr2 : list U)
    (remaining i : nat) (result : list (option T * option U))
    : list (option T * option U) :=
  match remaining with
  | 0 => result
  | S remaining' =>
      zipLoop arr1 arr2 remaining' (S i) (result ++ [(arr1 !! i, arr2 !! i)])
  end.

Definition zip {T U : Type} (arr1 : list T) (arr2 : list U)
    : list (option T * option U) :=
  zipLoop arr1 arr2 (Nat.min (length arr1) (length arr2)) 0 [].

(** ** ECHO: sampling and unifying demonstrations *)

Record Question := { embedding : list float; text : string }.

Record Demonstration := { question : Question; rationale : string }.

Record Cluster := { centroid : list float; points : list Question }.

(** What [generateText] returns to a helper of ECHO, or it throws. *)
Inductive GenReply :=
| Generated (text : string) (totalTokens : Z)
| GenFailure.

(** The model: the reply to the call number [n] (counted from 0) with the
    prompt it is given. *)
Definition EchoOracle : Type := nat -> string -> GenReply.

(** The fields of [ECHOImplementation] that change, with the number of
    calls made so far. *)
Record EchoState := { tokens : Z; calls : nat }.

(** A call of [generateText] by a helper: the text, with the tokens
    counted; [None] when it throws. *)
Definition generate (oracle : EchoOracle) (prompt : string) (st : EchoState)
    : option (string * EchoState) :=
  match oracle (calls st) prompt with
  | Generated reply used =>
      Some (reply, {| tokens := (tokens st + used)%Z; calls := S (calls st) |})
  | GenFailure => None
  end.

Definition newline : string := String "010"%char EmptyString.

Definition generateZeroShotCoT (oracle : EchoOracle) (q : string)
    (st : EchoState) : option (string * EchoState) :=
  generate oracle
    ("Let's solve this step by step:" +:+ newline +:+ "Question: " +:+ q
     +:+ newline +:+ "Let's approach this step by step:")%string st.

Definition satisfiesSelectionCriteria (oracle : EchoOracle)
    (q r : string) (st : EchoState) : option (bool * EchoState) :=
  (fun x : string * EchoState => (bool_decide (x.1 = "yes"%string), x.2))
    <$> generate oracle
          ("You will be given a question and rationale. "
           +:+ "Based on your judgement does the rationale satisfy the "
           +:+ "question Respond with only 'yes' or 'no'. "
           +:+ "Do not include any other text in your response."
           +:+ newline +:+ "Question: " +:+ q +:+ newline +:+ "Rationale: "
           +:+ r)%string st.

(** [array.join(sep)] *)
Fixpoint join (sep : string) (l : list string) : string :=
  match l with
  | [] => EmptyString
  | [x] => x
  | x :: l' => (x +:+ sep +:+ join sep l')%string
  end.

Definition createContext (demonstrations : list Demonstration) : string :=
  join (newline +:+ newline)
       ((fun d => ("Question: " +:+ text (question d) +:+ newline
                   +:+ "Solution: " +:+ rationale d)%string)
          <$> demonstrations).

Definition generateWithContext (oracle : EchoOracle) (q context : string)
    (st : EchoState) : option (string * EchoState) :=
  generate oracle
    ("Here are some examples of solving similar problems:" +:+ newline
     +:+ newline +:+ context +:+ newline +:+ newline
     +:+ "Now, let's solve this question:" +:+ newline +:+ q +:+ newline
     +:+ "Let's approach this step by step:")%string st.

(** The inner loop of [sampleDemonstrations] over the sorted questions of
    a cluster: the first question whose rationale the model accepts, if
    any. *)
Fixpoint sampleCluster (oracle : EchoOracle) (sortedQuestions : list Question)
    (st : EchoState) : option (option Demonstration * EchoState) :=
  match sortedQuestions with
  | [] => Some (None, st)
  | q :: rest =>
      generateZeroShotCoT oracle (text q) st ≫= fun x : string * EchoState =>
      satisfiesSelectionCriteria oracle (text q) x.1 x.2
        ≫= fun y : bool * EchoState =>
      if y.1 then Some (Some {| question := q; rationale := x.1 |}, y.2)
      else sampleCluster oracle rest y.2
  end.

Section WithDistance.

(** [**] and [Math.sqrt]. *)
Variable Math_pow : float -> float -> float.
Variable Math_sqrt : float -> float.

(** The [reduce] of [euclideanDistance] from index [i]. *)
Fixpoint sumSquares (a b : list float) (i : nat) (sum : float) : float :=
  match a with
  | [] => sum
  | value :: a' =>
      sumSquares a' b (S i)
        (sum + Math_pow (value - default 0%float (b !! i)) 2)%float
  end.

Definition euclideanDistance (a b : list float) : float :=
  Math_sqrt (sumSquares a b 0 0%float).

(** [[...cluster.points].sort((a, b) => d(a) - d(b))]: the sort is
    stable; an entry stays before a later one unless the comparison of the
    two is positive. *)
Fixpoint insertByDistance (c : list float) (x : Question)
    (l : list Question) : list Question :=
  match l with
  | [] => [x]
  | y :: l' =>
      if (0 <? euclideanDistance (embedding x) c
               - euclideanDistance (embedding y) c)%float
      then y :: insertByDistance c x l'
      else x :: l
  end.

Definition sortClusterPoints (cluster : Cluster) : list Question :=
  foldr (insertByDistance (centroid cluster)) [] (points cluster).

Fixpoint sampleDemonstrations (oracle : EchoOracle) (clusters : list Cluster)
    (demonstrations : list Demonstration) (st : EchoState)
    : option (list Demonstration * EchoState) :=
  match clusters with
  | [] => Some (demonstrations, st)
  | cluster :: rest =>
      sampleCluster oracle (sortClusterPoints cluster) st
        ≫= fun x : option Demonstration * EchoState =>
      sampleDemonstrations oracle rest
        (match x.1 with
         | Some d => demonstrations ++ [d]
         | None => demonstrations
         end) x.2
  end.

End WithDistance.

(** [currentDemonstrations.filter((_, index) => index !== j)] *)
Definition others {A : Type} (j : nat) (l : list A) : list A :=
  take j l ++ drop (S j) l.

(** [shuffleArray] on an array without [undefined] elements. *)
Definition shuffleDefined {A : Type} (draw : nat -> nat) (l : list A)
    : list A :=
  omap id (shuffleArray draw (Some <$> l)).

(** The inner loop of [unifyDemonstrations] from [j], with [remaining]
    iterations to go; [draw n] gives the draws of the shuffle before the
    call number [n]. *)
Fixpoint unifyInner (oracle : EchoOracle) (draw : nat -> nat -> nat)
    (remaining j : nat) (currentDemonstrations : list Demonstration)
    (st : EchoState) : option (list Demonstration * EchoState) :=
  match remaining with
  | 0 => Some (currentDemonstrations, st)
  | S remaining' =>
      let othersShuffled :=
        shuffleDefined (draw (calls st)) (others j currentDemonstrations) in
      let context := createContext othersShuffled in
      generateWithContext oracle
        (default EmptyString
           (text <$> (question <$> currentDemonstrations !! j)))
        context st ≫= fun x : string * EchoState =>
      unifyInner oracle draw remaining' (S j)
        (alter (fun d => {| question := question d; rationale := x.1 |}) j
               currentDemonstrations) x.2
  end.

Fixpoint unifyOuter (oracle : EchoOracle) (draw : nat -> nat -> nat)
    (numIterations : nat) (currentDemonstrations : list Demonstration)
    (st : EchoState) : option (list Demonstration * EchoState) :=
  match numIterations with
  | 0 => Some (currentDemonstrations, st)
  | S numIterations' =>
      unifyInner oracle draw (length currentDemonstrations) 0
        currentDemonstrations st
        ≫= fun x : list Demonstration * EchoState =>
      unifyOuter oracle draw numIterations' x.1 x.2
  end.

Definition unifyDemonstrations (oracle : EchoOracle)
    (draw : nat -> nat -> nat) (demonstrations : list Demonstration)
    (numIterations finalCount : nat) (st : EchoState)
    : option (list Demonstration * EchoState) :=
  (fun x : list Demonstration * EchoState => (take finalCount x.1, x.2))
    <$> unifyOuter oracle draw numIterations demonstrations st.

(** The model has answered the prompt for a rationale with the rationale and the
    prompt for a verdict that follows with exactly "yes". *)
Definition accepted (oracle : EchoOracle) (d : Demonstration) : Prop :=
  exists n p1 p2 u1 u2,
    oracle n p1 = Generated (rationale d) u1 /\
    oracle (S n) p2 = Generated "yes" u2.

(** What [sampleDemonstrations] takes from a cluster: nothing, or one of
    its questions with a rationale the model accepted. *)
Definition pickedFrom (oracle : EchoOracle) (c : Cluster)
    (p : option Demonstration) : Prop :=
  match p with
  | Some d => question d ∈ points c /\ accepted oracle d
  | None => True
  end.

(** A model that answers every prompt with "yes", and a question. *)
Definition yesOracle : EchoOracle := fun _ _ => Generated "yes" 1.

Definition sampleQuestion : Question :=
  {| embedding := [1%float]; text := "2 + 2?" |}.

(** ** The child [findBestResponse] returns *)

(** The visits of the node behind a reference. *)
Definition visitsOf (st : Store) (c : NodeRef) : nat :=
  match heap st !! c with
  | Some n => visits n
  | None => 0
  end.

(** ** Terminal states *)

(** The state after the messages [msgs], added one by one with
    [withNewMessage]. *)
Definition extend (s : DialogueState) (msgs : list (Role * string))
    : DialogueState :=
  foldl (fun s m => withNewMessage s m.1 m.2) s msgs.

(** ** Expansion among the other simulations *)

(** The inputs simulation [who] receives in [sched], in order. *)
Definition inputsOf (who : nat) (sched : list (nat * EnvInput))
    : list EnvInput :=
  omap (fun x : nat * EnvInput =>
          if decide (x.1 = who) then Some x.2 else None) sched.

(** An input that carries the text [t], counted as one token. *)
Definition textInput (t : string) : EnvInput :=
  {| reply := Text t 1; random := 0 |}.

(** Two simulations on the scenario, when the first has expanded the root
    with the proposals "A" and "B" and the second has not resumed yet. *)
Definition expandedByFirst : Engine :=
  run noExp noPow (scenarioConfig 2)
    [(0, failureInput); (0, textInput "A"); (0, textInput "B");
     (0, failureInput); (0, failureInput); (0, failureInput)]
    {| store := initialStore scenarioState;
       simulations := replicate 2 selectedAtRoot |}.

(** An interleaving in which the second simulation receives "A", "B", is
    resumed and receives the priors, while the first goes on. *)
Definition secondExpands : list (nat * EnvInput) :=
  [(1, textInput "A"); (0, failureInput); (1, textInput "B");
   (1, failureInput); (0, failureInput); (1, failureInput)].

(** ** A rollout that draws *)

(** One simulation with [maxDepth] 5, two proposals a call and
    [simulationDepth] 3: the child the expansion returns is not terminal and
    [simulate] enters its loop. *)
Definition rolloutConfig : Config :=
  mctsConfig (Some 1) (Some 3%Z)
    {| optMaxDepth := Some 5%Z; optMaxChildren := Some 2%Z;
       optExplorationConstant := None; optTemperature := None;
       optUseRAVE := None |}.

(** The inputs that take the simulation through [expand], with the proposals
    "A" and "B", and into [simulate], up to the proposals "C" and "D" of the
    first turn of the rollout. *)
Definition upToDraw : list (nat * EnvInput) :=
  (fun ev => (0, ev))
    <$> [failureInput; textInput "A"; textInput "B"; failureInput;
         failureInput; failureInput; failureInput; textInput "C";
         textInput "D"].

(** The same, then the resumption at which [simulate] draws among the
    proposals it keeps, with [r] drawn, and the reply to [evaluate]. *)
Definition drawSchedule (r : nat) : list (nat * EnvInput) :=
  upToDraw ++ [(0, {| reply := Failure; random := r |});
               (0, {| reply := Text "0.5" 1; random := r |})].

(** ** [findBestResponse] for any number of simulations *)

(** [Array(len)] for a number [len]: an array of that length when [len] is
    an integer from 0 to 2^32 - 1 (-0 counts as 0); a RangeError, [None],
    for every other number: a negative one, a fraction, NaN, an infinity, a
    number from 2^32 on.  [len] is read as its sign, mantissa [m] and
    exponent [e]: it is [m * 2^e]. *)
Definition arrayLength (len : float) : option nat :=
  match Prim2SF len with
  | S754_zero _ => Some 0
  | S754_finite false m e =>
      let whole :=
        (0 <=? e)%Z || (Z.pos m mod 2 ^ (- e) =? 0)%Z in
      let v :=
        if (0 <=? e)%Z then (Z.pos m * 2 ^ e)%Z
        else (Z.pos m / 2 ^ (- e))%Z in
      if whole && (v <? 2 ^ 32)%Z then Some (Z.to_nat v) else None
  | _ => None
  end.

(** [new MCTS(model, simulationDepth, numSimulations, options)] and then
    [findBestResponse], for any number [numSimulations]:
    [Array(this.numSimulations)] throws before a simulation is made when the
    number is no array length, and the promise of the [async] function is
    rejected.  [Config] holds the count [Array] has accepted; memory is not
    bounded in the embedding. *)
Definition findBestResponseOfCount (Math_exp : float -> float)
    (Math_pow : float -> float -> float) (fuel : nat)
    (simulationDepth : Z) (numSimulations : float) (options : Options)
    (initialState : DialogueState) (sched : list (nat * EnvInput))
    : SearchOutcome :=
  match arrayLength numSimulations with
  | None => Rejected
  | Some n =>
      findBestResponse Math_exp Math_pow fuel
        {| simulationDepth := simulationDepth; numSimulations := n;
           options := options |} initialState sched
  end.

(* ================================================================== *)
(** * Theorems                                                         *)
(* ================================================================== *)

(** ** Strings *)

Lemma startsWith_spec (s sub : string) :
  startsWith s sub = true <-> exists post, s = (sub +:+ post)%string.
Proof.
  revert s; induction sub as [|a sub IH]; intros s; simpl.
  - split; [intros _; exists s; reflexivity | reflexivity].
  - destruct s as [|b s].
    + split; [discriminate | intros [post H]; discriminate].
    + destruct (decide (a = b)) as [->|Hne].
      * rewrite IH. split; intros [post H]; exists post.
        -- simpl. by rewrite H.
        -- simpl in H. by injection H.
      * split; [discriminate | intros [post H]; simpl in H; injection H as H1 H2; congruence].
Qed.

Lemma includes_spec (s sub : string) :
  includes s sub = true <-> exists pre post, s = (pre +:+ sub +:+ post)%string.
Proof.
  induction s as [|c s IH]; simpl.
  - rewrite orb_false_r, startsWith_spec. split.
    + intros [post H]. by exists EmptyString, post.
    + intros [pre [post H]]. destruct pre; [by exists post | discriminate].
  - rewrite orb_true_iff, startsWith_spec, IH. split.
    + intros [[post H] | [pre [post H]]].
      * by exists EmptyString, post.
      * exists (String c pre), post. simpl. by rewrite H.
    + intros [pre [post H]]. destruct pre as [|d pre].
      * left. by exists post.
      * right. simpl in H. injection H as _ H. by exists pre, post.
Qed.

Lemma asciiLowerCase_app (a b : string) :
  asciiLowerCase (a +:+ b) = (asciiLowerCase a +:+ asciiLowerCase b)%string.
Proof. induction a as [|c a IH]; simpl; [done | by rewrite IH]. Qed.

Lemma asciiLowerCase_split (s a b : string) :
  asciiLowerCase s = (a +:+ b)%string ->
  exists sa sb, s = (sa +:+ sb)%string /\ asciiLowerCase sa = a /\ asciiLowerCase sb = b.
Proof.
  revert s; induction a as [|c a IH]; intros s H.
  - by exists EmptyString, s.
  - destruct s as [|d s]; [discriminate|]. simpl in H. injection H as Hc H.
    destruct (IH _ H) as (sa & sb & -> & Ha & Hb).
    exists (String d sa), sb. simpl. by rewrite Hc, Ha.
Qed.

Lemma isAscii_app (a b : string) :
  isAscii (a +:+ b) = isAscii a && isAscii b.
Proof.
  induction a as [|c a IH]; [done|].
  simpl. by rewrite IH, andb_assoc.
Qed.

Lemma lowerChar_below (c : ascii) :
  (nat_of_ascii (lowerChar c) <? 128)%nat = (nat_of_ascii c <? 128)%nat.
Proof. destruct c as [[] [] [] [] [] [] [] []]; reflexivity. Qed.

Lemma isAscii_asciiLowerCase (s : string) :
  isAscii (asciiLowerCase s) = isAscii s.
Proof.
  induction s as [|c s IH]; [done|].
  simpl. by rewrite lowerChar_below, IH.
Qed.

(** The runtime of the examples lowers the characters below U+0080 as every
    engine does. *)
Lemma asciiRuntime_lowers : LowersAscii asciiRuntime.
Proof.
  intros pre mid post _.
  exists (asciiLowerCase pre), (asciiLowerCase post).
  cbn [toLowerCase asciiRuntime]. by rewrite !asciiLowerCase_app.
Qed.

Section Terminal.

Context {rt : Runtime}.

Lemma isTerminal_spec (cfg : Config) (s : DialogueState) :
  isTerminal cfg s = true <->
  (maxDepth (options cfg) <= depth s)%Z
  \/ containsIgnoringCase (currentQuery s) "goodbye"
  \/ containsIgnoringCase (currentQuery s) "thank you".
Proof.
  unfold isTerminal, containsIgnoringCase.
  rewrite !orb_true_iff, !includes_spec, Z.leb_le. tauto.
Qed.

(** A query that holds the phrase in any mix of upper and lower case
    contains it, letter case ignored. *)
Lemma containsIgnoringCase_variant (text pre mid post phrase : string) :
  LowersAscii rt ->
  text = (pre +:+ mid +:+ post)%string ->
  asciiLowerCase mid = phrase ->
  isAscii phrase = true ->
  containsIgnoringCase text phrase.
Proof.
  intros Hrt -> <- Hp. rewrite isAscii_asciiLowerCase in Hp.
  destruct (Hrt pre mid post Hp) as (pre' & post' & H).
  by exists pre', post'.
Qed.

End Terminal.

(** C8.  [isTerminal] holds of a state exactly when its depth has reached
    [maxDepth] or its query contains "goodbye" or "thank you", letter case
    ignored: the phrase occurs in the query as [toLowerCase] of the runtime
    returns it, whatever Unicode tables the runtime has.  In particular a
    state at depth [maxDepth] is terminal whatever its query, and a state
    whose query contains "goodbye" is terminal at any depth, depth 0
    included; so is, in a runtime that lowers A-Z in place as every engine
    does, a state whose query holds "goodbye" or "thank you" written in any
    mix of upper and lower case. *)
Theorem isTerminal_characterised (rt : Runtime) :
  (forall cfg s,
     isTerminal cfg s = true <->
     (maxDepth (options cfg) <= depth s)%Z
     \/ containsIgnoringCase (currentQuery s) "goodbye"
     \/ containsIgnoringCase (currentQuery s) "thank you") /\
  (forall cfg s, depth s = maxDepth (options cfg) -> isTerminal cfg s = true) /\
  (forall cfg s,
     containsIgnoringCase (currentQuery s) "goodbye" ->
     isTerminal cfg s = true) /\
  (LowersAscii rt ->
   forall cfg s pre mid post,
     currentQuery s = (pre +:+ mid +:+ post)%string ->
     asciiLowerCase mid = "goodbye"%string
     \/ asciiLowerCase mid = "thank you"%string ->
     isTerminal cfg s = true).
Proof.
  split; [exact isTerminal_spec|]. split; [|split].
  - intros cfg s H. apply isTerminal_spec. left. lia.
  - intros cfg s H. apply isTerminal_spec. right. by left.
  - intros Hrt cfg s pre mid post Hq [H|H]; apply isTerminal_spec; right;
      [left|right]; by eapply containsIgnoringCase_variant.
Qed.

(** A query below U+0080 that holds "GoodBye", at depth 0 and with
    [maxDepth] 1. *)
Lemma isTerminal_characterised_witness :
  depth (mctsInitialState "system" "OK, GoodBye") = 0%Z /\
  maxDepth (options (scenarioConfig 20)) = 1%Z /\
  isTerminal (scenarioConfig 20) (mctsInitialState "system" "OK, GoodBye")
  = true.
Proof.
  split; [reflexivity|]. split; [reflexivity|].
  apply (proj2 (proj2 (proj2 (isTerminal_characterised asciiRuntime)))
           asciiRuntime_lowers _ _ "OK, "%string "GoodBye"%string
           EmptyString); [reflexivity | left; reflexivity].
Defined.

(** ** Floats *)

Example parseFloat_decimal : parseFloat "  0.75 (good)" = 0.75%float.
Proof. vm_compute. reflexivity. Qed.

Example parseFloat_exponent : parseFloat "-1.5e2" = (-150)%float.
Proof. vm_compute. reflexivity. Qed.

Example parseFloat_rounds : parseFloat "0.1" = 0.1%float.
Proof. vm_compute. reflexivity. Qed.

Example parseFloat_words : parseFloat "good" = nan.
Proof. vm_compute. reflexivity. Qed.

Example parseFloat_list_item : parseFloat "2. 0.6" = 2%float.
Proof. vm_compute. reflexivity. Qed.

Example clamp_above : Math_max 0 (Math_min (parseFloat "1.7") 1) = 1%float.
Proof. vm_compute. reflexivity. Qed.

Example clamp_nan : Math_max 0 (Math_min (parseFloat "n/a") 1) = nan.
Proof. vm_compute. reflexivity. Qed.

Lemma nan_add_l (x : float) : (nan + x)%float = nan.
Proof.
  apply Prim2SF_inj. rewrite FloatAxioms.add_spec. reflexivity.
Qed.

Lemma is_zero_cases (z : float) :
  PrimFloat.is_zero z = true -> z = 0%float \/ z = (-0)%float.
Proof.
  unfold PrimFloat.is_zero. rewrite FloatAxioms.eqb_spec.
  intros H. rewrite <- (SF2Prim_Prim2SF z).
  destruct (Prim2SF z) as [[|]|[|]| |[|] m e]; vm_compute in H;
    try discriminate H; vm_compute; auto.
Qed.

Lemma SF2Prim_zeroOrNaN (z : float) :
  match Prim2SF z with S754_zero _ | S754_nan => True | _ => False end ->
  zeroOrNaN z.
Proof.
  intros H. rewrite <- (SF2Prim_Prim2SF z).
  destruct (Prim2SF z) as [[|]|[|]| |[|] m e]; try contradiction;
    vm_compute; auto.
Qed.

Lemma mul_zero_l (z t : float) :
  PrimFloat.is_zero z = true -> zeroOrNaN (z * t).
Proof.
  intros Hz. apply SF2Prim_zeroOrNaN. rewrite FloatAxioms.mul_spec.
  destruct (is_zero_cases z Hz) as [-> | ->];
    destruct (Prim2SF t) as [[|]|[|]| |[|] m e]; exact I.
Qed.

Lemma mul_zero_r (x z : float) :
  PrimFloat.is_zero z = true -> zeroOrNaN (x * z).
Proof.
  intros Hz. apply SF2Prim_zeroOrNaN. rewrite FloatAxioms.mul_spec.
  destruct (is_zero_cases z Hz) as [-> | ->];
    destruct (Prim2SF x) as [[|]|[|]| |[|] m e]; exact I.
Qed.

Lemma zero_denominator (z : float) :
  zeroOrNaN z -> (ofNat 0 / (ofNat 0 + ofNat 0 + z))%float = nan.
Proof. intros [-> | [-> | ->]]; reflexivity. Qed.

(** C9.  [getPUCTScore] does not guard its denominator: on a node that has
    neither visits nor RAVE visits, called with a prior that is zero or with
    parent visits that are zero (so that their product is zero), the blend
    weight is 0/0 (or 0/NaN) and the score is NaN. *)
Theorem getPUCTScore_zero_denominator (n : MCTSNode) (t p : float) :
  visits n = 0 -> raveVisits n = 0 ->
  PrimFloat.is_zero p = true \/ PrimFloat.is_zero t = true ->
  getPUCTScore n t p = nan.
Proof.
  intros Hv Hr Hz. unfold getPUCTScore, getRaveValue. rewrite Hv, Hr.
  cbn [Nat.eqb].
  assert (zeroOrNaN (4 * p * t)%float) as Hd.
  { destruct Hz as [Hp | Ht].
    - destruct (mul_zero_r 4 p Hp) as [E | [E | E]]; rewrite E.
      + by apply mul_zero_l.
      + by apply mul_zero_l.
      + apply SF2Prim_zeroOrNaN. rewrite FloatAxioms.mul_spec. exact I.
    - by apply mul_zero_r. }
  rewrite (zero_denominator _ Hd).
  change (nan * 0 + (1 - nan) * 0)%float with nan.
  apply nan_add_l.
Qed.

(** ** The tree while only the root is expanded *)

Lemma hash_withNewMessage_ne (s : DialogueState) (r : Role) (c : string) :
  hash (withNewMessage s r c) <> hash s.
Proof. unfold hash, withNewMessage; simpl. intros H. injection H. lia. Qed.

Lemma keeps_pushChild c : keeps (pushChild c).
Proof. by intros x. Qed.

Lemma keeps_markFullyExpanded : keeps markFullyExpanded.
Proof. by intros x. Qed.

Lemma alter_keeps_inv (s0 : DialogueState) (st : Store)
    (f : MCTSNode -> MCTSNode) :
  keeps f ->
  (forall x, children (f x) = children x) ->
  StoreInv s0 st ->
  StoreInv s0 (setHeap (alter f root (heap st)) st) /\
  rootVisits (setHeap (alter f root (heap st)) st) = rootVisits st /\
  rootChildren (setHeap (alter f root (heap st)) st) = rootChildren st.
Proof.
  intros Hk Hc [(r & Hr & Hs & Hch) Hz Ht Hi]. unfold rootVisits, rootChildren. simpl.
  rewrite list_lookup_alter_eq, Hr. simpl.
  destruct (Hk r) as [Hks Hkv]. split; [|by rewrite Hkv, Hc].
  split; simpl; [| |
    |intros c n Hc0; rewrite list_lookup_alter_ne by done; by apply Hi].
  - exists (f r). rewrite list_lookup_alter_eq, Hr. simpl.
    rewrite Hks, Hc, length_alter. done.
  - intros j n Hj. rewrite list_lookup_alter_ne by done. by apply Hz.
  - intros h c Hl. destruct (Ht h c Hl) as (n & Hn & Hh).
    destruct (decide (c = root)) as [-> | Hne].
    + exists (f r). rewrite list_lookup_alter_eq, Hr. simpl.
      rewrite Hks. split; [done|]. congruence.
    + exists n. by rewrite list_lookup_alter_ne.
Qed.

Lemma expandAction_inv (s0 : DialogueState) (act : string)
    (prior : option float) (st : Store) :
  StoreInv s0 st ->
  StoreInv s0 (expandAction root s0 act prior st) /\
  length (heap st) <= length (heap (expandAction root s0 act prior st)) /\
  rootVisits (expandAction root s0 act prior st) = rootVisits st /\
  rootChildren (expandAction root s0 act prior st) <> [].
Proof.
  intros [(r & Hr & Hs & Hch) Hz Ht Hi]. unfold expandAction, rootVisits, rootChildren.
  pose proof (lookup_lt_Some _ _ _ Hr) as Hlen.
  destruct (transpositionTable st !! hash (withNewMessage s0 assistant act))
    as [c|] eqn:Hl; simpl.
  - destruct (Ht _ _ Hl) as (n & Hn & Hh).
    assert (c <> root) as Hc0.
    { intros ->. rewrite Hr in Hn. injection Hn as <-. rewrite Hs in Hh.
      symmetry in Hh. by apply hash_withNewMessage_ne in Hh. }
    rewrite list_lookup_alter_eq, Hr, length_alter. simpl.
    split; [|split; [lia|split; [done|by destruct (children r)]]].
    split; simpl; [| |
      |intros c' m Hc'; rewrite list_lookup_alter_ne by done; by apply Hi].
    + exists (pushChild c r). rewrite list_lookup_alter_eq, Hr, length_alter.
      simpl. split; [done|]. split; [done|].
      apply Forall_app. split; [done|].
      apply Forall_singleton. simpl. split; [exact Hc0|]. by eapply lookup_lt_Some.
    + intros j m Hj. rewrite list_lookup_alter_ne by done. by apply Hz.
    + intros h c' Hl'. destruct (Ht _ _ Hl') as (m & Hm & Hh').
      destruct (decide (c' = root)) as [-> | Hne].
      * exists (pushChild c r). rewrite list_lookup_alter_eq, Hr. simpl.
        split; [done|]. congruence.
      * exists m. by rewrite list_lookup_alter_ne.
  - rewrite list_lookup_alter_eq, length_alter, length_app.
    rewrite (lookup_app_l_Some _ _ _ _ Hr), Hr. simpl.
    split; [|split; [lia|split; [done|by destruct (children r)]]].
    split; simpl; [| | |].
    4:{ intros c' m Hc'. rewrite list_lookup_alter_ne by done.
        intros Hm. apply lookup_app_Some in Hm as [Hm | [_ Hm]].
        - by eapply Hi.
        - apply list_lookup_singleton_Some in Hm as [_ <-]. by exists act. }
    + exists (pushChild (length (heap st)) r).
      rewrite list_lookup_alter_eq, (lookup_app_l_Some _ _ _ _ Hr), length_alter, length_app.
      simpl. split; [done|]. split; [done|].
      apply Forall_app. split.
      * eapply Forall_impl; [exact Hch|]. simpl. intros x [? ?]. split; [done|lia].
      * apply Forall_singleton. split; lia.
    + intros j m Hj. rewrite list_lookup_alter_ne by done.
      intros Hm. apply lookup_app_Some in Hm as [Hm | [_ Hm]].
      * by eapply Hz.
      * apply list_lookup_singleton_Some in Hm as [_ <-]. done.
    + intros h c' Hl'. apply lookup_insert_Some in Hl' as [[<- <-] | [Hne Hl']].
      * eexists. rewrite list_lookup_alter_ne by lia.
        rewrite lookup_app_r by lia. rewrite Nat.sub_diag. simpl. done.
      * destruct (Ht _ _ Hl') as (m & Hm & Hh').
        destruct (decide (c' = root)) as [-> | Hne'].
        -- exists (pushChild (length (heap st)) r).
           rewrite list_lookup_alter_eq, (lookup_app_l_Some _ _ _ _ Hr). simpl.
           split; [done|]. congruence.
        -- exists m. rewrite list_lookup_alter_ne by done.
           by rewrite (lookup_app_l_Some _ _ _ _ Hm).
Qed.

Lemma expandLoop_inv (s0 : DialogueState) (actions : list string)
    (priors : list float) (i : nat) (st : Store) :
  StoreInv s0 st ->
  StoreInv s0 (expandLoop root s0 actions priors i st) /\
  length (heap st) <= length (heap (expandLoop root s0 actions priors i st)) /\
  rootVisits (expandLoop root s0 actions priors i st) = rootVisits st /\
  (actions <> [] \/ rootChildren st <> [] ->
   rootChildren (expandLoop root s0 actions priors i st) <> []).
Proof.
  revert i st. induction actions as [|act actions IH]; intros i st Hinv; simpl.
  - split; [done|]. split; [lia|]. split; [done|]. by intros [? | ?].
  - destruct (expandAction_inv s0 act (priors !! i) st Hinv) as (H1 & H2 & H3 & H4).
    destruct (IH (S i) _ H1) as (K1 & K2 & K3 & K4).
    split; [done|]. split; [lia|]. split; [congruence|]. intros _. apply K4. by right.
Qed.

Lemma expandAttach_inv (s0 : DialogueState) (actions : list string)
    (priors : list float) (st : Store) :
  StoreInv s0 st ->
  StoreInv s0 (expandAttach root s0 actions priors st) /\
  length (heap st) <= length (heap (expandAttach root s0 actions priors st)) /\
  rootVisits (expandAttach root s0 actions priors st) = rootVisits st /\
  (actions <> [] -> rootChildren (expandAttach root s0 actions priors st) <> []).
Proof.
  intros Hinv. unfold expandAttach.
  destruct (expandLoop_inv s0 actions priors 0 st Hinv) as (H1 & H2 & H3 & H4).
  destruct (alter_keeps_inv s0 _ markFullyExpanded keeps_markFullyExpanded
              (fun x => eq_refl) H1) as (K1 & K2 & K3).
  split; [done|]. split; [simpl; rewrite length_alter; lia|].
  split; [congruence|]. intros Hne. rewrite K3. apply H4. by left.
Qed.

Lemma backpropagate_inv (cfg : Config) (s0 : DialogueState) (value : float)
    (st : Store) :
  StoreInv s0 st ->
  StoreInv s0 (backpropagate cfg [root] value st) /\
  length (heap (backpropagate cfg [root] value st)) = length (heap st) /\
  rootVisits (backpropagate cfg [root] value st) = S (rootVisits st).
Proof.
  intros [(r & Hr & Hs & Hch) Hz Ht Hi]. unfold backpropagate, rootVisits. simpl.
  rewrite list_lookup_alter_eq, Hr, length_alter. simpl.
  set (f := fun n : MCTSNode =>
              if useRAVE (options cfg) then addRaveData value (addVisit value n)
              else addVisit value n).
  assert (forall x, state (f x) = state x /\ children (f x) = children x
                    /\ visits (f x) = S (visits x)) as Hf.
  { intros x. unfold f. by destruct (useRAVE (options cfg)). }
  destruct (Hf r) as (F1 & F2 & F3).
  split; [|split; [done|exact F3]].
  split; simpl; [| |
    |intros c n Hc0; rewrite list_lookup_alter_ne by done; by apply Hi].
  - exists (f r). rewrite list_lookup_alter_eq, Hr, length_alter. simpl.
    by rewrite F1, F2.
  - intros j n Hj. rewrite list_lookup_alter_ne by done. by apply Hz.
  - intros h c Hl. destruct (Ht _ _ Hl) as (m & Hm & Hh).
    destruct (decide (c = root)) as [-> | Hne].
    + exists (f r). rewrite list_lookup_alter_eq, Hr. simpl.
      split; [done|]. rewrite F1. congruence.
    + exists m. by rewrite list_lookup_alter_ne.
Qed.

Lemma hash_withNewMessage_inj (s : DialogueState) (r : Role) (a b : string) :
  hash (withNewMessage s r a) = hash (withNewMessage s r b) -> a = b.
Proof.
  unfold hash, withNewMessage; simpl. intros H. injection H as H.
  rewrite !fmap_app in H. apply app_inv_head in H. simpl in H.
  unfold hashMessage in H. simpl in H. congruence.
Qed.

Lemma firstAction_alter (s0 : DialogueState) (st : Store)
    (f : MCTSNode -> MCTSNode) :
  (forall x, children (f x) = children x) ->
  StoreInv s0 st ->
  firstAction (setHeap (alter f root (heap st)) st) = firstAction st.
Proof.
  intros Hc [(r & Hr & Hs & Hch) _ _ _]. unfold firstAction, rootChildren. simpl.
  rewrite list_lookup_alter_eq, Hr. simpl. rewrite Hc.
  destruct (children r) as [|c cs]; [done|].
  apply Forall_cons in Hch as [[Hc0 _] _].
  by rewrite list_lookup_alter_ne.
Qed.

Lemma firstAction_expandAction (s0 : DialogueState) (act : string)
    (prior : option float) (st : Store) :
  StoreInv s0 st ->
  (forall a, firstAction st = Some a ->
             firstAction (expandAction root s0 act prior st) = Some a) /\
  (rootChildren st = [] ->
   firstAction (expandAction root s0 act prior st) = Some act).
Proof.
  intros [(r & Hr & Hs & Hch) Hz Ht Hi].
  unfold expandAction, firstAction, rootChildren. rewrite Hr.
  pose proof (lookup_lt_Some _ _ _ Hr) as Hlen.
  destruct (transpositionTable st !! hash (withNewMessage s0 assistant act))
    as [c|] eqn:Hl; simpl.
  - destruct (Ht _ _ Hl) as (n & Hn & Hh).
    assert (c <> root) as Hc0.
    { intros ->. rewrite Hr in Hn. injection Hn as <-. rewrite Hs in Hh.
      symmetry in Hh. by apply hash_withNewMessage_ne in Hh. }
    rewrite list_lookup_alter_eq, Hr. simpl.
    destruct (children r) as [|c1 cs]; simpl.
    + split; [done|]. intros _. rewrite list_lookup_alter_ne, Hn by done.
      destruct (Hi _ _ Hc0 Hn) as (act' & Ha & Hs').
      rewrite Hs' in Hh. apply hash_withNewMessage_inj in Hh. by subst.
    + apply Forall_cons in Hch as [[Hc1 _] _].
      rewrite list_lookup_alter_ne by done. done.
  - rewrite list_lookup_alter_eq, (lookup_app_l_Some _ _ _ _ Hr). simpl.
    destruct (children r) as [|c1 cs]; simpl.
    + split; [done|]. intros _. rewrite list_lookup_alter_ne by lia.
      rewrite lookup_app_r by lia. by rewrite Nat.sub_diag.
    + apply Forall_cons in Hch as [[Hc1 Hlt] _].
      rewrite list_lookup_alter_ne by done. rewrite lookup_app_l by done. done.
Qed.

Lemma firstAction_expandLoop (s0 : DialogueState) (actions : list string)
    (priors : list float) (i : nat) (st : Store) :
  StoreInv s0 st ->
  (forall a, firstAction st = Some a ->
             firstAction (expandLoop root s0 actions priors i st) = Some a) /\
  (rootChildren st = [] ->
   forall act rest, actions = act :: rest ->
   firstAction (expandLoop root s0 actions priors i st) = Some act).
Proof.
  revert i st. induction actions as [|act actions IH]; intros i st Hinv; simpl.
  - split; [done|]. intros _ ? ? ?. done.
  - destruct (expandAction_inv s0 act (priors !! i) st Hinv) as (H1 & _).
    destruct (firstAction_expandAction s0 act (priors !! i) st Hinv) as [F1 F2].
    destruct (IH (S i) _ H1) as [K1 _].
    split.
    + intros a Ha. by apply K1, F1.
    + intros He act' rest [= <- <-]. by apply K1, F2.
Qed.

Lemma firstAction_expandAttach (s0 : DialogueState) (actions : list string)
    (priors : list float) (st : Store) :
  StoreInv s0 st ->
  (forall a, firstAction st = Some a ->
             firstAction (expandAttach root s0 actions priors st) = Some a) /\
  (rootChildren st = [] ->
   forall act rest, actions = act :: rest ->
   firstAction (expandAttach root s0 actions priors st) = Some act).
Proof.
  intros Hinv. unfold expandAttach.
  destruct (expandLoop_inv s0 actions priors 0 st Hinv) as (H1 & _).
  destruct (firstAction_expandLoop s0 actions priors 0 st Hinv) as [F1 F2].
  rewrite (firstAction_alter s0 _ markFullyExpanded (fun x => eq_refl) H1).
  done.
Qed.

Lemma firstAction_backpropagate (cfg : Config) (s0 : DialogueState)
    (value : float) (st : Store) :
  StoreInv s0 st ->
  firstAction (backpropagate cfg [root] value st) = firstAction st.
Proof.
  intros Hinv. unfold backpropagate. simpl.
  apply (firstAction_alter s0); [|done].
  intros x. by destruct (useRAVE (options cfg)).
Qed.

Lemma sameTree_firstAction (st st' : Store) :
  sameTree st st' -> firstAction st' = firstAction st.
Proof. intros [Hh _]. unfold firstAction, rootChildren. by rewrite Hh. Qed.

Lemma sameTree_inv (s0 : DialogueState) (st st' : Store) :
  sameTree st st' -> StoreInv s0 st ->
  StoreInv s0 st' /\ length (heap st) <= length (heap st') /\
  rootVisits st' = rootVisits st.
Proof.
  intros [Hh Ht] [H1 H2 H3 H4]. unfold rootVisits. rewrite Hh.
  split; [|done]. split; rewrite ?Hh, ?Ht; done.
Qed.

Lemma ctlOK_mono (len len' : nat) (s0 : DialogueState) (c : Control) :
  len <= len' -> ctlOK len s0 c -> ctlOK len' s0 c.
Proof.
  intros Hle. destruct c as [|k ? ? ?|k ? ?| | | | | | | |]; simpl;
    try tauto; try (destruct k; tauto). intros; lia.
Qed.

Lemma generateActionsLoop_ok cfg s0 k s i completions st st0 c0 :
  StoreInv s0 st -> sameTree st0 st ->
  finishedBit c0 = 0 ->
  match k with ByExpand node => node = root /\ s = s0 | BySimulate _ _ => True end ->
  stepOK s0 st0 c0 (generateActionsLoop cfg k s i completions st).
Proof.
  intros Hinv Hsame Hc Hk. pose proof Hsame as [Hh Ht].
  unfold generateActionsLoop, stepOK. rewrite Hc.
  destruct (Z.of_nat i <? maxChildren (options cfg))%Z; simpl.
  - destruct (sameTree_inv s0 st (callOracle st)) as (H1 & H2 & H3); [done..|].
    rewrite H3. unfold rootVisits. simpl. rewrite Hh.
    split; [done|]. split; [done|]. split; [by destruct k|]. split; [by cbv|].
    intros a Ha. change (firstAction (callOracle st)) with (firstAction st).
    by rewrite (sameTree_firstAction _ _ Hsame).
  - unfold rootVisits. rewrite Hh.
    split; [done|]. split; [done|]. split; [by destruct k|]. split; [by cbv|].
    intros a Ha. by rewrite (sameTree_firstAction _ _ Hsame).
Qed.

Lemma sameTree_refl st : sameTree st st.
Proof. done. Qed.

Lemma stay_ok s0 st st' c0 c' :
  StoreInv s0 st -> sameTree st st' -> finishedBit c0 = finishedBit c' ->
  ctlOK (length (heap st)) s0 c' ->
  stepOK s0 st c0 (st', c').
Proof.
  intros Hinv Hs Hc Hok.
  destruct (sameTree_inv s0 _ _ Hs Hinv) as (H1 & H2 & H3).
  pose proof (sameTree_firstAction _ _ Hs) as Hf.
  destruct Hs as [Hh _]. unfold stepOK. simpl. rewrite H3, Hc, Hh, Hf. done.
Qed.

Lemma simulateLoop_ok cfg s0 s depth value st c0 :
  StoreInv s0 st -> finishedBit c0 = 0 ->
  stepOK s0 st c0 (simulateLoop cfg s depth value st).
Proof.
  intros Hinv Hc. unfold simulateLoop.
  destruct (negb (isTerminal cfg s) && (Z.of_nat depth <? simulationDepth cfg)%Z).
  - by apply generateActionsLoop_ok.
  - by apply stay_ok.
Qed.

Section StepInvariant.

Variable Math_exp : float -> float.
Variable Math_pow : float -> float -> float.
Variable cfg : Config.
Variable s0 : DialogueState.
Hypothesis root_not_terminal : isTerminal cfg s0 = false.

Lemma step_ok (ev : EnvInput) (st : Store) (sim : Simulation) :
  StoreInv s0 st -> simOK (length (heap st)) s0 sim ->
  stepOK s0 st (control sim) (step Math_exp Math_pow cfg ev st sim).
Proof using root_not_terminal.
  intros Hinv [Hp Hc]. destruct sim as [p ctl]. simpl in Hp, Hc. subst p.
  pose proof Hinv as [(r & Hr & Hs & Hch) Hz Ht Hi].
  unfold step.
  destruct ctl as [|k s i comps|k s actions|node s actions
                  |node s actions priors|c|s d v|s d v iv|v| |];
    cbn [control path last]; simpl in Hc.
  - (* AwaitSelect *)
    rewrite Hr, Hs, root_not_terminal. cbn [negb]. unfold expandEnter.
    rewrite Hr, Hs, root_not_terminal.
    by apply generateActionsLoop_ok.
  - (* AwaitGenerateText *)
    destruct (reply ev) as [text usage|].
    + apply generateActionsLoop_ok; [|done|done|done].
      by apply (sameTree_inv s0 st).
    + apply stay_ok; [done|done|done|by destruct k].
  - (* AwaitGenerateActions *)
    destruct k as [node|d v].
    + destruct Hc as [-> ->]. destruct actions as [|a actions].
      * destruct (alter_keeps_inv s0 st markFullyExpanded keeps_markFullyExpanded
                    (fun x => eq_refl) Hinv) as (K1 & K2 & K3).
        pose proof (firstAction_alter s0 st markFullyExpanded (fun x => eq_refl)
                      Hinv) as K4.
        unfold stepOK. simpl. rewrite K2, K4, length_alter.
        split; [done|]. split; [done|]. split; [|done].
        by eapply lookup_lt_Some.
      * by apply stay_ok.
    + destruct actions as [|a actions]; by apply stay_ok.
  - (* AwaitPriorsText *)
    apply stay_ok; [done| |done|done]. by destruct (reply ev).
  - (* AwaitPriors *)
    destruct Hc as (-> & -> & Hne).
    destruct (expandAttach_inv s0 actions priors st Hinv) as (K1 & K2 & K3 & K4).
    destruct (firstAction_expandAttach s0 actions priors st Hinv) as [K5 _].
    specialize (K4 Hne). unfold rootChildren in K4.
    pose proof K1 as [(r' & Hr' & Hs' & Hch') _ _ _].
    rewrite Hr' in K4 |- *. destruct (children r') as [|c cs]; [done|].
    unfold stepOK. cbn [fst snd]. rewrite K3.
    split; [done|]. split; [done|]. split; [|done].
    by apply Forall_cons in Hch' as [[_ ?] _].
  - (* AwaitExpand *)
    destruct (lookup_lt_is_Some_2 _ _ Hc) as [n Hn]. rewrite Hn.
    by apply simulateLoop_ok.
  - (* AwaitEvaluateText *)
    destruct (evaluate s (reply ev)) as [iv s'].
    apply stay_ok; [done| |done|done]. by destruct (reply ev).
  - (* AwaitEvaluate *)
    by apply simulateLoop_ok.
  - (* AwaitSimulate *)
    destruct (backpropagate_inv cfg s0 v st Hinv) as (K1 & K2 & K3).
    pose proof (firstAction_backpropagate cfg s0 v st Hinv) as K4.
    unfold stepOK. cbn [fst snd]. rewrite K2, K3, K4. split; [done|]. split; [done|].
    split; [done|]. split; [|done]. unfold finishedBit; simpl; lia.
  - (* Finished *)
    by apply stay_ok.
  - done.
Qed.

End StepInvariant.

Lemma countFinished_insert (sims : list Simulation) (who : nat)
    (sim sim' : Simulation) :
  sims !! who = Some sim ->
  countFinished (<[who := sim']> sims) + finishedBit (control sim)
  = countFinished sims + finishedBit (control sim').
Proof.
  revert who. induction sims as [|x sims IH]; intros [|who] H; simpl in *;
    try done.
  - injection H as ->. lia.
  - specialize (IH _ H). lia.
Qed.

Lemma countFinished_all (sims : list Simulation) :
  forallb (fun sim => isFinished (control sim)) sims = true ->
  countFinished sims = length sims.
Proof.
  induction sims as [|x sims IH]; simpl; [done|].
  intros [Hx Hs]%andb_prop. unfold finishedBit. rewrite Hx, IH; done.
Qed.

Lemma simOK_mono (len len' : nat) (s0 : DialogueState) (sim : Simulation) :
  len <= len' -> simOK len s0 sim -> simOK len' s0 sim.
Proof. intros Hle [? ?]. split; [done|]. by eapply ctlOK_mono. Qed.

Section RunInvariant.

Variable Math_exp : float -> float.
Variable Math_pow : float -> float -> float.
Variable cfg : Config.
Variable s0 : DialogueState.
Hypothesis root_not_terminal : isTerminal cfg s0 = false.

Lemma resume_inv (who : nat) (ev : EnvInput) (e : Engine) :
  Inv s0 e -> Inv s0 (resume Math_exp Math_pow cfg who ev e).
Proof using root_not_terminal.
  intros (Hst & Hsims & Hcount). unfold resume.
  destruct (simulations e !! who) as [sim|] eqn:Hwho; [|done].
  pose proof (Forall_lookup_1 _ _ _ _ Hsims Hwho) as Hsim.
  pose proof (step_ok Math_exp Math_pow cfg s0 root_not_terminal ev _ _ Hst Hsim)
    as Hstep.
  destruct (step Math_exp Math_pow cfg ev (store e) sim) as [st' c'].
  destruct Hstep as (K1 & K2 & K3 & K4 & K5). cbn [fst snd] in *.
  unfold Inv. cbn [store simulations].
  split; [done|]. split.
  - apply Forall_insert.
    + eapply Forall_impl; [exact Hsims|]. intros x. by apply simOK_mono.
    + split; [by destruct Hsim|done].
  - pose proof (countFinished_insert _ _ _ {| path := path sim; control := c' |}
                  Hwho) as Hc. cbn [control] in Hc. lia.
Qed.

Lemma run_inv (sched : list (nat * EnvInput)) (e : Engine) :
  Inv s0 e -> Inv s0 (run Math_exp Math_pow cfg sched e).
Proof using root_not_terminal.
  revert e. induction sched as [|[who ev] sched IH]; intros e He; simpl; [done|].
  apply IH. by apply resume_inv.
Qed.

End RunInvariant.

Lemma resume_length Math_exp Math_pow cfg who ev e :
  length (simulations (resume Math_exp Math_pow cfg who ev e))
  = length (simulations e).
Proof.
  unfold resume. destruct (simulations e !! who); [|done].
  destruct (step _ _ _ _ _ _). simpl. by rewrite length_insert.
Qed.

Lemma run_length Math_exp Math_pow cfg sched e :
  length (simulations (run Math_exp Math_pow cfg sched e))
  = length (simulations e).
Proof.
  revert e. induction sched as [|[who ev] sched IH]; intros e; simpl; [done|].
  by rewrite IH, resume_length.
Qed.

(** [select] on the root that has just been made returns at once. *)
Lemma select_fresh_root fuel cfg s0 inProgress :
  select (S fuel) cfg (initialStore s0) root inProgress
  = Selected [root] inProgress.
Proof.
  unfold select. simpl. by rewrite andb_false_r.
Qed.

Lemma launch_fresh_root fuel cfg s0 n inProgress :
  launch (S fuel) cfg (initialStore s0) root n inProgress
  = Some (replicate n {| path := [root]; control := AwaitSelect |}).
Proof.
  induction n as [|n IH]; [done|].
  cbn [launch]. rewrite select_fresh_root, IH. done.
Qed.

Lemma start_fresh fuel cfg s0 :
  start (S fuel) cfg s0
  = Some {| store := initialStore s0;
            simulations := replicate (numSimulations cfg)
                             {| path := [root]; control := AwaitSelect |} |}.
Proof. unfold start. by rewrite launch_fresh_root. Qed.

Lemma countFinished_replicate n sim :
  countFinished (replicate n sim) = n * finishedBit (control sim).
Proof. induction n as [|n IH]; simpl; [done|]. by rewrite IH. Qed.

Lemma initial_inv cfg s0 :
  Inv s0 {| store := initialStore s0;
            simulations := replicate (numSimulations cfg)
                             {| path := [root]; control := AwaitSelect |} |}.
Proof.
  split; [|split]; simpl.
  - split; simpl.
    + eexists. split; [done|]. split; [done|]. simpl. constructor.
    + intros [|j] n Hj Hn; [done|]. done.
    + intros h c Hl. apply lookup_singleton_Some in Hl as [<- <-].
      by eexists.
    + intros [|c] n Hc Hn; [done|]. done.
  - apply Forall_replicate. by split.
  - unfold rootVisits. simpl. rewrite countFinished_replicate.
    unfold finishedBit. simpl. lia.
Qed.

Lemma allFinished_count (e : Engine) :
  allFinished e = true -> countFinished (simulations e) = length (simulations e).
Proof. apply countFinished_all. Qed.

Lemma start_Some fuel cfg s0 e0 :
  start fuel cfg s0 = Some e0 ->
  e0 = {| store := initialStore s0;
          simulations := replicate (numSimulations cfg)
                           {| path := [root]; control := AwaitSelect |} |}.
Proof.
  destruct fuel as [|fuel].
  - unfold start. destruct (numSimulations cfg) as [|n]; simpl; [|done].
    by intros [= <-].
  - rewrite start_fresh. by intros [= <-].
Qed.

(** C1, amended.  When the initial state is not terminal, once every
    simulation of the search has finished the root has been visited exactly
    [numSimulations] times, whatever the configuration, the replies of the
    oracle and the order in which the simulations resume.  (On a terminal
    initial state the simulations backpropagate nothing and the count
    stays 0.) *)
Theorem visit_conservation Math_exp Math_pow fuel cfg s0 sched e0 :
  isTerminal cfg s0 = false ->
  start fuel cfg s0 = Some e0 ->
  allFinished (run Math_exp Math_pow cfg sched e0) = true ->
  rootVisits (store (run Math_exp Math_pow cfg sched e0)) = numSimulations cfg.
Proof.
  intros Hnt Hstart Hfin. apply start_Some in Hstart as ->.
  destruct (run_inv Math_exp Math_pow cfg s0 Hnt sched _ (initial_inv cfg s0))
    as (_ & _ & Hcount).
  rewrite Hcount, (allFinished_count _ Hfin), run_length. simpl.
  by rewrite length_replicate.
Qed.

Lemma mostVisited_zero (st : Store) (first : nat) (rest : list nat) :
  Forall (fun c => exists n, heap st !! c = Some n /\ visits n = 0) (first :: rest) ->
  mostVisited st first rest = Some first.
Proof.
  revert first. induction rest as [|c rest IH]; intros first H; simpl; [done|].
  apply Forall_cons in H as [(n & Hn & Hv) H].
  pose proof H as [(m & Hm & Hw) H']%Forall_cons.
  rewrite Hn, Hm. unfold getVisits. rewrite Hv, Hw. simpl.
  apply IH. constructor; [by exists n|done].
Qed.

Lemma children_zero (s0 : DialogueState) (st : Store) :
  StoreInv s0 st ->
  Forall (fun c => exists n, heap st !! c = Some n /\ visits n = 0) (rootChildren st).
Proof.
  intros [(r & Hr & Hs & Hch) Hz _ _]. unfold rootChildren. rewrite Hr.
  eapply Forall_impl; [exact Hch|]. intros c [Hc Hlt]. simpl in *.
  destruct (lookup_lt_is_Some_2 _ _ Hlt) as [n Hn].
  exists n. split; [done|]. by eapply Hz.
Qed.

Lemma bestAction_first (s0 : DialogueState) (st : Store) :
  StoreInv s0 st -> bestAction st = Some (default EmptyString (firstAction st)).
Proof.
  intros Hinv. pose proof (children_zero s0 st Hinv) as Hz.
  destruct Hinv as [(r & Hr & Hs & Hch) _ _ _].
  unfold bestAction, firstAction, rootChildren in *. rewrite Hr in *.
  destruct (children r) as [|c cs]; [done|].
  rewrite (mostVisited_zero _ _ _ Hz).
  apply Forall_cons in Hz as [(n & Hn & _) _]. by rewrite Hn.
Qed.

Lemma inv_no_throw (s0 : DialogueState) (e : Engine) :
  Inv s0 e -> anyThrew e = false.
Proof.
  intros (_ & Hsims & _). unfold anyThrew.
  induction Hsims as [|sim sims [_ Hc] _ IH]; simpl; [done|].
  rewrite IH. by destruct (control sim).
Qed.

Lemma settle_finished (s0 : DialogueState) (e : Engine) :
  Inv s0 e -> allFinished e = true ->
  settle e = Resolved (default EmptyString (firstAction (store e))).
Proof.
  intros Hinv Hfin. unfold settle.
  rewrite (inv_no_throw _ _ Hinv), Hfin.
  destruct Hinv as (Hst & _). by rewrite (bestAction_first _ _ Hst).
Qed.

(** ** The scenario *)

Lemma rootChildren_alter (s0 : DialogueState) (st : Store)
    (f : MCTSNode -> MCTSNode) :
  (forall x, children (f x) = children x) ->
  rootChildren (setHeap (alter f root (heap st)) st) = rootChildren st.
Proof.
  intros Hc. unfold rootChildren. simpl. rewrite list_lookup_alter_eq.
  destruct (heap st !! 0); simpl; [by rewrite Hc|done].
Qed.

Lemma stubTree_alter (s0 : DialogueState) (st : Store)
    (f : MCTSNode -> MCTSNode) :
  (forall x, children (f x) = children x) ->
  StoreInv s0 st -> stubTree st ->
  stubTree (setHeap (alter f root (heap st)) st).
Proof.
  intros Hc Hinv. unfold stubTree.
  by rewrite (rootChildren_alter s0 st f Hc), (firstAction_alter s0 st f Hc Hinv).
Qed.

Lemma stubTree_sameTree (st st' : Store) :
  sameTree st st' -> stubTree st -> stubTree st'.
Proof.
  intros Hs. unfold stubTree. rewrite (sameTree_firstAction _ _ Hs).
  destruct Hs as [Hh _]. unfold rootChildren. by rewrite Hh.
Qed.

Lemma stubOK_sameTree (st st' : Store) (c : Control) :
  sameTree st st' -> stubOK st c -> stubOK st' c.
Proof.
  intros Hs. unfold stubOK. by rewrite (sameTree_firstAction _ _ Hs).
Qed.

Lemma stubOK_mono (st st' : Store) (c : Control) :
  (forall a, firstAction st = Some a -> firstAction st' = Some a) ->
  stubOK st c -> stubOK st' c.
Proof.
  intros Hf. destruct c as [|[] ? ? ?|[] ? ?| | | | | | | |]; simpl; auto.
Qed.

Section Scenario.

Variable Math_exp : float -> float.
Variable Math_pow : float -> float -> float.
Variable cfg : Config.
Variable s0 : DialogueState.
Variable priorsReply : Reply.
Hypothesis root_not_terminal : isTerminal cfg s0 = false.
Hypothesis two_children : maxChildren (options cfg) = 2%Z.

Lemma stub_generateActionsLoop k s i completions st :
  match k with
  | ByExpand _ => (i = 0 /\ completions = [])
                  \/ (i = 1 /\ completions = ["A"%string])
                  \/ (i = 2 /\ completions = ["A"%string; "B"%string])
  | BySimulate _ _ => firstAction st = Some "A"%string
  end ->
  stubOK (generateActionsLoop cfg k s i completions st).1
         (generateActionsLoop cfg k s i completions st).2.
Proof using two_children.
  unfold generateActionsLoop. rewrite two_children.
  destruct k as [node|d v].
  - intros [[-> ->] | [[-> ->] | [-> ->]]]; simpl; auto.
  - intros H. by destruct (Z.of_nat i <? 2)%Z.
Qed.

Lemma stub_simulateLoop s depth value st :
  firstAction st = Some "A"%string ->
  stubOK (simulateLoop cfg s depth value st).1
         (simulateLoop cfg s depth value st).2.
Proof using two_children.
  intros H. unfold simulateLoop.
  destruct (negb (isTerminal cfg s) && (Z.of_nat depth <? simulationDepth cfg)%Z).
  - by apply stub_generateActionsLoop.
  - done.
Qed.

Lemma generateActionsLoop_store k s i completions st :
  sameTree st (generateActionsLoop cfg k s i completions st).1.
Proof.
  unfold generateActionsLoop.
  by destruct (Z.of_nat i <? maxChildren (options cfg))%Z.
Qed.

Lemma simulateLoop_store s depth value st :
  sameTree st (simulateLoop cfg s depth value st).1.
Proof.
  unfold simulateLoop.
  destruct (negb (isTerminal cfg s) && (Z.of_nat depth <? simulationDepth cfg)%Z);
    [apply generateActionsLoop_store|done].
Qed.

Lemma stub_step (rnd : nat) (st : Store) (sim : Simulation) :
  StoreInv s0 st -> simOK (length (heap st)) s0 sim ->
  stubTree st -> stubOK st (control sim) ->
  let r := step Math_exp Math_pow cfg
             (oracleInput (stubOracle priorsReply) (control sim) rnd) st sim in
  stubTree r.1 /\ stubOK r.1 r.2.
Proof using root_not_terminal two_children.
  intros Hinv [Hp Hc] Htree Hok. destruct sim as [p ctl]. simpl in Hp, Hc, Hok.
  subst p. pose proof Hinv as [(r & Hr & Hs & Hch) Hz Ht Hi].
  unfold step.
  destruct ctl as [|k s i comps|k s actions|node s actions
                  |node s actions priors|c|s d v|s d v iv|v| |];
    cbn [control path last oracleInput pendingRequest reply]; simpl in Hc.
  - (* AwaitSelect *)
    rewrite Hr, Hs, root_not_terminal. cbn [negb]. unfold expandEnter.
    rewrite Hr, Hs, root_not_terminal. split.
    + eapply stubTree_sameTree; [apply generateActionsLoop_store|done].
    + apply stub_generateActionsLoop. auto.
  - (* AwaitGenerateText *)
    assert (exists t, stubOracle priorsReply (GenerateRequest s i) = Text t 1 /\
                      (i = 0 -> t = "A"%string) /\ (i = 1 -> t = "B"%string))
      as (t & -> & Ht0 & Ht1).
    { destruct i as [|[|i]]; simpl; eexists; (split; [done|]); split; done. }
    split.
    + eapply stubTree_sameTree; [|exact Htree].
      destruct (generateActionsLoop_store k s (S i) (comps ++ [t]) (addTokens 1 st))
        as [H1 H2]. by split.
    + destruct k as [node|d' v'].
      * apply stub_generateActionsLoop.
        destruct Hok as [[-> ->] | [-> ->]]; [rewrite Ht0|rewrite Ht1]; auto.
      * apply stub_generateActionsLoop. exact Hok.
  - (* AwaitGenerateActions *)
    destruct k as [node|d' v'].
    + simpl in Hok. subst actions. cbn [fst snd]. split; [|done].
      by eapply stubTree_sameTree.
    + destruct actions as [|a actions]; cbn [fst snd]; split; done.
  - (* AwaitPriorsText *)
    cbn [fst snd]. split; [|done].
    eapply stubTree_sameTree; [|exact Htree]. by destruct priorsReply.
  - (* AwaitPriors *)
    destruct Hc as (-> & -> & Hne). simpl in Hok. subst actions.
    destruct (expandAttach_inv s0 ["A"%string; "B"%string] priors st Hinv)
      as (K1 & K2 & K3 & K4).
    destruct (firstAction_expandAttach s0 ["A"%string; "B"%string] priors st Hinv)
      as [F1 F2].
    assert (firstAction (expandAttach 0 s0 ["A"%string; "B"%string] priors st)
            = Some "A"%string) as HA.
    { destruct Htree as [He | Hf]; [by eapply F2|by apply F1]. }
    specialize (K4 Hne). unfold rootChildren in K4.
    pose proof K1 as [(r' & Hr' & Hs' & Hch') _ _ _].
    rewrite Hr' in K4 |- *. destruct (children r') as [|c cs]; [done|].
    cbn [fst snd]. split; [by right|done].
  - (* AwaitExpand *)
    destruct (lookup_lt_is_Some_2 _ _ Hc) as [n Hn]. rewrite Hn.
    split.
    + eapply stubTree_sameTree; [apply simulateLoop_store|done].
    + by apply stub_simulateLoop.
  - (* AwaitEvaluateText *)
    destruct (evaluate s _) as [iv s'].
    cbn [fst snd]. split.
    + eapply stubTree_sameTree; [|exact Htree].
      destruct (stubOracle priorsReply (EvaluateRequest s)); by split.
    + destruct (stubOracle priorsReply (EvaluateRequest s)); exact Hok.
  - (* AwaitEvaluate *)
    split.
    + eapply stubTree_sameTree; [apply simulateLoop_store|done].
    + by apply stub_simulateLoop.
  - (* AwaitSimulate *)
    cbn [fst snd]. unfold backpropagate. cbn [reverse rev_append foldl].
    assert (forall x : MCTSNode,
              children ((fun n => if useRAVE (options cfg)
                                  then addRaveData v (addVisit v n)
                                  else addVisit v n) x) = children x) as Hk.
    { intros x. by destruct (useRAVE (options cfg)). }
    split.
    + by apply (stubTree_alter s0).
    + simpl. rewrite (firstAction_alter s0 st _ Hk Hinv). exact Hok.
  - (* Finished *)
    cbn [fst snd]. done.
  - done.
Qed.

End Scenario.

Section ScenarioRun.

Variable Math_exp : float -> float.
Variable Math_pow : float -> float -> float.
Variable cfg : Config.
Variable s0 : DialogueState.
Variable priorsReply : Reply.
Hypothesis root_not_terminal : isTerminal cfg s0 = false.
Hypothesis two_children : maxChildren (options cfg) = 2%Z.

Lemma stub_resume (who rnd : nat) (e : Engine) :
  StubInv s0 e ->
  StubInv s0 (resumeWith Math_exp Math_pow cfg (stubOracle priorsReply) who rnd e).
Proof using root_not_terminal two_children.
  intros (Hinv & Htree & Hoks). unfold resumeWith.
  destruct (simulations e !! who) as [sim|] eqn:Hwho; [|done].
  set (ev := oracleInput (stubOracle priorsReply) (control sim) rnd).
  split; [by apply resume_inv|].
  destruct Hinv as (Hst & Hsims & _).
  pose proof (Forall_lookup_1 _ _ _ _ Hsims Hwho) as Hsim.
  pose proof (Forall_lookup_1 _ _ _ _ Hoks Hwho) as Hok.
  pose proof (step_ok Math_exp Math_pow cfg s0 root_not_terminal ev _ _ Hst Hsim)
    as (_ & _ & _ & _ & K5).
  pose proof (stub_step Math_exp Math_pow cfg s0 priorsReply root_not_terminal
                two_children rnd _ _ Hst Hsim Htree Hok) as [S1 S2].
  fold ev in S1, S2. unfold resume. rewrite Hwho.
  destruct (step Math_exp Math_pow cfg ev (store e) sim) as [st' c'].
  cbn [fst snd store simulations] in *. split; [done|].
  apply Forall_insert; [|done].
  eapply Forall_impl; [exact Hoks|]. intros x. by apply stubOK_mono.
Qed.

Lemma stub_run (order : list (nat * nat)) (e : Engine) :
  StubInv s0 e ->
  StubInv s0 (runWith Math_exp Math_pow cfg (stubOracle priorsReply) order e).
Proof using root_not_terminal two_children.
  revert e. induction order as [|[who rnd] order IH]; intros e He; simpl; [done|].
  apply IH. by apply stub_resume.
Qed.

End ScenarioRun.

Lemma runWith_length Math_exp Math_pow cfg o order e :
  length (simulations (runWith Math_exp Math_pow cfg o order e))
  = length (simulations e).
Proof.
  revert e. induction order as [|[who rnd] order IH]; intros e; simpl; [done|].
  rewrite IH. unfold resumeWith. destruct (simulations e !! who); [|done].
  apply resume_length.
Qed.

Lemma initial_stub cfg s0 :
  StubInv s0 {| store := initialStore s0;
                simulations := replicate (numSimulations cfg)
                                 {| path := [root]; control := AwaitSelect |} |}.
Proof.
  split; [apply initial_inv|]. split; [by left|].
  by apply Forall_replicate.
Qed.

Lemma childFor_zero (s0 : DialogueState) (st : Store) (act : string)
    (n : MCTSNode) :
  StoreInv s0 st -> childFor st act = Some n -> visits n = 0.
Proof.
  intros Hinv H. pose proof (children_zero s0 st Hinv) as Hz.
  unfold childFor in H. apply head_Some_elem_of in H.
  apply list_elem_of_filter in H as [_ H].
  apply list_elem_of_omap in H as (c & Hc & Hn).
  rewrite Forall_forall in Hz. destruct (Hz c Hc) as (m & Hm & Hv).
  congruence.
Qed.

(** ** A terminal initial state *)

Section TerminalRoot.

Variable Math_exp : float -> float.
Variable Math_pow : float -> float -> float.
Variable cfg : Config.
Variable s0 : DialogueState.
Hypothesis root_terminal : isTerminal cfg s0 = true.

Lemma terminal_resume (who : nat) (ev : EnvInput) (sims : list Simulation) :
  Forall idle sims ->
  resume Math_exp Math_pow cfg who ev
    {| store := initialStore s0; simulations := sims |}
  = {| store := initialStore s0;
       simulations := <[who := finishedAtRoot]> sims |}.
Proof using root_terminal.
  intros Hsims. unfold resume. cbn [simulations store].
  destruct (sims !! who) as [sim|] eqn:Hwho.
  - destruct (Forall_lookup_1 _ _ _ _ Hsims Hwho) as [-> | ->].
    + unfold step. simpl. by rewrite root_terminal.
    + done.
  - rewrite list_insert_ge; [done|]. by apply lookup_ge_None.
Qed.

Lemma terminal_run (sched : list (nat * EnvInput)) (sims : list Simulation) :
  Forall idle sims ->
  run Math_exp Math_pow cfg sched
    {| store := initialStore s0; simulations := sims |}
  = {| store := initialStore s0;
       simulations := foldl (fun l ev => <[ev.1 := finishedAtRoot]> l) sims sched |}
  /\ Forall idle (foldl (fun l ev => <[ev.1 := finishedAtRoot]> l) sims sched).
Proof using root_terminal.
  revert sims. induction sched as [|[who ev] sched IH]; intros sims Hsims; simpl.
  - done.
  - rewrite terminal_resume by done. apply IH.
    apply Forall_insert; [done|by right].
Qed.

End TerminalRoot.

Lemma fill_finished (pre rest : list Simulation) (ev : EnvInput) :
  foldl (fun l (x : nat * EnvInput) => <[x.1 := finishedAtRoot]> l) (pre ++ rest)
        ((fun i => (i, ev)) <$> seq (length pre) (length rest))
  = pre ++ replicate (length rest) finishedAtRoot.
Proof.
  revert pre. induction rest as [|a rest IH]; intros pre; simpl; [done|].
  rewrite <- (Nat.add_0_r (length pre)) at 1. rewrite insert_app_r. simpl.
  rewrite (cons_middle finishedAtRoot pre rest), app_assoc.
  replace (S (length pre)) with (length (pre ++ [finishedAtRoot]))
    by (rewrite length_app; simpl; lia).
  rewrite IH. by rewrite <- app_assoc.
Qed.

Lemma bestAction_initial s0 : bestAction (initialStore s0) = Some EmptyString.
Proof. done. Qed.

Lemma settle_idle (s0 : DialogueState) (sims : list Simulation) :
  Forall idle sims ->
  let e := {| store := initialStore s0; simulations := sims |} in
  (settle e = Pending \/ settle e = Resolved EmptyString) /\
  (allFinished e = true -> settle e = Resolved EmptyString).
Proof.
  intros Hsims e. unfold settle.
  assert (anyThrew e = false) as ->.
  { unfold anyThrew. simpl. induction Hsims as [|sim sims [-> | ->] _ IH]; simpl; done. }
  destruct (allFinished e); subst e; cbn [store]; rewrite ?bestAction_initial;
    split; auto; done.
Qed.

(** C10.  When the initial state is terminal the search starts, and however
    the simulations resume the store stays as [findBestResponse] made it:
    the root has no child and no visit, no node was added, the oracle was
    never called; a simulation is either still suspended after [select] or
    finished, and the search is pending or has returned the empty string.
    Once each simulation has resumed it has returned the empty string. *)
Theorem terminal_root_search Math_exp Math_pow fuel cfg s0 :
  isTerminal cfg s0 = true ->
  0 < fuel ->
  exists e0, start fuel cfg s0 = Some e0 /\
    (forall sched,
       let e := run Math_exp Math_pow cfg sched e0 in
       store e = initialStore s0 /\
       Forall (fun sim => control sim = AwaitSelect \/ control sim = Finished)
              (simulations e) /\
       (settle e = Pending \/ settle e = Resolved EmptyString)) /\
    (forall ev, findBestResponse Math_exp Math_pow fuel cfg s0
                  (onceEach (numSimulations cfg) ev) = Resolved EmptyString).
Proof.
  intros Hterm Hfuel. destruct fuel as [|fuel]; [lia|].
  eexists. split; [apply start_fresh|].
  assert (Forall idle (replicate (numSimulations cfg) selectedAtRoot)) as Hidle.
  { apply Forall_replicate. by left. }
  split.
  - intros sched.
    pose proof (terminal_run Math_exp Math_pow cfg s0 Hterm sched _ Hidle) as Hrun.
    unfold selectedAtRoot in Hrun. destruct Hrun as [-> Hs].
    cbn zeta. cbn [store simulations]. split; [done|]. split.
    + eapply Forall_impl; [exact Hs|]. by intros sim [-> | ->]; [left|right].
    + by apply settle_idle.
  - intros ev. unfold findBestResponse. rewrite start_fresh.
    pose proof (terminal_run Math_exp Math_pow cfg s0 Hterm
                  (onceEach (numSimulations cfg) ev) _ Hidle) as Hrun.
    unfold selectedAtRoot in Hrun. destruct Hrun as [-> Hs].
    apply settle_idle; [done|]. unfold allFinished. cbn [simulations].
    unfold onceEach.
    pose proof (fill_finished [] (replicate (numSimulations cfg) selectedAtRoot) ev)
      as H. rewrite length_replicate in H. simpl in H.
    unfold selectedAtRoot in *. rewrite H.
    clear. induction (numSimulations cfg); simpl; done.
Qed.

(** ** Every simulation finishes *)

(** Each resumption brings a simulation closer to its end, whatever the
    oracle replies: [generateActions] issues at most [maxChildren] calls and
    [simulate] iterates at most [simulationDepth] times. *)

Lemma rolloutBudget_step cfg d :
  (Z.of_nat d <? simulationDepth cfg)%Z = true ->
  rolloutBudget cfg d = childrenBudget cfg + 5 + rolloutBudget cfg (S d).
Proof.
  intros H%Z.ltb_lt. unfold rolloutBudget.
  replace (Z.to_nat (simulationDepth cfg) - d)
    with (S (Z.to_nat (simulationDepth cfg) - S d)) by lia.
  rewrite Nat.mul_succ_l.
  generalize ((Z.to_nat (simulationDepth cfg) - S d) * (childrenBudget cfg + 5)).
  intros x. lia.
Qed.

Lemma rolloutBudget_pos cfg d : 1 <= rolloutBudget cfg d.
Proof. unfold rolloutBudget. apply Nat.le_add_r. Qed.

Lemma generateActionsLoop_remaining cfg k s i completions st :
  remaining cfg (generateActionsLoop cfg k s i completions st).2
  <= remaining cfg (AwaitGenerateText k s i completions).
Proof.
  unfold generateActionsLoop.
  destruct (Z.of_nat i <? maxChildren (options cfg))%Z; [done|].
  destruct k; simpl; lia.
Qed.

Lemma generateActionsLoop_next cfg k s i completions completions' st :
  remaining cfg (generateActionsLoop cfg k s (S i) completions st).2
  < remaining cfg (AwaitGenerateText k s i completions').
Proof.
  unfold generateActionsLoop.
  destruct (Z.of_nat (S i) <? maxChildren (options cfg))%Z eqn:H.
  - apply Z.ltb_lt in H. destruct k; simpl; unfold childrenBudget; lia.
  - destruct k; simpl; lia.
Qed.

Lemma simulateLoop_remaining cfg s d v st :
  remaining cfg (simulateLoop cfg s d v st).2 < 1 + rolloutBudget cfg d.
Proof.
  unfold simulateLoop.
  destruct (negb (isTerminal cfg s)); simpl.
  - destruct (Z.of_nat d <? simulationDepth cfg)%Z eqn:H.
    + pose proof (generateActionsLoop_remaining cfg (BySimulate d v) s 0 [] st).
      rewrite (rolloutBudget_step cfg d H). simpl in *. lia.
    + pose proof (rolloutBudget_pos cfg d). simpl. lia.
  - pose proof (rolloutBudget_pos cfg d). lia.
Qed.

Lemma step_remaining Math_exp Math_pow cfg ev st sim :
  remaining cfg (step Math_exp Math_pow cfg ev st sim).2
  <= remaining cfg (control sim) - 1.
Proof.
  destruct sim as [p ctl]. unfold step. cbn [control path].
  destruct ctl as [|k s i comps|k s actions|node s actions
                  |node s actions priors|c|s d v|s d v iv|v| |].
  - destruct (last p) as [leaf|]; [|simpl; lia].
    destruct (heap st !! leaf) as [n|]; [|simpl; lia].
    destruct (negb (isTerminal cfg (state n))); [|simpl; lia].
    unfold expandEnter. destruct (heap st !! leaf) as [n'|]; [|simpl; lia].
    destruct (isTerminal cfg (state n')); [simpl; lia|].
    pose proof (generateActionsLoop_remaining cfg (ByExpand leaf) (state n') 0 [] st).
    simpl in *. lia.
  - destruct (reply ev) as [text usage|].
    + pose proof (generateActionsLoop_next cfg k s i (comps ++ [text]) comps
                    (addTokens usage st)). lia.
    + destruct k; simpl; lia.
  - destruct k as [node|d v]; destruct actions; simpl; lia.
  - simpl. lia.
  - cbn zeta. destruct (heap _ !! node) as [n|]; [|simpl; lia].
    destruct (children n); simpl; lia.
  - destruct (heap st !! c) as [n|]; [|simpl; lia].
    pose proof (simulateLoop_remaining cfg (state n) 0 0%float st).
    cbn [remaining]. lia.
  - destruct (evaluate s (reply ev)). simpl. lia.
  - pose proof (simulateLoop_remaining cfg s (S d)
                  (v + iv * Math_pow 0.95 (ofNat d))%float st).
    cbn [remaining]. lia.
  - simpl. lia.
  - simpl. lia.
  - simpl. lia.
Qed.

Lemma remaining_zero cfg c : remaining cfg c = 0 -> settled c = true.
Proof.
  pose proof (rolloutBudget_pos cfg 0).
  destruct c as [|[] ? ? ?|[] ? ?| | | |? d ?|? d ? ?| | |]; simpl; try done;
    try lia.
  all: pose proof (rolloutBudget_pos cfg (S depth)); try lia.
  all: pose proof (rolloutBudget_pos cfg (S d)); lia.
Qed.

Lemma resume_remaining Math_exp Math_pow cfg who who' ev e sim :
  simulations e !! who' = Some sim ->
  exists sim',
    simulations (resume Math_exp Math_pow cfg who ev e) !! who' = Some sim' /\
    remaining cfg (control sim')
    <= remaining cfg (control sim) - (if decide (who = who') then 1 else 0).
Proof.
  intros Hsim. unfold resume.
  destruct (simulations e !! who) as [x|] eqn:Hwho.
  - pose proof (step_remaining Math_exp Math_pow cfg ev (store e) x) as Hstep.
    destruct (step Math_exp Math_pow cfg ev (store e) x) as [st c].
    cbn [simulations]. destruct (decide (who = who')) as [-> | Hne].
    + rewrite Hsim in Hwho. injection Hwho as ->.
      eexists. rewrite list_lookup_insert_eq by (by eapply lookup_lt_Some).
      split; [done|]. simpl. exact Hstep.
    + exists sim. rewrite list_lookup_insert_ne by done. split; [done|]. by rewrite Nat.sub_0_r.
  - exists sim. split; [done|]. destruct (decide (who = who')); [|by rewrite Nat.sub_0_r].
    subst who'. congruence.
Qed.

Lemma run_remaining Math_exp Math_pow cfg sched e who sim :
  simulations e !! who = Some sim ->
  exists sim',
    simulations (run Math_exp Math_pow cfg sched e) !! who = Some sim' /\
    remaining cfg (control sim')
    <= remaining cfg (control sim) - resumes who sched.
Proof.
  revert e sim. induction sched as [|[w ev] sched IH]; intros e sim Hsim.
  - exists sim. split; [done|]. change (resumes who []) with 0. lia.
  - cbn [run foldl fst snd].
    destruct (resume_remaining Math_exp Math_pow cfg w who ev e sim Hsim)
      as (sim1 & H1 & L1).
    destruct (IH _ _ H1) as (sim2 & H2 & L2).
    exists sim2. split; [exact H2|].
    unfold resumes in *. rewrite filter_cons. cbn [fst].
    destruct (decide (w = who)); cbn [length]; lia.
Qed.

Lemma allFinished_Forall (e : Engine) :
  Forall (fun sim => isFinished (control sim) = true) (simulations e) ->
  allFinished e = true.
Proof.
  unfold allFinished. induction 1 as [|sim sims H _ IH]; simpl; [done|].
  by rewrite H, IH.
Qed.

(** X1.  The search returns: once every simulation has resumed [budget] times,
    whatever the oracle replied or failed to reply, [findBestResponse] has
    resolved to an action (possibly the empty one); no simulation throws. *)
Theorem search_completes Math_exp Math_pow fuel cfg s0 sched :
  0 < fuel ->
  (forall who, who < numSimulations cfg -> budget cfg <= resumes who sched) ->
  exists response,
    findBestResponse Math_exp Math_pow fuel cfg s0 sched = Resolved response.
Proof.
  intros Hfuel Hfair. destruct fuel as [|fuel]; [lia|].
  unfold findBestResponse. rewrite start_fresh.
  set (e0 := {| store := initialStore s0;
                simulations := replicate (numSimulations cfg) selectedAtRoot |}).
  change {| store := _; simulations := _ |} with e0.
  assert (Forall (fun sim => settled (control sim) = true)
                 (simulations (run Math_exp Math_pow cfg sched e0))) as Hsettled.
  { apply Forall_lookup_2. intros who sim' Hsim'.
    assert (who < numSimulations cfg) as Hwho.
    { apply lookup_lt_Some in Hsim'. rewrite run_length in Hsim'.
      unfold e0 in Hsim'. simpl in Hsim'. by rewrite length_replicate in Hsim'. }
    assert (simulations e0 !! who = Some selectedAtRoot) as H0.
    { unfold e0. simpl. by apply lookup_replicate_2. }
    destruct (run_remaining Math_exp Math_pow cfg sched e0 who _ H0)
      as (sim2 & H2 & L2).
    rewrite Hsim' in H2. injection H2 as <-.
    apply (remaining_zero cfg). specialize (Hfair who Hwho).
    unfold budget in Hfair. simpl in L2. cbn [remaining] in Hfair. lia. }
  destruct (isTerminal cfg s0) eqn:Hterm.
  - assert (Forall idle (replicate (numSimulations cfg) selectedAtRoot)) as Hidle.
    { apply Forall_replicate. by left. }
    destruct (terminal_run Math_exp Math_pow cfg s0 Hterm sched _ Hidle) as [Hrun Hs].
    fold e0 in Hrun. rewrite Hrun in Hsettled |- *. cbn [simulations] in Hsettled.
    exists EmptyString. apply settle_idle; [done|].
    apply allFinished_Forall. cbn [simulations].
    eapply Forall_impl; [apply Forall_and; split; [exact Hs|exact Hsettled]|].
    by intros sim [[-> | ->] H].
  - pose proof (run_inv Math_exp Math_pow cfg s0 Hterm sched e0 (initial_inv cfg s0))
      as Hinv.
    eexists. apply (settle_finished s0); [done|].
    apply allFinished_Forall. destruct Hinv as (_ & Hsims & _).
    eapply Forall_impl; [apply Forall_and; split; [exact Hsims|exact Hsettled]|].
    intros sim [[_ Hc] H]. simpl in *. by destruct (control sim).
Qed.

Lemma runWith_remaining Math_exp Math_pow cfg o order e who sim :
  simulations e !! who = Some sim ->
  exists sim',
    simulations (runWith Math_exp Math_pow cfg o order e) !! who = Some sim' /\
    remaining cfg (control sim')
    <= remaining cfg (control sim) - resumes who order.
Proof.
  revert e sim. induction order as [|[w rnd] order IH]; intros e sim Hsim.
  - exists sim. split; [done|]. change (resumes who []) with 0. lia.
  - cbn [runWith foldl fst snd].
    assert (exists sim1,
              simulations (resumeWith Math_exp Math_pow cfg o w rnd e) !! who
              = Some sim1 /\
              remaining cfg (control sim1)
              <= remaining cfg (control sim)
                 - (if decide (w = who) then 1 else 0)) as (sim1 & H1 & L1).
    { unfold resumeWith. destruct (simulations e !! w) as [x|] eqn:Hw.
      - by apply resume_remaining.
      - exists sim. split; [done|].
        destruct (decide (w = who)); [|by rewrite Nat.sub_0_r].
        subst w. congruence. }
    destruct (IH _ _ H1) as (sim2 & H2 & L2).
    exists sim2. split; [exact H2|].
    unfold resumes in *. rewrite filter_cons. cbn [fst].
    destruct (decide (w = who)); cbn [length]; lia.
Qed.

(** C2.  What the code does in the scenario.  With two proposals per
    expansion, the stub oracle that proposes "A" then "B" (whatever it
    answers for the priors), a non-terminal initial state and at least one
    simulation: in whatever order the simulations resume, every child of the
    root, the child for "A" and the child for "B" alike, has 0 visits, so
    that the child for "A" never has more visits than the child for "B";
    once all simulations have finished the search returns "A"; and they have
    all finished once each has resumed [budget] times. *)
Theorem scenario_outcome Math_exp Math_pow fuel cfg s0 priorsReply order e0 :
  maxChildren (options cfg) = 2%Z ->
  isTerminal cfg s0 = false ->
  0 < numSimulations cfg ->
  start fuel cfg s0 = Some e0 ->
  let e := runWith Math_exp Math_pow cfg (stubOracle priorsReply) order e0 in
  (forall act n, childFor (store e) act = Some n -> visits n = 0) /\
  (allFinished e = true -> settle e = Resolved "A") /\
  ((forall who, who < numSimulations cfg -> budget cfg <= resumes who order) ->
   settle e = Resolved "A").
Proof.
  intros Hmc Hnt Hn Hstart e. apply start_Some in Hstart as ->.
  pose proof (stub_run Math_exp Math_pow cfg s0 priorsReply Hnt Hmc order _
                (initial_stub cfg s0)) as (Hinv & _ & Hoks).
  fold e in Hinv, Hoks.
  assert (length (simulations e) = numSimulations cfg) as Hlen.
  { unfold e. rewrite runWith_length. simpl. apply length_replicate. }
  assert (allFinished e = true -> settle e = Resolved "A") as Hres.
  { intros Hfin. rewrite (settle_finished s0 e Hinv Hfin).
    destruct (simulations e) as [|sim sims] eqn:Hs; [simpl in Hlen; lia|].
    apply Forall_cons in Hoks as [Hok _].
    unfold allFinished in Hfin. rewrite Hs in Hfin. simpl in Hfin.
    apply andb_prop in Hfin as [Hf _].
    destruct (control sim); try done. simpl in Hok. by rewrite Hok. }
  split; [|split; [exact Hres|]].
  - intros act n. destruct Hinv as (Hst & _). by apply (childFor_zero s0).
  - intros Hfair. apply Hres. apply allFinished_Forall.
    destruct Hinv as (_ & Hsims & _).
    apply Forall_lookup_2. intros who sim' Hsim'.
    pose proof (Forall_lookup_1 _ _ _ _ Hsims Hsim') as [_ Hc].
    assert (who < numSimulations cfg) as Hwho.
    { apply lookup_lt_Some in Hsim'. by rewrite Hlen in Hsim'. }
    destruct (runWith_remaining Math_exp Math_pow cfg (stubOracle priorsReply)
                order {| store := initialStore s0;
                         simulations := replicate (numSimulations cfg)
                                          selectedAtRoot |}
                who selectedAtRoot) as (sim2 & H2 & L2).
    { simpl. by apply lookup_replicate_2. }
    change (simulations e !! who = Some sim2) in H2.
    rewrite Hsim' in H2. injection H2 as <-.
    specialize (Hfair who Hwho). unfold budget in Hfair.
    cbn [control selectedAtRoot] in L2.
    assert (settled (control sim') = true) as Hset
      by (apply (remaining_zero cfg); lia).
    unfold settled in Hset. destruct (control sim'); simpl in *; done.
Qed.

(** ** Repeated expansion *)

Lemma expandAction_attach node s act prior st n :
  heap st !! node = Some n ->
  exists c,
    heap (expandAction node s act prior st) !! node = Some (pushChild c n) /\
    transpositionTable (expandAction node s act prior st) !! childHash s act
      = Some c /\
    (forall h c0, transpositionTable st !! h = Some c0 ->
                  transpositionTable (expandAction node s act prior st) !! h
                  = Some c0).
Proof.
  intros Hn. unfold expandAction, childHash.
  destruct (transpositionTable st !! hash (withNewMessage s assistant act))
    as [c|] eqn:Hl; simpl.
  - exists c. rewrite list_lookup_alter_eq, Hn. done.
  - exists (length (heap st)).
    rewrite list_lookup_alter_eq, (lookup_app_l_Some _ _ _ _ Hn).
    split; [done|]. split; [by rewrite lookup_insert_eq|].
    intros h c0 Hh. rewrite lookup_insert_ne; [done|]. congruence.
Qed.

Lemma expandLoop_attach node s actions priors i st n :
  heap st !! node = Some n ->
  exists n' cs,
    heap (expandLoop node s actions priors i st) !! node = Some n' /\
    children n' = children n ++ cs /\
    isFullyExpanded n' = isFullyExpanded n /\
    Forall2 (fun act c =>
               transpositionTable (expandLoop node s actions priors i st)
                 !! childHash s act = Some c) actions cs /\
    (forall h c0, transpositionTable st !! h = Some c0 ->
                  transpositionTable (expandLoop node s actions priors i st) !! h
                  = Some c0).
Proof.
  revert i st n. induction actions as [|act actions IH]; intros i st n Hn; simpl.
  - exists n, []. rewrite app_nil_r. by repeat split.
  - destruct (expandAction_attach node s act (priors !! i) st n Hn)
      as (c & H1 & H2 & H3).
    destruct (IH (S i) _ _ H1) as (n' & cs & K1 & K2 & K3 & K4 & K5).
    exists n', (c :: cs). split; [done|]. split.
    { rewrite K2. simpl. by rewrite <- app_assoc. }
    split; [done|]. split; [|by auto].
    constructor; [by apply K5|done].
Qed.

Lemma expandLoop_again node s actions priors i st n cs :
  heap st !! node = Some n ->
  Forall2 (fun act c => transpositionTable st !! childHash s act = Some c)
          actions cs ->
  exists n',
    heap (expandLoop node s actions priors i st) !! node = Some n' /\
    children n' = children n ++ cs /\
    length (heap (expandLoop node s actions priors i st)) = length (heap st) /\
    transpositionTable (expandLoop node s actions priors i st)
    = transpositionTable st.
Proof.
  intros Hn H. revert i st n cs Hn H.
  induction actions as [|act actions IH]; intros i st n cs Hn H.
  - apply Forall2_nil_inv_l in H as ->. exists n. rewrite app_nil_r. done.
  - apply Forall2_cons_inv_l in H as (c & cs' & Hc & H & ->).
    cbn [expandLoop]. unfold childHash in Hc.
    set (st1 := expandAction node s act (priors !! i) st).
    assert (heap st1 = alter (pushChild c) node (heap st) /\
            transpositionTable st1 = transpositionTable st) as [Hh Ht].
    { unfold st1, expandAction. by rewrite Hc. }
    assert (heap st1 !! node = Some (pushChild c n)) as Hn1.
    { by rewrite Hh, list_lookup_alter_eq, Hn. }
    rewrite <- Ht in H.
    destruct (IH (S i) st1 _ _ Hn1 H) as (n' & K1 & K2 & K3 & K4).
    exists n'. split; [done|]. split.
    { rewrite K2. simpl. by rewrite <- app_assoc. }
    split; [by rewrite K3, Hh, length_alter|congruence].
Qed.

(** Two expansions of a node with the same actions, one after the other:
    the second makes no new node and appends the children of the first to
    the child list again. *)
Lemma expandAttach_twice node actions priors priors' st n :
  heap st !! node = Some n ->
  let st1 := expandAttach node (state n) actions priors st in
  let st2 := expandAttach node (state n) actions priors' st1 in
  exists cs n1 n2,
    length cs = length actions /\
    heap st1 !! node = Some n1 /\ isFullyExpanded n1 = true /\
    children n1 = children n ++ cs /\
    heap st2 !! node = Some n2 /\
    children n2 = children n ++ cs ++ cs /\
    length (heap st2) = length (heap st1).
Proof.
  intros Hn st1 st2.
  destruct (expandLoop_attach node (state n) actions priors 0 st n Hn)
    as (n' & cs & K1 & K2 & K3 & K4 & K5).
  assert (heap st1 !! node = Some (markFullyExpanded n')) as Hn1.
  { unfold st1, expandAttach. simpl. by rewrite list_lookup_alter_eq, K1. }
  assert (transpositionTable st1
          = transpositionTable (expandLoop node (state n) actions priors 0 st))
    as Ht1 by done.
  rewrite <- Ht1 in K4.
  destruct (expandLoop_again node (state n) actions priors' 0 st1 _ cs Hn1 K4)
    as (n2 & L1 & L2 & L3 & L4).
  exists cs, (markFullyExpanded n'), (markFullyExpanded n2).
  split; [symmetry; by eapply Forall2_length|].
  split; [done|]. split; [done|]. split; [done|].
  split; [unfold st2, expandAttach; simpl; by rewrite list_lookup_alter_eq, L1|].
  split.
  - simpl. rewrite L2. simpl. rewrite K2. by rewrite <- app_assoc.
  - unfold st2, expandAttach. simpl. by rewrite length_alter, L3.
Qed.

(** ** Selection *)

Lemma selectLoop_marked (fuel : nat) (p : list nat) :
  selectLoop fuel (scenarioConfig 2) expandedStore p root
    {[hash scenarioState]} = SelectDiverges.
Proof.
  revert p. induction fuel as [|fuel IH]; intros p; [done|].
  cbn [selectLoop].
  change (heap expandedStore !! 0) with
    (Some (markFullyExpanded (pushChild 1 (newMCTSNode scenarioState None None)))).
  cbn beta iota.
  change (negb (isTerminal (scenarioConfig 2)
                  (state (markFullyExpanded
                            (pushChild 1 (newMCTSNode scenarioState None None)))))
          && isFullyExpanded (markFullyExpanded
                                (pushChild 1 (newMCTSNode scenarioState None None))))
    with true.
  cbn beta iota.
  change (children (markFullyExpanded
                      (pushChild 1 (newMCTSNode scenarioState None None))))
    with [1].
  cbn beta iota.
  rewrite decide_True by (apply elem_of_singleton; reflexivity).
  apply IH.
Qed.


(** ** The exploration constant *)

Lemma selectLoop_explorationConstant
    (C : float) fuel cfg st p current inProgress :
  selectLoop fuel (withExplorationConstant C cfg) st p current inProgress
  = selectLoop fuel cfg st p current inProgress.
Proof.
  revert p current inProgress.
  induction fuel as [|fuel IH]; intros p current inProgress; [done|].
  cbn [selectLoop].
  destruct (heap st !! current) as [cur|]; [|done].
  change (isTerminal (withExplorationConstant C cfg) (state cur))
    with (isTerminal cfg (state cur)).
  destruct (negb (isTerminal cfg (state cur)) && isFullyExpanded cur); [|done].
  destruct (children cur) as [|first rest]; [done|].
  destruct (decide _); [apply IH|].
  destruct (reduceBest st cur first rest); [apply IH|done].
Qed.

(** C4.  The score [select] computes does not depend on the configured
    [explorationConstant]: [select] returns the same for every value of it.
    The score of a child is the formula of the specification with [C] fixed
    to 1.5, the prior being the stored one or, when none is stored, uniform
    over the children; on a fresh child with prior 0.5 under a parent of 4
    visits it is 1.5, where the formula with a configured constant of 3
    gives 3. *)
Theorem exploration_constant_is_fixed :
  (forall C fuel cfg st node inProgress,
     select fuel (withExplorationConstant C cfg) st node inProgress
     = select fuel cfg st node inProgress) /\
  (forall st current child,
     childScore st current child
     = specScore 1.5 (getAverageValue child) (getRaveValue child)
         (priorOf st current child) (visits current) (visits child)
         (raveVisits child)) /\
  (forall st current child,
     actionPriors st !! default EmptyString (action child) = None ->
     priorOf st current child = (1 / ofNat (length (children current)))%float) /\
  getPUCTScore (newMCTSNode scenarioState None None) (ofNat 4) 0.5 = 1.5%float /\
  specScore 3 0 0 0.5 4 0 0 = 3%float.
Proof.
  split; [|split; [|split; [|split]]].
  - intros. apply selectLoop_explorationConstant.
  - reflexivity.
  - intros st current child H. unfold priorOf. by rewrite H.
  - vm_compute. reflexivity.
  - vm_compute. reflexivity.
Qed.

(** ** Parsing the replies *)

Lemma SFcompare_finite_refl s m e :
  SFcompare (S754_finite s m e) (S754_finite s m e) = Some Eq.
Proof.
  simpl. destruct s; rewrite Z.compare_refl, ?Pos.compare_refl; done.
Qed.

Lemma is_nan_eq (x : float) : PrimFloat.is_nan x = true -> x = nan.
Proof.
  unfold PrimFloat.is_nan. rewrite FloatAxioms.eqb_spec. intros H.
  rewrite <- (SF2Prim_Prim2SF x).
  destruct (Prim2SF x) as [[|]|[|]| |s m e]; try discriminate H; [done|].
  unfold SFeqb in H. rewrite SFcompare_finite_refl in H. discriminate H.
Qed.

Lemma nan_add_r (x : float) : (x + nan)%float = nan.
Proof.
  apply Prim2SF_inj. rewrite FloatAxioms.add_spec.
  change (Prim2SF nan) with S754_nan.
  by destruct (Prim2SF x) as [[|]|[|]| |[|] m e].
Qed.

Lemma split_cons (sep : ascii) (s : string) :
  exists p ps, split sep s = p :: ps.
Proof.
  induction s as [|c s (p & ps & IH)]; simpl; [by eexists _, _|].
  destruct (decide (c = sep)); [by eexists _, _|].
  rewrite IH. by eexists _, _.
Qed.

Lemma evaluate_nan_first (s : DialogueState) (text : string) (usage : Z) :
  PrimFloat.is_nan (parseFloat (trim (default EmptyString
                                        (head (split ","%char text))))) = true ->
  (evaluate s (Text text usage)).1 = nan.
Proof.
  intros H%is_nan_eq. unfold evaluate. cbn [fst].
  destruct (split_cons ","%char text) as (p & ps & E). rewrite E in H |- *.
  change (parseFloat (trim p) = nan) in H.
  rewrite fmap_cons. cbn [lookup list_lookup]. rewrite H.
  change (ToNumber (Some (Math_max 0 (Math_min nan 1))) * 0.3)%float with nan.
  by rewrite !nan_add_l.
Qed.

Lemma evaluate_nan_short (s : DialogueState) (text : string) (usage : Z) :
  length (split ","%char text) < 3 ->
  (evaluate s (Text text usage)).1 = nan.
Proof.
  intros H. unfold evaluate. cbn [fst].
  rewrite (lookup_ge_None_2 _ 2) by (rewrite length_fmap; lia).
  change (ToNumber None * 0.3)%float with nan. apply nan_add_r.
Qed.

Lemma priors_length (Math_exp : float -> float) (actions : list string)
    (text : string) (usage : Z) :
  length (calculateActionPriors Math_exp actions (Text text usage))
  = length (filter (fun score => PrimFloat.is_nan score = false)
              ((fun line => parseFloat (trim line)) <$> split "010"%char text)).
Proof. unfold calculateActionPriors. by rewrite !length_fmap. Qed.

(** C5.  [evaluate] returns NaN, not 0.5, whenever the first rating of the
    reply does not parse or the reply holds fewer than three ratings, as on
    "The reply is good." and on "0.9, 0.8"; on a reply with three ratings
    it returns their weighted sum, and when the oracle fails it returns
    0.5. *)
Theorem evaluate_unparseable_reply (s : DialogueState) (usage : Z) :
  (forall text,
     PrimFloat.is_nan
       (parseFloat (trim (default EmptyString (head (split ","%char text)))))
     = true ->
     (evaluate s (Text text usage)).1 = nan) /\
  (forall text,
     length (split ","%char text) < 3 ->
     (evaluate s (Text text usage)).1 = nan) /\
  (evaluate s (Text "The reply is good." usage)).1 = nan /\
  (evaluate s (Text "0.9, 0.8" usage)).1 = nan /\
  (evaluate s (Text "0.9, 0.8, 0.5" usage)).1
    = (0.9 * 0.3 + 0.8 * 0.4 + 0.5 * 0.3)%float /\
  (evaluate s Failure).1 = 0.5%float.
Proof.
  split; [intros text; apply evaluate_nan_first|].
  split; [intros text; apply evaluate_nan_short|].
  repeat split; vm_compute; reflexivity.
Qed.

(** C6.  [calculateActionPriors] returns one prior per line of the reply
    that parses to a number, whatever the candidate actions are: for two
    candidates it returns no prior at all on a reply without a number and
    one prior on a reply with one rating.  It returns the uniform
    distribution only when the oracle fails. *)
Theorem priors_of_unparseable_reply (Math_exp : float -> float) (usage : Z) :
  (forall actions text,
     length (calculateActionPriors Math_exp actions (Text text usage))
     = length (filter (fun score => PrimFloat.is_nan score = false)
                 ((fun line => parseFloat (trim line))
                    <$> split "010"%char text))) /\
  calculateActionPriors Math_exp ["A"; "B"]%string
    (Text "I cannot rate these." usage) = [] /\
  length (calculateActionPriors Math_exp ["A"; "B"]%string (Text "0.9" usage)) = 1 /\
  calculateActionPriors Math_exp ["A"; "B"]%string Failure
    = [0.5%float; 0.5%float].
Proof.
  split; [intros actions text; apply priors_length|].
  repeat split; vm_compute; reflexivity.
Qed.

(** ** Counterexamples and witnesses *)

(** C1, counterexample.  One simulation on a state whose query is
    "Thank you, goodbye!": the simulation finishes and the root has 0
    visits, not 1, for whatever [Math.exp] and [**] compute. *)
Lemma visit_conservation_fails :
  ~ exists Math_exp Math_pow,
      visitConservation Math_exp Math_pow 1 (scenarioConfig 1) closingState
        (onceEach 1 failureInput).
Proof.
  intros (Math_exp & Math_pow & H).
  specialize (H _ eq_refl eq_refl). vm_compute in H. discriminate H.
Qed.

(** C3, counterexample.  Two simulations against the stub oracle of the
    scenario both expand the root: its child list is [1; 2; 1; 2]. *)
Lemma expansion_repeats :
  ~ exists Math_exp Math_pow,
      expandedOnce Math_exp Math_pow 1 (scenarioConfig 2) scenarioState
        (stubOracle Failure) (roundRobin 2 6).
Proof.
  intros (Math_exp & Math_pow & H).
  specialize (H _ eq_refl). vm_compute in H.
  apply NoDup_cons in H as [H _]. apply H. set_solver.
Qed.

(** C1, witness: two simulations, the oracle failing at every call. *)
Lemma visit_conservation_witness :
  rootVisits (store (run noExp noPow (scenarioConfig 2)
                       (inTurn 2 7 failureInput)
                       {| store := initialStore scenarioState;
                          simulations := replicate 2 selectedAtRoot |}))
  = numSimulations (scenarioConfig 2).
Proof.
  apply (visit_conservation noExp noPow 1 (scenarioConfig 2) scenarioState).
  - vm_compute. reflexivity.
  - vm_compute. reflexivity.
  - vm_compute. reflexivity.
Defined.

(** C2, witness: the scenario itself, twenty simulations resuming in turn. *)
Lemma scenario_outcome_witness :
  let e := runWith noExp noPow (scenarioConfig 20) (stubOracle Failure)
             (roundRobin 20 8)
             {| store := initialStore scenarioState;
                simulations := replicate 20 selectedAtRoot |} in
  (forall act n, childFor (store e) act = Some n -> visits n = 0) /\
  (allFinished e = true -> settle e = Resolved "A") /\
  ((forall who, who < numSimulations (scenarioConfig 20) ->
                budget (scenarioConfig 20) <= resumes who (roundRobin 20 8)) ->
   settle e = Resolved "A").
Proof.
  apply (scenario_outcome noExp noPow 1 (scenarioConfig 20) scenarioState Failure
           (roundRobin 20 8)).
  - reflexivity.
  - vm_compute. reflexivity.
  - vm_compute. lia.
  - vm_compute. reflexivity.
Defined.

(** C10, witness: twenty simulations on a closing query. *)
Lemma terminal_root_witness :
  exists e0, start 1 (scenarioConfig 20) closingState = Some e0 /\
    (forall sched,
       let e := run noExp noPow (scenarioConfig 20) sched e0 in
       store e = initialStore closingState /\
       Forall (fun sim => control sim = AwaitSelect \/ control sim = Finished)
              (simulations e) /\
       (settle e = Pending \/ settle e = Resolved EmptyString)) /\
    (forall ev, findBestResponse noExp noPow 1 (scenarioConfig 20) closingState
                  (onceEach (numSimulations (scenarioConfig 20)) ev)
                = Resolved EmptyString).
Proof.
  apply (terminal_root_search noExp noPow 1 (scenarioConfig 20) closingState).
  - vm_compute. reflexivity.
  - lia.
Defined.

(** C9, witness: a fresh node under a parent without visits. *)
Lemma zero_denominator_witness :
  getPUCTScore (newMCTSNode scenarioState None None) 0 0.5 = nan.
Proof.
  apply (getPUCTScore_zero_denominator (newMCTSNode scenarioState None None)
           0%float 0.5%float).
  - reflexivity.
  - reflexivity.
  - right. vm_compute. reflexivity.
Defined.

Lemma search_completes_witness :
  exists response,
    findBestResponse noExp noPow 1 (scenarioConfig 2) scenarioState
      (inTurn 2 44 failureInput) = Resolved response.
Proof.
  apply search_completes; [lia|].
  intros [|[|who]] Hwho; [vm_compute; lia..|].
  exfalso. change (S (S who) < 2) in Hwho. lia.
Defined.

Lemma run_app Math_exp Math_pow cfg sched1 sched2 e :
  run Math_exp Math_pow cfg (sched1 ++ sched2) e
  = run Math_exp Math_pow cfg sched2 (run Math_exp Math_pow cfg sched1 e).
Proof. unfold run. apply foldl_app. Qed.

Section FirstChild.

Variable Math_exp : float -> float.
Variable Math_pow : float -> float -> float.
Variable cfg : Config.
Variable s0 : DialogueState.
Hypothesis root_not_terminal : isTerminal cfg s0 = false.

Lemma resume_firstAction who ev e a :
  Inv s0 e -> firstAction (store e) = Some a ->
  firstAction (store (resume Math_exp Math_pow cfg who ev e)) = Some a.
Proof using root_not_terminal.
  intros (Hst & Hsims & _) Ha. unfold resume.
  destruct (simulations e !! who) as [sim|] eqn:Hwho; [|done].
  pose proof (Forall_lookup_1 _ _ _ _ Hsims Hwho) as Hsim.
  pose proof (step_ok Math_exp Math_pow cfg s0 root_not_terminal ev _ _ Hst Hsim)
    as (_ & _ & _ & _ & K).
  destruct (step Math_exp Math_pow cfg ev (store e) sim) as [st' c'].
  by apply K.
Qed.

Lemma run_firstAction sched e a :
  Inv s0 e -> firstAction (store e) = Some a ->
  firstAction (store (run Math_exp Math_pow cfg sched e)) = Some a.
Proof using root_not_terminal.
  revert e. induction sched as [|[who ev] sched IH]; intros e He Ha; [done|].
  cbn [run foldl fst snd]. apply IH.
  - by apply resume_inv.
  - by apply resume_firstAction.
Qed.

End FirstChild.

(** X2.  At every moment of a search on a non-terminal initial state,
    whatever the oracle replies and in whatever order the simulations
    resume: no simulation has thrown; the path of every simulation is the
    root alone; every node but the root has no visit and holds the initial
    state extended by the one assistant message of its action, so the tree
    never grows below the children of the root; and the root has been
    visited once by each simulation that has finished. *)
Theorem only_the_root_is_expanded Math_exp Math_pow fuel cfg s0 sched e0 :
  isTerminal cfg s0 = false ->
  start fuel cfg s0 = Some e0 ->
  let e := run Math_exp Math_pow cfg sched e0 in
  anyThrew e = false /\
  Forall (fun sim => path sim = [root]) (simulations e) /\
  (forall j n, j <> root -> heap (store e) !! j = Some n ->
     visits n = 0 /\
     exists act, action n = Some act /\
                 state n = withNewMessage s0 assistant act) /\
  rootVisits (store e) = countFinished (simulations e).
Proof.
  intros Hnt ->%start_Some e.
  pose proof (run_inv Math_exp Math_pow cfg s0 Hnt sched _ (initial_inv cfg s0))
    as Hinv.
  fold e in Hinv. split; [by apply (inv_no_throw s0)|].
  destruct Hinv as ([_ Hz _ Hi] & Hsims & Hcount).
  split; [|split; [|done]].
  - eapply Forall_impl; [exact Hsims|]. by intros sim [? _].
  - intros j n Hj Hn. split; [by eapply Hz|by eapply Hi].
Qed.

Lemma only_the_root_is_expanded_witness :
  let e := run noExp noPow (scenarioConfig 2)
             (inTurn 2 3 {| reply := Text "A" 1; random := 0 |})
             {| store := initialStore scenarioState;
                simulations := replicate 2 selectedAtRoot |} in
  anyThrew e = false /\
  Forall (fun sim => path sim = [root]) (simulations e) /\
  (forall j n, j <> root -> heap (store e) !! j = Some n ->
     visits n = 0 /\
     exists act, action n = Some act /\
                 state n = withNewMessage scenarioState assistant act) /\
  rootVisits (store e) = countFinished (simulations e).
Proof.
  apply (only_the_root_is_expanded noExp noPow 1 (scenarioConfig 2)
           scenarioState); reflexivity.
Defined.

(** X3.  The answer of a search on a non-terminal initial state is fixed
    by the first expansion that attaches a child to the root: if the first
    child of the root carries the action [a] at some moment, then once all
    simulations have finished [findBestResponse] resolves to [a], whatever
    the oracle replies afterwards (proposals, priors, evaluations) and in
    whatever order the simulations resume. *)
Theorem first_child_is_the_answer Math_exp Math_pow fuel cfg s0 sched1 sched2
    e0 a :
  isTerminal cfg s0 = false ->
  start fuel cfg s0 = Some e0 ->
  firstAction (store (run Math_exp Math_pow cfg sched1 e0)) = Some a ->
  allFinished (run Math_exp Math_pow cfg (sched1 ++ sched2) e0) = true ->
  findBestResponse Math_exp Math_pow fuel cfg s0 (sched1 ++ sched2)
  = Resolved a.
Proof.
  intros Hnt Hstart Ha Hfin. unfold findBestResponse. rewrite Hstart.
  apply start_Some in Hstart as ->.
  pose proof (run_inv Math_exp Math_pow cfg s0 Hnt sched1 _ (initial_inv cfg s0))
    as Hinv1.
  pose proof (run_inv Math_exp Math_pow cfg s0 Hnt (sched1 ++ sched2) _
                (initial_inv cfg s0)) as Hinv.
  rewrite (settle_finished s0 _ Hinv Hfin).
  rewrite run_app.
  by rewrite (run_firstAction Math_exp Math_pow cfg s0 Hnt sched2 _ a Hinv1 Ha).
Qed.

Lemma first_child_is_the_answer_witness :
  findBestResponse noExp noPow 1 (scenarioConfig 1) scenarioState
    ([(0, failureInput);
      (0, {| reply := Text "A" 1; random := 0 |});
      (0, {| reply := Text "B" 1; random := 0 |});
      (0, failureInput); (0, failureInput); (0, failureInput)]
     ++ [(0, failureInput); (0, failureInput)])
  = Resolved "A".
Proof.
  apply (first_child_is_the_answer noExp noPow 1 (scenarioConfig 1)
           scenarioState _ _
           {| store := initialStore scenarioState;
              simulations := replicate 1 selectedAtRoot |});
    reflexivity.
Defined.

(** ** The calls of the oracle *)

Lemma rolloutCalls_step cfg d :
  (Z.of_nat d <? simulationDepth cfg)%Z = true ->
  rolloutCalls cfg d = childrenBudget cfg + 1 + rolloutCalls cfg (S d).
Proof.
  intros H%Z.ltb_lt. unfold rolloutCalls.
  replace (Z.to_nat (simulationDepth cfg) - d)
    with (S (Z.to_nat (simulationDepth cfg) - S d)) by lia.
  rewrite Nat.mul_succ_l.
  generalize ((Z.to_nat (simulationDepth cfg) - S d) * (childrenBudget cfg + 1)).
  intros x. lia.
Qed.

Lemma generateActionsLoop_calls cfg k s i completions st :
  oracleCalls (generateActionsLoop cfg k s i completions st).1
  + callsLeft cfg (generateActionsLoop cfg k s i completions st).2
  <= oracleCalls st
     + match k with
       | ByExpand _ => (childrenBudget cfg - i) + 1 + rolloutCalls cfg 0
       | BySimulate d _ => (childrenBudget cfg - i) + 1 + rolloutCalls cfg (S d)
       end.
Proof.
  unfold generateActionsLoop.
  destruct (Z.of_nat i <? maxChildren (options cfg))%Z eqn:H.
  - apply Z.ltb_lt in H. destruct k; cbn [fst snd callsLeft oracleCalls callOracle];
      unfold childrenBudget; lia.
  - destruct k; cbn [fst snd callsLeft]; lia.
Qed.

Lemma simulateLoop_calls cfg s d v st :
  oracleCalls (simulateLoop cfg s d v st).1
  + callsLeft cfg (simulateLoop cfg s d v st).2
  <= oracleCalls st + rolloutCalls cfg d.
Proof.
  unfold simulateLoop.
  destruct (negb (isTerminal cfg s)); simpl; [|lia].
  destruct (Z.of_nat d <? simulationDepth cfg)%Z eqn:H; simpl; [|lia].
  pose proof (generateActionsLoop_calls cfg (BySimulate d v) s 0 [] st) as G.
  rewrite (rolloutCalls_step cfg d H). cbv beta iota in G. lia.
Qed.

Lemma expandLoop_calls node s actions priors i st :
  oracleCalls (expandLoop node s actions priors i st) = oracleCalls st.
Proof.
  revert i st. induction actions as [|a actions IH]; intros i st; [done|].
  cbn [expandLoop]. rewrite IH. unfold expandAction.
  by destruct (transpositionTable st !! _).
Qed.

Lemma expandAttach_calls node s actions priors st :
  oracleCalls (expandAttach node s actions priors st) = oracleCalls st.
Proof. unfold expandAttach. cbn. apply expandLoop_calls. Qed.

Lemma backpropagate_calls cfg p v st :
  oracleCalls (backpropagate cfg p v st) = oracleCalls st.
Proof.
  unfold backpropagate. generalize (reverse p). intros l. revert st.
  induction l as [|x l IH]; intros st; [done|]. cbn [foldl]. by rewrite IH.
Qed.

Lemma step_calls Math_exp Math_pow cfg ev st sim :
  oracleCalls (step Math_exp Math_pow cfg ev st sim).1
  + callsLeft cfg (step Math_exp Math_pow cfg ev st sim).2
  <= oracleCalls st + callsLeft cfg (control sim).
Proof.
  destruct sim as [p ctl]. unfold step. cbn [control path].
  destruct ctl as [|k s i comps|k s actions|node s actions
                  |node s actions priors|c|s d v|s d v iv|v| |].
  - destruct (last p) as [leaf|]; [|simpl; lia].
    destruct (heap st !! leaf) as [n|]; [|simpl; lia].
    destruct (negb (isTerminal cfg (state n))); [|simpl; lia].
    unfold expandEnter. destruct (heap st !! leaf) as [n'|]; [|simpl; lia].
    destruct (isTerminal cfg (state n')); [simpl; lia|].
    pose proof (generateActionsLoop_calls cfg (ByExpand leaf) (state n') 0 [] st)
      as G.
    cbv beta iota in G. cbn [callsLeft]. lia.
  - destruct (reply ev) as [text usage|].
    + pose proof (generateActionsLoop_calls cfg k s (S i) (comps ++ [text])
                    (addTokens usage st)) as G.
      change (oracleCalls (addTokens usage st)) with (oracleCalls st) in G.
      destruct k; cbv beta iota in G; cbn [callsLeft]; lia.
    + destruct k; simpl; lia.
  - destruct k as [node|d v]; destruct actions; simpl; lia.
  - destruct (reply ev); simpl; lia.
  - cbn zeta.
    assert (oracleCalls (expandAttach node s actions priors st) = oracleCalls st)
      as E by apply expandAttach_calls.
    destruct (heap _ !! node) as [n|]; [|cbn [fst snd callsLeft]; lia].
    destruct (children n); cbn [fst snd callsLeft]; lia.
  - destruct (heap st !! c) as [n|]; [|simpl; lia].
    pose proof (simulateLoop_calls cfg (state n) 0 0%float st).
    cbn [callsLeft]. lia.
  - destruct (evaluate s (reply ev)). destruct (reply ev); simpl; lia.
  - pose proof (simulateLoop_calls cfg s (S d)
                  (v + iv * Math_pow 0.95 (ofNat d))%float st).
    cbn [callsLeft]. lia.
  - cbn [fst snd callsLeft]. rewrite backpropagate_calls. lia.
  - simpl. lia.
  - simpl. lia.
Qed.

Lemma totalCallsLeft_insert cfg (sims : list Simulation) (who : nat)
    (sim sim' : Simulation) :
  sims !! who = Some sim ->
  totalCallsLeft cfg (<[who := sim']> sims) + callsLeft cfg (control sim)
  = totalCallsLeft cfg sims + callsLeft cfg (control sim').
Proof.
  revert who. induction sims as [|x sims IH]; intros [|who] H; simpl in *;
    try done.
  - injection H as ->. lia.
  - specialize (IH _ H). lia.
Qed.

Lemma totalCallsLeft_replicate cfg n sim :
  totalCallsLeft cfg (replicate n sim) = n * callsLeft cfg (control sim).
Proof. induction n as [|n IH]; simpl; [done|]. by rewrite IH. Qed.

Lemma resume_calls Math_exp Math_pow cfg who ev e :
  oracleCalls (store (resume Math_exp Math_pow cfg who ev e))
  + totalCallsLeft cfg (simulations (resume Math_exp Math_pow cfg who ev e))
  <= oracleCalls (store e) + totalCallsLeft cfg (simulations e).
Proof.
  unfold resume. destruct (simulations e !! who) as [sim|] eqn:Hwho; [|done].
  pose proof (step_calls Math_exp Math_pow cfg ev (store e) sim) as Hstep.
  destruct (step Math_exp Math_pow cfg ev (store e) sim) as [st c].
  cbn [store simulations fst snd] in *.
  pose proof (totalCallsLeft_insert cfg _ _ _ {| path := path sim; control := c |}
                Hwho) as Hins.
  cbn [control] in Hins. lia.
Qed.

Lemma run_calls Math_exp Math_pow cfg sched e :
  oracleCalls (store (run Math_exp Math_pow cfg sched e))
  + totalCallsLeft cfg (simulations (run Math_exp Math_pow cfg sched e))
  <= oracleCalls (store e) + totalCallsLeft cfg (simulations e).
Proof.
  revert e. induction sched as [|[who ev] sched IH]; intros e; [done|].
  cbn [run foldl fst snd]. etrans; [apply IH|]. apply resume_calls.
Qed.



(** ** [select] on any tree *)

Lemma reduceBest_elem st current best rest r :
  reduceBest st current best rest = Some r -> r ∈ best :: rest.
Proof.
  revert best. induction rest as [|c rest IH]; intros best; simpl.
  - intros [= <-]. set_solver.
  - destruct (heap st !! best), (heap st !! c); try done.
    intros Hr. apply IH in Hr. rewrite elem_of_cons in Hr.
    rewrite !elem_of_cons.
    destruct Hr as [-> | Hr]; [destruct (_ <? _)%float; auto|auto].
Qed.

Lemma selectLoop_blocked fuel cfg st p current n inProgress :
  heap st !! current = Some n -> selectable cfg n = true ->
  children n <> [] -> hash (state n) ∈ inProgress ->
  selectLoop fuel cfg st p current inProgress = SelectDiverges.
Proof.
  intros Hn Hs Hc Hin. unfold selectable in Hs. revert p.
  induction fuel as [|fuel IH]; intros p; [done|].
  cbn [selectLoop]. rewrite Hn, Hs.
  destruct (children n) as [|first rest]; [done|].
  rewrite decide_True by done. apply IH.
Qed.

Lemma selectLoop_path fuel cfg st acc current inProgress p inProgress' :
  selectLoop fuel cfg st acc current inProgress = Selected p inProgress' ->
  exists q, p = acc ++ q /\ selectPath cfg st current q /\
            inProgress ⊆ inProgress'.
Proof.
  revert acc current inProgress.
  induction fuel as [|fuel IH]; intros acc current inProgress; [done|].
  cbn [selectLoop].
  destruct (heap st !! current) as [n|] eqn:Hn; [|done].
  fold (selectable cfg n). destruct (selectable cfg n) eqn:Hs.
  - destruct (children n) as [|first rest] eqn:Hc.
    + intros [= <- <-]. exists [current; current].
      split; [by rewrite <- app_assoc|]. split; [|done].
      by eapply selectPath_childless.
    + destruct (decide (hash (state n) ∈ inProgress)) as [Hin|Hin].
      * rewrite (selectLoop_blocked fuel cfg st _ current n inProgress);
          [done|done|done| |done]. by rewrite Hc.
      * destruct (reduceBest st n first rest) as [best|] eqn:Hb; [|done].
        intros (q & -> & Hq & Hsub)%IH.
        exists (current :: q). split; [by rewrite <- app_assoc|]. split.
        -- eapply selectPath_child; [done..| |done]. rewrite Hc.
           by eapply reduceBest_elem.
        -- set_solver.
  - intros [= <- <-]. exists [current]. split; [done|]. split; [|done].
    by eapply selectPath_leaf.
Qed.

Lemma selectPath_shape cfg st current p :
  selectPath cfg st current p ->
  head p = Some current /\
  (exists leaf n, last p = Some leaf /\ heap st !! leaf = Some n /\
                  (selectable cfg n = false \/ children n = [])) /\
  (forall i a b, p !! i = Some a -> p !! S i = Some b ->
     exists n, heap st !! a = Some n /\ selectable cfg n = true /\
               (b ∈ children n \/ (b = a /\ children n = [] /\
                                   S (S i) = length p))).
Proof.
  induction 1 as [cur n Hn Hs|cur n Hn Hs Hc|cur n child p Hn Hs Hc Hp IH].
  - split; [done|]. split; [exists cur, n; auto|].
    intros [|i] a b; simpl; done.
  - split; [done|]. split; [exists cur, n; auto|].
    intros [|[|i]] a b; simpl; try done.
    intros [= <-] [= <-]. exists n. auto 6.
  - destruct IH as (Hh & (leaf & m & Hl & Hm & Hor) & Hlinks).
    split; [done|]. split.
    + exists leaf, m. split; [|done].
      destruct p as [|x p]; [done|]. by rewrite last_cons, Hl.
    + intros [|i] a b; simpl.
      * intros [= <-] Hb. exists n. split; [done|]. split; [done|]. left.
        destruct p as [|x p]; [done|]. simpl in *. congruence.
      * intros Ha Hb. destruct (Hlinks i a b Ha Hb) as (k & K1 & K2 & K3).
        exists k. split; [done|]. split; [done|].
        destruct K3 as [?|(? & ? & ->)]; auto.
Qed.

(** X5.  The path [select] returns from [node] on any tree: it starts at
    [node]; it ends on a node that is terminal, or not fully expanded, or
    has no child; every entry before the last is a non-terminal, fully
    expanded node, followed by one of its children or, when it has none
    and is the end of the path, by itself a second time; and the
    in-progress set only grows. *)
Theorem select_path_shape fuel cfg st node inProgress p inProgress' :
  select fuel cfg st node inProgress = Selected p inProgress' ->
  head p = Some node /\
  (exists leaf n, last p = Some leaf /\ heap st !! leaf = Some n /\
                  (selectable cfg n = false \/ children n = [])) /\
  (forall i a b, p !! i = Some a -> p !! S i = Some b ->
     exists n, heap st !! a = Some n /\ selectable cfg n = true /\
               (b ∈ children n \/ (b = a /\ children n = [] /\
                                   S (S i) = length p))) /\
  inProgress ⊆ inProgress'.
Proof.
  intros (q & -> & Hq & Hsub)%selectLoop_path.
  destruct (selectPath_shape cfg st node q Hq) as (H1 & H2 & H3). done.
Qed.

Lemma select_path_shape_witness :
  head [root; 1] = Some root /\
  (exists leaf n, last [root; 1] = Some leaf /\
                  heap expandedStore !! leaf = Some n /\
                  (selectable (scenarioConfig 2) n = false \/ children n = [])) /\
  (forall i a b, [root; 1] !! i = Some a -> [root; 1] !! S i = Some b ->
     exists n, heap expandedStore !! a = Some n /\
               selectable (scenarioConfig 2) n = true /\
               (b ∈ children n \/ (b = a /\ children n = [] /\
                                   S (S i) = length [root; 1]))) /\
  (∅ : gset StateHash) ⊆ {[hash scenarioState]}.
Proof.
  apply (select_path_shape 2 (scenarioConfig 2) expandedStore root).
  vm_compute. reflexivity.
Defined.

(** X6.  Once a [select] has returned from a node that is not terminal,
    fully expanded and has a child, no later [select] from that node with
    the same in-progress set returns: the first has left the hash of the
    node in the set, which nothing removes, and the loop executes
    [continue] without moving. *)
Theorem select_returns_once fuel fuel' cfg st node n inProgress p inProgress' :
  heap st !! node = Some n ->
  selectable cfg n = true ->
  children n <> [] ->
  select fuel cfg st node inProgress = Selected p inProgress' ->
  hash (state n) ∈ inProgress' /\
  select fuel' cfg st node inProgress' = SelectDiverges.
Proof.
  intros Hn Hs Hc Hsel.
  assert (hash (state n) ∈ inProgress') as Hin.
  { unfold select in Hsel. destruct fuel as [|fuel]; [done|].
    cbn [selectLoop] in Hsel. rewrite Hn in Hsel.
    fold (selectable cfg n) in Hsel. rewrite Hs in Hsel.
    destruct (children n) as [|first rest] eqn:Hc'; [done|].
    destruct (decide (hash (state n) ∈ inProgress)) as [Hin|Hin].
    - rewrite (selectLoop_blocked fuel cfg st _ node n inProgress) in Hsel;
        try done. by rewrite Hc'.
    - destruct (reduceBest st n first rest) as [best|]; [|done].
      apply selectLoop_path in Hsel as (_ & _ & _ & Hsub). set_solver. }
  split; [done|]. by apply (selectLoop_blocked fuel' cfg st [] node n).
Qed.

Lemma select_returns_once_witness :
  (hash scenarioState ∈ ({[hash scenarioState]} : gset StateHash)) /\
  select 7 (scenarioConfig 2) expandedStore 0 {[hash scenarioState]}
  = SelectDiverges.
Proof.
  apply (select_returns_once 2 7 (scenarioConfig 2) expandedStore 0
           (markFullyExpanded
              (pushChild 1 (newMCTSNode scenarioState None None)))
           ∅ [0; 1] {[hash scenarioState]});
    [reflexivity|reflexivity|done|].
  vm_compute. reflexivity.
Defined.

(** ** [backpropagate] on any path *)

Lemma occurrences_app node p q :
  occurrences node (p ++ q) = occurrences node p + occurrences node q.
Proof. unfold occurrences. by rewrite filter_app, length_app. Qed.

Lemma occurrences_reverse node p :
  occurrences node (reverse p) = occurrences node p.
Proof.
  induction p as [|x p IH]; [done|].
  rewrite reverse_cons, occurrences_app, IH.
  change (x :: p) with ([x] ++ p). rewrite occurrences_app. lia.
Qed.

Lemma backpropagate_fold cfg value l st j :
  heap (foldl (fun st node =>
                 setHeap (alter (recordVisit cfg value) node (heap st)) st)
              st l) !! j
  = Nat.iter (occurrences j l) (recordVisit cfg value) <$> heap st !! j.
Proof.
  revert st. induction l as [|x l IH]; intros st.
  - simpl. by destruct (heap st !! j).
  - cbn [foldl]. rewrite IH. cbn [heap setHeap].
    unfold occurrences. rewrite filter_cons.
    destruct (decide (x = j)) as [-> | Hne].
    + rewrite list_lookup_alter_eq. destruct (heap st !! j); [|done].
      cbn [fmap option_fmap option_map]. f_equal. symmetry.
      apply Nat.iter_succ_r.
    + by rewrite list_lookup_alter_ne.
Qed.

Lemma backpropagate_lookup cfg p value st j :
  heap (backpropagate cfg p value st) !! j
  = Nat.iter (occurrences j p) (recordVisit cfg value) <$> heap st !! j.
Proof.
  unfold backpropagate.
  rewrite <- (occurrences_reverse j p). apply backpropagate_fold.
Qed.

Lemma recordVisit_iter cfg value k n :
  let n' := Nat.iter k (recordVisit cfg value) n in
  visits n' = visits n + k /\
  raveVisits n' = raveVisits n + (if useRAVE (options cfg) then k else 0) /\
  state n' = state n /\ parent n' = parent n /\ action n' = action n /\
  children n' = children n /\ isFullyExpanded n' = isFullyExpanded n.
Proof.
  induction k as [|k IH]; simpl.
  - rewrite !Nat.add_0_r. by destruct (useRAVE (options cfg)).
  - destruct IH as (H1 & H2 & H3 & H4 & H5 & H6 & H7).
    unfold recordVisit at 1 3 5 7 9 11 13.
    destruct (useRAVE (options cfg)); simpl; rewrite ?H1, ?H2; repeat split;
      try done; lia.
Qed.

Lemma backpropagate_store cfg p value st :
  length (heap (backpropagate cfg p value st)) = length (heap st) /\
  transpositionTable (backpropagate cfg p value st) = transpositionTable st /\
  actionPriors (backpropagate cfg p value st) = actionPriors st /\
  completionTokens (backpropagate cfg p value st) = completionTokens st.
Proof.
  unfold backpropagate. generalize (reverse p). intros l. revert st.
  induction l as [|x l IH]; intros st; [done|]. cbn [foldl].
  set (st1 := setHeap _ st).
  destruct (IH st1) as (H1 & H2 & H3 & H4).
  split; [|done]. etrans; [exact H1|]. unfold st1. simpl. apply length_alter.
Qed.



(** X8.  A node that is not terminal, fully expanded and has no child (as
    [expand] leaves a node for which the oracle proposed nothing) is pushed
    twice by [select], which returns at once, so that [backpropagate] of
    that path counts two visits for the one simulation. *)
Theorem childless_node_counts_twice fuel cfg st node n inProgress value :
  heap st !! node = Some n ->
  selectable cfg n = true ->
  children n = [] ->
  select (S fuel) cfg st node inProgress = Selected [node; node] inProgress /\
  visits <$> heap (backpropagate cfg [node; node] value st) !! node
  = Some (visits n + 2).
Proof.
  intros Hn Hs Hc. split.
  - unfold select. cbn [selectLoop]. rewrite Hn.
    fold (selectable cfg n). by rewrite Hs, Hc.
  - rewrite backpropagate_lookup, Hn. simpl.
    pose proof (recordVisit_iter cfg value (occurrences node [node; node]) n)
      as (H1 & _). rewrite H1. f_equal. f_equal.
    unfold occurrences. rewrite !filter_cons, !decide_True by done. done.
Qed.

Lemma childless_node_counts_twice_witness :
  let st := setHeap (alter markFullyExpanded 0
                       (heap (initialStore scenarioState)))
              (initialStore scenarioState) in
  select 1 (scenarioConfig 2) st 0 ∅ = Selected [0; 0] ∅ /\
  visits <$> heap (backpropagate (scenarioConfig 2) [0; 0] 1 st) !! 0
  = Some (0 + 2).
Proof.
  intros st.
  apply (childless_node_counts_twice 0 (scenarioConfig 2) st 0
           (markFullyExpanded (newMCTSNode scenarioState None None)) ∅ 1);
    reflexivity.
Defined.

(** ** [expand] and the transposition table *)

Lemma TableInv_alter (f : MCTSNode -> MCTSNode) node st :
  (forall x, state (f x) = state x) ->
  TableInv st -> TableInv (setHeap (alter f node (heap st)) st).
Proof.
  intros Hf [H1 H2]. split; simpl.
  - intros h c Hc. destruct (H1 h c Hc) as (n & Hn & Hh).
    destruct (decide (node = c)) as [-> | Hne].
    + exists (f n). rewrite list_lookup_alter_eq, Hn. simpl.
      by rewrite Hf.
    + exists n. by rewrite list_lookup_alter_ne.
  - intros c n. destruct (decide (node = c)) as [-> | Hne].
    + rewrite list_lookup_alter_eq.
      destruct (heap st !! c) as [m|] eqn:Hm; [|done].
      intros [= <-]. rewrite Hf. by apply H2.
    + rewrite list_lookup_alter_ne by done. apply H2.
Qed.

Lemma TableInv_priors a st :
  TableInv st -> TableInv (setActionPriors a st).
Proof. done. Qed.

Lemma TableInv_expandAction node s act prior st :
  TableInv st -> TableInv (expandAction node s act prior st).
Proof.
  intros Hinv. unfold expandAction.
  destruct (transpositionTable st !! hash (withNewMessage s assistant act))
    as [c|] eqn:Hl.
  - apply TableInv_priors. by apply TableInv_alter.
  - apply TableInv_priors.
    apply (TableInv_alter (pushChild (length (heap st))) node
             (setTranspositionTable _ (setHeap _ st))); [done|].
    destruct Hinv as [H1 H2]. split; simpl.
    + intros h c [[<- <-] | [Hne Hc]]%lookup_insert_Some.
      * eexists. rewrite lookup_app_r by lia. rewrite Nat.sub_diag. done.
      * destruct (H1 h c Hc) as (n & Hn & Hh). exists n.
        by rewrite (lookup_app_l_Some _ _ _ _ Hn).
    + intros c n [Hn | [Hlen Hn]]%lookup_app_Some.
      * rewrite lookup_insert_ne; [by apply H2|].
        intros Heq. rewrite Heq in Hl. rewrite (H2 c n Hn) in Hl. done.
      * apply list_lookup_singleton_Some in Hn as [Hc <-]. simpl.
        rewrite lookup_insert_eq. f_equal. lia.
Qed.

Lemma TableInv_expandLoop node s actions priors i st :
  TableInv st -> TableInv (expandLoop node s actions priors i st).
Proof.
  revert i st. induction actions as [|a actions IH]; intros i st H; [done|].
  cbn [expandLoop]. apply IH. by apply TableInv_expandAction.
Qed.

Lemma TableInv_unique st c c' n n' :
  TableInv st -> heap st !! c = Some n -> heap st !! c' = Some n' ->
  hash (state n) = hash (state n') -> c = c'.
Proof.
  intros [_ H2] Hn Hn' Hh. apply H2 in Hn, Hn'. rewrite Hh in Hn. congruence.
Qed.

(** X9.  The transposition table and the tree stay in step: if every entry
    of the table is a node with the state it is keyed by and every node is
    the entry for its state, this still holds after an expansion of any
    node with any actions and priors, and after any backpropagation; so no
    two nodes ever hold states with the same hash: a state reached again is
    the node made the first time. *)
Theorem table_and_tree_agree cfg node s actions priors p value st :
  TableInv st ->
  TableInv (expandAttach node s actions priors st) /\
  TableInv (backpropagate cfg p value st) /\
  (forall c c' n n',
     heap (expandAttach node s actions priors st) !! c = Some n ->
     heap (expandAttach node s actions priors st) !! c' = Some n' ->
     hash (state n) = hash (state n') -> c = c').
Proof.
  intros Hinv.
  assert (TableInv (expandAttach node s actions priors st)) as H.
  { unfold expandAttach. apply TableInv_alter; [done|].
    by apply TableInv_expandLoop. }
  split; [done|]. split.
  - clear H. unfold backpropagate. generalize (reverse p). intros l.
    revert st Hinv.
    induction l as [|x l IH]; intros st Hinv; [done|]. cbn [foldl].
    apply IH. apply TableInv_alter; [|done].
    intros n. by destruct (useRAVE (options cfg)).
  - intros c c' n n'. by apply TableInv_unique.
Qed.

Lemma TableInv_initial s0 : TableInv (initialStore s0).
Proof.
  split; simpl.
  - intros h c [<- <-]%lookup_singleton_Some. by eexists.
  - intros [|c] n; [|done]. intros [= <-]. simpl. by rewrite lookup_singleton_eq.
Qed.

Lemma table_and_tree_agree_witness :
  let st := initialStore scenarioState in
  let st' := expandAttach 0 scenarioState ["A"; "A"]%string [] st in
  TableInv st' /\
  TableInv (backpropagate (scenarioConfig 2) [0] 1 st) /\
  (forall c c' n n',
     heap st' !! c = Some n -> heap st' !! c' = Some n' ->
     hash (state n) = hash (state n') -> c = c').
Proof.
  intros st st'.
  apply (table_and_tree_agree (scenarioConfig 2) 0 scenarioState
           ["A"; "A"]%string [] [0] 1 st).
  apply TableInv_initial.
Defined.

(** ** The priors [expand] stores *)

Lemma expandAction_priors node s act prior st :
  actionPriors (expandAction node s act prior st)
  = <[act := prior]> (actionPriors st).
Proof.
  unfold expandAction. by destruct (transpositionTable st !! _).
Qed.

Lemma expandLoop_priors_other node s actions priors i st act :
  act ∉ actions ->
  actionPriors (expandLoop node s actions priors i st) !! act
  = actionPriors st !! act.
Proof.
  revert i st. induction actions as [|a actions IH]; intros i st Hn; [done|].
  apply not_elem_of_cons in Hn as [Hne Hn]. cbn [expandLoop].
  rewrite IH by done. rewrite expandAction_priors.
  by rewrite lookup_insert_ne.
Qed.

Lemma expandLoop_priors node s actions priors i st k act :
  NoDup actions -> actions !! k = Some act ->
  actionPriors (expandLoop node s actions priors i st) !! act
  = Some (priors !! (i + k)).
Proof.
  revert i st k. induction actions as [|a actions IH]; intros i st k Hnd Hk;
    [done|].
  apply NoDup_cons in Hnd as [Ha Hnd]. cbn [expandLoop].
  destruct k as [|k]; simpl in Hk.
  - injection Hk as ->. rewrite expandLoop_priors_other by done.
    rewrite expandAction_priors, lookup_insert_eq. by rewrite Nat.add_0_r.
  - rewrite (IH (S i) _ k Hnd Hk). do 2 f_equal. lia.
Qed.

(** X10.  [expand] stores the prior of each action under the text of the
    action alone, whatever the node: after an expansion with pairwise
    different actions the table of priors holds, for the action at index
    [k], the entry of [priors] at [k], which is [undefined] when the
    oracle rated fewer lines than there are actions; the priors of other
    actions are as before.  [select] then replaces a prior that is
    [undefined] by the uniform [1 / children.length]. *)
Theorem expand_stores_priors node s actions priors st k act :
  NoDup actions ->
  actions !! k = Some act ->
  let st' := expandAttach node s actions priors st in
  actionPriors st' !! act = Some (priors !! k) /\
  (forall other, other ∉ actions ->
     actionPriors st' !! other = actionPriors st !! other) /\
  (priors !! k = None ->
   forall current child, action child = Some act ->
     priorOf st' current child
     = (1 / ofNat (length (children current)))%float).
Proof.
  intros Hnd Hk st'.
  assert (actionPriors st' !! act = Some (priors !! k)) as H.
  { unfold st', expandAttach. cbn [actionPriors setHeap].
    by rewrite (expandLoop_priors node s actions priors 0 st k act). }
  split; [done|]. split.
  - intros other Ho. unfold st', expandAttach. cbn [actionPriors setHeap].
    by apply expandLoop_priors_other.
  - intros Hnone current child Hact. unfold priorOf.
    rewrite Hact. change (default EmptyString (Some act)) with act.
    by rewrite H, Hnone.
Qed.

Lemma expand_stores_priors_witness :
  let st' := expandAttach 0 scenarioState ["A"; "B"]%string [1%float]
               (initialStore scenarioState) in
  actionPriors st' !! "B"%string = Some ([1%float] !! 1) /\
  (forall other, other ∉ ["A"; "B"]%string ->
     actionPriors st' !! other
     = actionPriors (initialStore scenarioState) !! other) /\
  ([1%float] !! 1 = None ->
   forall current child, action child = Some "B"%string ->
     priorOf st' current child
     = (1 / ofNat (length (children current)))%float).
Proof.
  intros st'.
  apply (expand_stores_priors 0 scenarioState ["A"; "B"]%string [1%float]
           (initialStore scenarioState) 1 "B"%string).
  - apply NoDup_cons. split; [|apply NoDup_singleton].
    intros [= H]%list_elem_of_singleton.
  - reflexivity.
Defined.

(** ** [generateActions] *)

Lemma resume_at Math_exp Math_pow cfg who ev e sim :
  simulations e !! who = Some sim ->
  store (resume Math_exp Math_pow cfg who ev e)
  = (step Math_exp Math_pow cfg ev (store e) sim).1 /\
  simulations (resume Math_exp Math_pow cfg who ev e) !! who
  = Some {| path := path sim;
            control := (step Math_exp Math_pow cfg ev (store e) sim).2 |}.
Proof.
  intros Hsim. unfold resume. rewrite Hsim.
  destruct (step Math_exp Math_pow cfg ev (store e) sim) as [st c].
  cbn [store simulations fst snd]. split; [done|].
  apply list_lookup_insert_eq. by eapply lookup_lt_Some.
Qed.

Lemma totalUsage_cons r replies :
  totalUsage (r :: replies) = (r.2 + totalUsage replies)%Z.
Proof. done. Qed.

Lemma generateActions_texts Math_exp Math_pow cfg who k s p m :
  maxChildren (options cfg) = Z.of_nat m ->
  forall replies evs e i completions,
    carry evs replies ->
    i < m -> i + length replies <= m ->
    simulations e !! who
    = Some {| path := p; control := AwaitGenerateText k s i completions |} ->
    let e' := run Math_exp Math_pow cfg ((fun ev => (who, ev)) <$> evs) e in
    simulations e' !! who
    = Some {| path := p;
              control :=
                if decide (i + length replies = m)
                then AwaitGenerateActions k s (completions ++ replies.*1)
                else AwaitGenerateText k s (i + length replies)
                       (completions ++ replies.*1) |} /\
    completionTokens (store e')
    = (completionTokens (store e) + totalUsage replies)%Z.
Proof.
  intros Hm. induction replies as [|[t u] replies IH];
    intros evs e i comps Hcarry Hi Hle Hsim.
  - destruct evs; [|done]. simpl. rewrite Nat.add_0_r, app_nil_r.
    rewrite decide_False by lia. split; [done|]. unfold totalUsage. simpl. lia.
  - destruct evs as [|ev evs]; [done|]. injection Hcarry as Hev Hcarry.
    cbn [fmap list_fmap run foldl fst snd].
    destruct (resume_at Math_exp Math_pow cfg who ev e _ Hsim) as [Hst Hs].
    unfold step in Hst, Hs. cbn [control path] in Hst, Hs.
    rewrite Hev in Hst, Hs. cbn [fst snd] in Hst, Hs.
    unfold generateActionsLoop in Hst, Hs. rewrite Hm in Hst, Hs.
    cbn [length] in Hle |- *.
    destruct (Z.of_nat (S i) <? Z.of_nat m)%Z eqn:Hlt.
    + apply Z.ltb_lt in Hlt. cbn [fst snd] in Hst, Hs.
      assert (S i < m) as Hi' by lia.
      assert (S i + length replies <= m) as Hle'
        by (rewrite Nat.add_succ_r in Hle; exact Hle).
      destruct (IH evs _ (S i) (comps ++ [t]) Hcarry Hi' Hle' Hs) as [K1 K2].
      change (foldl _ _ _) with
        (run Math_exp Math_pow cfg ((fun ev => (who, ev)) <$> evs)
           (resume Math_exp Math_pow cfg who ev e)).
      rewrite K1, K2, Hst. cbn [fmap list_fmap fst].
      rewrite <- app_assoc. cbn [app].
      replace (S i + length replies) with (i + S (length replies)) by lia.
      split; [done|]. rewrite totalUsage_cons. cbn [snd].
      change (completionTokens (callOracle (addTokens u (store e))))
        with (completionTokens (store e) + u)%Z. lia.
    + apply Z.ltb_ge in Hlt. cbn [fst snd] in Hst, Hs.
      assert (replies = []) as -> by (destruct replies; [done|simpl in Hle; lia]).
      destruct evs; [|done]. cbn [fmap list_fmap foldl length fst].
      rewrite decide_True by (simpl; lia).
      rewrite Hs, Hst. split; [done|]. rewrite totalUsage_cons. cbn [snd].
      change (completionTokens (addTokens u (store e)))
        with (completionTokens (store e) + u)%Z.
      change (totalUsage []) with 0%Z. lia.
Qed.

(** X11.  [generateActions] returns all the proposals or none.  With
    [maxChildren = m > 0], from its first call of the oracle: when the
    oracle answers the [m] calls, the simulation holds the [m] texts, in
    order; when the oracle fails after fewer answers, the simulation holds
    the empty list, the texts it had received are dropped, and the tokens
    of the answered calls are counted all the same. *)
Theorem generateActions_all_or_nothing Math_exp Math_pow cfg who k s p m
    replies evs ev e :
  maxChildren (options cfg) = Z.of_nat m ->
  0 < m ->
  carry evs replies ->
  simulations e !! who
  = Some {| path := p; control := AwaitGenerateText k s 0 [] |} ->
  (length replies = m ->
   let e' := run Math_exp Math_pow cfg ((fun ev => (who, ev)) <$> evs) e in
   simulations e' !! who
   = Some {| path := p; control := AwaitGenerateActions k s replies.*1 |} /\
   completionTokens (store e')
   = (completionTokens (store e) + totalUsage replies)%Z) /\
  (length replies < m -> reply ev = Failure ->
   let e' := run Math_exp Math_pow cfg
               ((fun ev => (who, ev)) <$> (evs ++ [ev])) e in
   simulations e' !! who
   = Some {| path := p; control := AwaitGenerateActions k s [] |} /\
   completionTokens (store e')
   = (completionTokens (store e) + totalUsage replies)%Z).
Proof.
  intros Hm Hpos Hcarry Hsim. split.
  - intros Hlen.
    destruct (generateActions_texts Math_exp Math_pow cfg who k s p m Hm
                replies evs e 0 [] Hcarry Hpos ltac:(simpl; lia) Hsim)
      as [K1 K2].
    cbn zeta. rewrite K1, K2. by rewrite decide_True by (simpl; lia).
  - intros Hlen Hfail.
    destruct (generateActions_texts Math_exp Math_pow cfg who k s p m Hm
                replies evs e 0 [] Hcarry Hpos ltac:(simpl; lia) Hsim)
      as [K1 K2].
    rewrite decide_False in K1 by (simpl; lia).
    cbn zeta. rewrite fmap_app. unfold run in *. rewrite foldl_app.
    cbn [fmap list_fmap foldl fst snd].
    destruct (resume_at Math_exp Math_pow cfg who ev _ _ K1) as [Hst Hs].
    unfold step in Hst, Hs. cbn [control path] in Hst, Hs.
    rewrite Hfail in Hst, Hs. cbn [fst snd] in Hst, Hs.
    rewrite Hs, Hst. done.
Qed.

Lemma generateActions_all_or_nothing_witness :
  let e := {| store := initialStore scenarioState;
              simulations :=
                [{| path := [0];
                    control := AwaitGenerateText (ByExpand 0) scenarioState
                                 0 [] |}] |} in
  let evs := [{| reply := Text "A" 3; random := 0 |}] in
  (length [("A"%string, 3%Z)] = 2 ->
   let e' := run noExp noPow (scenarioConfig 1) ((fun ev => (0, ev)) <$> evs) e
   in
   simulations e' !! 0
   = Some {| path := [0];
             control := AwaitGenerateActions (ByExpand 0) scenarioState
                          [("A"%string, 3%Z)].*1 |} /\
   completionTokens (store e')
   = (completionTokens (store e) + totalUsage [("A"%string, 3%Z)])%Z) /\
  (length [("A"%string, 3%Z)] < 2 -> reply failureInput = Failure ->
   let e' := run noExp noPow (scenarioConfig 1)
               ((fun ev => (0, ev)) <$> (evs ++ [failureInput])) e in
   simulations e' !! 0
   = Some {| path := [0];
             control := AwaitGenerateActions (ByExpand 0) scenarioState [] |} /\
   completionTokens (store e')
   = (completionTokens (store e) + totalUsage [("A"%string, 3%Z)])%Z).
Proof.
  intros e evs.
  apply (generateActions_all_or_nothing noExp noPow (scenarioConfig 1) 0
           (ByExpand 0) scenarioState [0] 2 [("A"%string, 3%Z)] evs
           failureInput e); [reflexivity|lia|reflexivity|reflexivity].
Defined.

(** ** The random draw of [simulate] *)

Lemma generateActionsLoop_depthOK cfg k s i completions st :
  match k with
  | BySimulate d _ => (Z.of_nat d < simulationDepth cfg)%Z
  | ByExpand _ => True
  end ->
  depthOK cfg (generateActionsLoop cfg k s i completions st).2.
Proof.
  intros Hk. unfold generateActionsLoop.
  by destruct (Z.of_nat i <? maxChildren (options cfg))%Z, k.
Qed.

Lemma simulateLoop_depthOK cfg s d v st :
  depthOK cfg (simulateLoop cfg s d v st).2.
Proof.
  unfold simulateLoop. destruct (negb (isTerminal cfg s)); [|done].
  destruct (Z.of_nat d <? simulationDepth cfg)%Z eqn:H; [|done].
  apply generateActionsLoop_depthOK. by apply Z.ltb_lt.
Qed.

Lemma step_depthOK Math_exp Math_pow cfg ev st sim :
  depthOK cfg (control sim) ->
  depthOK cfg (step Math_exp Math_pow cfg ev st sim).2.
Proof.
  destruct sim as [p ctl]. unfold step. cbn [control path].
  destruct ctl as [|k s i comps|k s actions|node s actions
                  |node s actions priors|c|s d v|s d v iv|v| |]; intros Hc.
  - destruct (last p) as [leaf|]; [|done].
    destruct (heap st !! leaf) as [n|]; [|done].
    destruct (negb (isTerminal cfg (state n))); [|done].
    unfold expandEnter. destruct (heap st !! leaf) as [n'|]; [|done].
    destruct (isTerminal cfg (state n')); [done|].
    by apply generateActionsLoop_depthOK.
  - destruct (reply ev); [|by destruct k].
    apply generateActionsLoop_depthOK. by destruct k.
  - by destruct k, actions.
  - done.
  - cbn zeta. destruct (heap _ !! node) as [n|]; [|done].
    by destruct (children n).
  - destruct (heap st !! c); [|done]. apply simulateLoop_depthOK.
  - by destruct (evaluate s (reply ev)).
  - apply simulateLoop_depthOK.
  - done.
  - done.
  - done.
Qed.

Lemma step_random Math_exp Math_pow cfg ev ev' st sim :
  (simulationDepth cfg <= 3)%Z ->
  depthOK cfg (control sim) ->
  reply ev = reply ev' ->
  step Math_exp Math_pow cfg ev st sim = step Math_exp Math_pow cfg ev' st sim.
Proof.
  intros Hd Hc Hr. destruct sim as [p ctl]. unfold step. cbn [control path] in *.
  destruct ctl as [|k s i comps|k s actions|node s actions
                  |node s actions priors|c|s d v|s d v iv|v| |];
    rewrite <- ?Hr; try done.
  destruct k as [node|d v]; [done|]. destruct actions as [|first rest]; [done|].
  simpl in Hc. cbv zeta.
  assert (Nat.max 1 (Nat.sqrt (d + 1)) = 1) as ->
    by (destruct d as [|[|[|d]]]; [done..|lia]).
  cbn [take length]. by rewrite !Nat.mod_1_r.
Qed.

Lemma resume_random Math_exp Math_pow cfg who ev ev' e :
  (simulationDepth cfg <= 3)%Z ->
  Forall (fun sim => depthOK cfg (control sim)) (simulations e) ->
  reply ev = reply ev' ->
  resume Math_exp Math_pow cfg who ev e = resume Math_exp Math_pow cfg who ev' e
  /\ Forall (fun sim => depthOK cfg (control sim))
            (simulations (resume Math_exp Math_pow cfg who ev e)).
Proof.
  intros Hd Hsims Hr. unfold resume.
  destruct (simulations e !! who) as [sim|] eqn:Hwho; [|done].
  pose proof (Forall_lookup_1 _ _ _ _ Hsims Hwho) as Hsim.
  rewrite <- (step_random Math_exp Math_pow cfg ev ev' (store e) sim Hd Hsim Hr).
  split; [done|].
  pose proof (step_depthOK Math_exp Math_pow cfg ev (store e) sim Hsim) as Hok.
  destruct (step Math_exp Math_pow cfg ev (store e) sim) as [st c].
  cbn [simulations]. by apply Forall_insert.
Qed.

Lemma run_random Math_exp Math_pow cfg sched sched' e :
  (simulationDepth cfg <= 3)%Z ->
  sameReplies sched sched' ->
  Forall (fun sim => depthOK cfg (control sim)) (simulations e) ->
  run Math_exp Math_pow cfg sched e = run Math_exp Math_pow cfg sched' e.
Proof.
  intros Hd Hsame. revert e.
  induction Hsame as [|[who ev] [who' ev'] sched sched' [Hw Hr] _ IH];
    intros e He; [done|].
  simpl in Hw, Hr. subst who'. cbn [run foldl fst snd].
  destruct (resume_random Math_exp Math_pow cfg who ev ev' e Hd He Hr)
    as [<- He']. by apply IH.
Qed.

(** X12.  With [simulationDepth <= 3] the index [simulate] draws with
    [Math.random] has no influence on the search: progressive widening
    keeps [max(1, floor(sqrt(depth + 1)))] proposals, which is 1 as long as
    [depth < 3], so the rollout always continues with the first proposal.
    Two runs that resume the same simulations with the same replies end in
    the same state, whatever is drawn. *)
Theorem random_draw_unused Math_exp Math_pow fuel cfg s0 sched sched' e0 :
  (simulationDepth cfg <= 3)%Z ->
  start fuel cfg s0 = Some e0 ->
  sameReplies sched sched' ->
  run Math_exp Math_pow cfg sched e0 = run Math_exp Math_pow cfg sched' e0.
Proof.
  intros Hd ->%start_Some Hsame. apply run_random; [done|done|].
  cbn [simulations]. by apply Forall_replicate.
Qed.

(** ** The options the search reads *)

Lemma selectLoop_temperature (t : float) fuel cfg st p current inProgress :
  selectLoop fuel (withTemperature t cfg) st p current inProgress
  = selectLoop fuel cfg st p current inProgress.
Proof.
  revert p current inProgress.
  induction fuel as [|fuel IH]; intros p current inProgress; [done|].
  cbn [selectLoop].
  destruct (heap st !! current) as [cur|]; [|done].
  change (isTerminal (withTemperature t cfg) (state cur))
    with (isTerminal cfg (state cur)).
  destruct (negb (isTerminal cfg (state cur)) && isFullyExpanded cur); [|done].
  destruct (children cur) as [|first rest]; [done|].
  destruct (decide _); [apply IH|].
  destruct (reduceBest st cur first rest); [apply IH|done].
Qed.

Lemma launch_unread (C t : float) fuel cfg st node n inProgress :
  launch fuel (withTemperature t (withExplorationConstant C cfg)) st node n
    inProgress
  = launch fuel cfg st node n inProgress.
Proof.
  revert inProgress. induction n as [|n IH]; intros inProgress; [done|].
  cbn [launch]. unfold select.
  rewrite selectLoop_temperature, selectLoop_explorationConstant.
  destruct (selectLoop fuel cfg st [] node inProgress); by rewrite ?IH.
Qed.

Lemma run_unread Math_exp Math_pow (C t : float) cfg sched e :
  run Math_exp Math_pow (withTemperature t (withExplorationConstant C cfg))
    sched e
  = run Math_exp Math_pow cfg sched e.
Proof.
  revert e. induction sched as [|[who ev] sched IH]; intros e; [done|].
  cbn [run foldl fst snd]. exact (IH _).
Qed.

(** X13.  The search never reads [options.temperature] nor
    [options.explorationConstant]: [generateActions] samples with the
    fixed temperatures [0.8 + i * 0.1] and the score uses the fixed
    constant 1.5, so two calls of [mcts] that differ only in these two
    options go through the same states and return the same. *)
Theorem mcts_ignores_temperature_and_exploration Math_exp Math_pow fuel
    system prompt numSimulations simulationDepth d m r C t C' t' sched :
  mcts Math_exp Math_pow fuel system prompt numSimulations simulationDepth
    {| optMaxDepth := d; optMaxChildren := m; optExplorationConstant := C;
       optTemperature := t; optUseRAVE := r |} sched
  = mcts Math_exp Math_pow fuel system prompt numSimulations simulationDepth
      {| optMaxDepth := d; optMaxChildren := m; optExplorationConstant := C';
         optTemperature := t'; optUseRAVE := r |} sched.
Proof.
  assert (forall C t,
            mcts Math_exp Math_pow fuel system prompt numSimulations
              simulationDepth
              {| optMaxDepth := d; optMaxChildren := m;
                 optExplorationConstant := C; optTemperature := t;
                 optUseRAVE := r |} sched
            = mcts Math_exp Math_pow fuel system prompt numSimulations
                simulationDepth
                {| optMaxDepth := d; optMaxChildren := m;
                   optExplorationConstant := None; optTemperature := None;
                   optUseRAVE := r |} sched) as H.
  { intros C0 t0. unfold mcts.
    set (cfg := mctsConfig numSimulations simulationDepth
                  {| optMaxDepth := d; optMaxChildren := m;
                     optExplorationConstant := None; optTemperature := None;
                     optUseRAVE := r |}).
    change (mctsConfig numSimulations simulationDepth
              {| optMaxDepth := d; optMaxChildren := m;
                 optExplorationConstant := C0; optTemperature := t0;
                 optUseRAVE := r |})
      with (withTemperature (default 0.8%float t0)
              (withExplorationConstant (default 1.5%float C0) cfg)).
    unfold start. rewrite launch_unread.
    destruct (launch fuel cfg _ _ _ _) as [sims|]; [|done].
    cbn [fmap option_fmap option_map]. by rewrite run_unread. }
  by rewrite (H C t), (H C' t').
Qed.

(** ** Searches that do not search *)

Lemma run_no_simulation Math_exp Math_pow cfg sched st :
  run Math_exp Math_pow cfg sched {| store := st; simulations := [] |}
  = {| store := st; simulations := [] |}.
Proof. induction sched as [|[who ev] sched IH]; [done|]. exact IH. Qed.

Lemma finished_once_resumed (sched : list (nat * EnvInput))
    (sims : list Simulation) (who : nat) :
  who < length sims ->
  1 <= resumes who sched \/ sims !! who = Some finishedAtRoot ->
  foldl (fun l (ev : nat * EnvInput) => <[ev.1 := finishedAtRoot]> l) sims sched
    !! who = Some finishedAtRoot.
Proof.
  revert sims. induction sched as [|[w ev] sched IH]; intros sims Hlt H.
  - destruct H as [H|H]; [|done]. unfold resumes in H. simpl in H. lia.
  - cbn [foldl fst]. apply IH; [by rewrite length_insert|].
    destruct (decide (w = who)) as [-> | Hne].
    + right. by apply list_lookup_insert_eq.
    + rewrite list_lookup_insert_ne by done.
      destruct H as [H|H]; [left|by right].
      unfold resumes in *. rewrite filter_cons in H. cbn [fst] in H.
      by rewrite decide_False in H.
Qed.

(** X14.  [mcts] with [numSimulations: 0], or with a [maxDepth] option
    that is 0 or negative (an explicit 0 is kept by [??]), returns the
    empty response with 0 tokens and never calls the oracle: no
    simulation is made, or the initial state, at depth 0, is terminal at
    once and every simulation stops after [select]. *)
Theorem mcts_without_search Math_exp Math_pow fuel system prompt
    nsims sdepth o sched :
  0 < fuel ->
  nsims = Some 0 \/
  (exists d, optMaxDepth o = Some d /\ (d <= 0)%Z) ->
  (forall who, who < default 10 nsims -> 1 <= resumes who sched) ->
  mcts Math_exp Math_pow fuel system prompt nsims sdepth o
    sched = (Resolved EmptyString, 0%Z) /\
  forall e0,
    start fuel (mctsConfig nsims sdepth o)
      (mctsInitialState system prompt) = Some e0 ->
    oracleCalls
      (store (run Math_exp Math_pow
                (mctsConfig nsims sdepth o) sched e0)) = 0.
Proof.
  intros Hfuel Hcase Hfair. destruct fuel as [|fuel]; [lia|].
  unfold mcts. rewrite start_fresh.
  set (cfg := mctsConfig nsims sdepth o).
  set (s0 := mctsInitialState system prompt).
  assert (store (run Math_exp Math_pow cfg sched
                   {| store := initialStore s0;
                      simulations := replicate (numSimulations cfg)
                                       selectedAtRoot |})
          = initialStore s0 /\
          settle (run Math_exp Math_pow cfg sched
                    {| store := initialStore s0;
                       simulations := replicate (numSimulations cfg)
                                        selectedAtRoot |})
          = Resolved EmptyString) as [Hst Hres].
  { destruct Hcase as [-> | (d & Hd & Hle)].
    - change (numSimulations cfg) with 0. cbn [replicate].
      by rewrite run_no_simulation.
    - assert (isTerminal cfg s0 = true) as Hterm.
      { unfold isTerminal, cfg, mctsConfig, mctsOptions. cbn [options maxDepth].
        rewrite Hd. cbn [default depth s0 mctsInitialState DialogueState_create].
        apply orb_true_intro. left. apply orb_true_intro. left.
        apply Z.leb_le. exact Hle. }
      assert (Forall idle (replicate (numSimulations cfg)
                             selectedAtRoot)) as Hidle
        by (apply Forall_replicate; by left).
      destruct (terminal_run Math_exp Math_pow cfg s0 Hterm sched _ Hidle)
        as [-> Hs].
      split; [done|]. apply settle_idle; [done|].
      apply allFinished_Forall. cbn [simulations].
      apply Forall_lookup_2. intros who sim Hsim.
      assert (who < numSimulations cfg) as Hwho.
      { apply lookup_lt_Some in Hsim.
        assert (forall (l : list Simulation),
                  length (foldl (fun l (ev : nat * EnvInput) =>
                                   <[ev.1 := finishedAtRoot]> l) l sched)
                  = length l) as Hlen.
        { clear. induction sched as [|x sched IH]; intros l; [done|].
          cbn [foldl]. by rewrite IH, length_insert. }
        by rewrite Hlen, length_replicate in Hsim. }
      rewrite finished_once_resumed in Hsim.
      + by injection Hsim as <-.
      + by rewrite length_replicate.
      + left. by apply Hfair. }
  split.
  - change (replicate _ {| path := [0]; control := AwaitSelect |})
      with (replicate (numSimulations cfg) selectedAtRoot).
    by rewrite Hres, Hst.
  - intros e0 [= <-].
    change (replicate _ {| path := [0]; control := AwaitSelect |})
      with (replicate (numSimulations cfg) selectedAtRoot).
    by rewrite Hst.
Qed.

Lemma mcts_without_search_witness :
  mcts noExp noPow 1 "system" "hello" (Some 2) None
    {| optMaxDepth := Some 0%Z; optMaxChildren := None;
       optExplorationConstant := None; optTemperature := None;
       optUseRAVE := None |}
    (onceEach 2 failureInput) = (Resolved EmptyString, 0%Z) /\
  forall e0,
    start 1 (mctsConfig (Some 2) None
               {| optMaxDepth := Some 0%Z; optMaxChildren := None;
                  optExplorationConstant := None; optTemperature := None;
                  optUseRAVE := None |})
      (mctsInitialState "system" "hello") = Some e0 ->
    oracleCalls
      (store (run noExp noPow
                (mctsConfig (Some 2) None
                   {| optMaxDepth := Some 0%Z; optMaxChildren := None;
                      optExplorationConstant := None; optTemperature := None;
                      optUseRAVE := None |})
                (onceEach 2 failureInput) e0)) = 0.
Proof.
  apply mcts_without_search; [lia| |].
  - right. exists 0%Z. split; [reflexivity|lia].
  - intros [|[|who]] Hwho; [vm_compute; lia..|].
    exfalso. change (S (S who) < 2) in Hwho. lia.
Defined.

(** ** The search never rejects *)

(** Once the simulations are made, [findBestResponse] does not reject:
    [generateActions], [calculateActionPriors] and [evaluate] catch every
    failure of the oracle, and no simulation ever reads a node that is
    missing. *)
Lemma findBestResponse_never_rejects Math_exp Math_pow fuel cfg s0 sched :
  findBestResponse Math_exp Math_pow fuel cfg s0 sched <> Rejected.
Proof.
  unfold findBestResponse.
  destruct (start fuel cfg s0) as [e0|] eqn:Hstart; [|done].
  apply start_Some in Hstart as ->.
  destruct (isTerminal cfg s0) eqn:Hterm.
  - assert (Forall idle (replicate (numSimulations cfg) selectedAtRoot))
      as Hidle by (apply Forall_replicate; by left).
    destruct (terminal_run Math_exp Math_pow cfg s0 Hterm sched _ Hidle)
      as [Hrun Hs].
    change {| path := [0]; control := AwaitSelect |} with selectedAtRoot.
    rewrite Hrun.
    pose proof (settle_idle s0 _ Hs) as [H _]. cbn zeta in H.
    destruct H as [H|H]; rewrite H; done.
  - pose proof (run_inv Math_exp Math_pow cfg s0 Hterm sched _
                  (initial_inv cfg s0)) as Hinv.
    unfold settle. rewrite (inv_no_throw s0 _ Hinv).
    destruct Hinv as (Hst & _). rewrite (bestAction_first s0 _ Hst).
    by destruct (allFinished _).
Qed.

(** ** An oracle that always fails *)

Lemma generateActionsLoop_fail cfg k s st c0 :
  barren st ->
  match k with
  | ByExpand _ => 6
  | BySimulate _ _ => 3
  end <= failRemaining c0 - 1 ->
  let r := generateActionsLoop cfg k s 0 [] st in
  failOK r.2 /\ barren r.1 /\ failRemaining r.2 <= failRemaining c0 - 1.
Proof.
  intros Hb Hk. unfold generateActionsLoop.
  destruct (Z.of_nat 0 <? maxChildren (options cfg))%Z; cbn [fst snd].
  - split; [done|]. split; [done|]. by destruct k.
  - split; [done|]. split; [done|]. destruct k; simpl in *; lia.
Qed.

Section FailingOracle.

Variable Math_exp : float -> float.
Variable Math_pow : float -> float -> float.
Variable cfg : Config.
Variable s0 : DialogueState.
Hypothesis root_not_terminal : isTerminal cfg s0 = false.

Lemma step_fail ev st sim :
  reply ev = Failure ->
  StoreInv s0 st -> simOK (length (heap st)) s0 sim ->
  failOK (control sim) -> barren st ->
  let r := step Math_exp Math_pow cfg ev st sim in
  failOK r.2 /\ barren r.1 /\
  failRemaining r.2 <= failRemaining (control sim) - 1.
Proof using root_not_terminal.
  intros Hev Hinv [Hp Hc] Hf Hb. destruct sim as [p ctl].
  simpl in Hp, Hc, Hf. subst p.
  pose proof Hinv as [(r & Hr & Hs & Hch) Hz Ht Hi].
  unfold step.
  destruct ctl as [|k s i comps|k s actions|node s actions
                  |node s actions priors|c|s d v|s d v iv|v| |];
    cbn [control path last]; try done.
  - rewrite Hr, Hs, root_not_terminal. cbn [negb]. unfold expandEnter.
    rewrite Hr, Hs, root_not_terminal.
    apply generateActionsLoop_fail; [done|simpl; lia].
  - rewrite Hev. cbn [fst snd]. split; [done|]. split; [done|].
    destruct k; simpl; lia.
  - simpl in Hf. subst actions. destruct k as [node|d v].
    + destruct Hc as [-> ->]. cbn [fst snd].
      destruct (alter_keeps_inv s0 st markFullyExpanded keeps_markFullyExpanded
                  (fun x => eq_refl) Hinv) as (K1 & K2 & K3).
      split; [done|]. split; [|simpl; lia].
      destruct Hb as (B1 & B2 & B3). split; [|split; [congruence|done]].
      simpl. by rewrite length_alter.
    + cbn [fst snd]. split; [done|]. split; [done|]. simpl; lia.
  - destruct (lookup_lt_is_Some_2 _ _ Hc) as [n Hn]. rewrite Hn.
    unfold simulateLoop.
    destruct (negb (isTerminal cfg (state n))
              && (Z.of_nat 0 <? simulationDepth cfg)%Z).
    + apply generateActionsLoop_fail; [done|simpl; lia].
    + cbn [fst snd]. split; [done|]. split; [done|]. simpl; lia.
  - cbn [fst snd]. split; [done|]. split; [|simpl; lia].
    destruct Hb as (B1 & B2 & B3).
    destruct (backpropagate_store cfg [0] v st) as (L1 & L2 & L3 & L4).
    split; [congruence|]. split; [|congruence].
    unfold backpropagate. simpl.
    assert (forall x, children ((fun n => let n := addVisit v n in
                                          if useRAVE (options cfg)
                                          then addRaveData v n else n) x)
                      = children x) as Hk
      by (intros x; simpl; by destruct (useRAVE (options cfg))).
    unfold rootChildren in *. simpl. rewrite list_lookup_alter_eq, Hr in *.
    simpl. simpl in B2. by destruct (useRAVE (options cfg)).
Qed.

Lemma resume_fail who who' ev e sim :
  reply ev = Failure -> FailInv s0 e ->
  simulations e !! who' = Some sim ->
  FailInv s0 (resume Math_exp Math_pow cfg who ev e) /\
  exists sim',
    simulations (resume Math_exp Math_pow cfg who ev e) !! who' = Some sim' /\
    failRemaining (control sim')
    <= failRemaining (control sim) - (if decide (who = who') then 1 else 0).
Proof using root_not_terminal.
  intros Hev (Hinv & Hb & Hf) Hsim.
  pose proof (resume_inv Math_exp Math_pow cfg s0 root_not_terminal who ev e Hinv)
    as Hinv'.
  unfold FailInv. unfold resume in *.
  destruct (simulations e !! who) as [x|] eqn:Hwho.
  - destruct Hinv as (Hst & Hsims & _).
    pose proof (step_fail ev (store e) x Hev Hst
                  (Forall_lookup_1 _ _ _ _ Hsims Hwho)
                  (Forall_lookup_1 _ _ _ _ Hf Hwho) Hb) as Hstep.
    destruct (step Math_exp Math_pow cfg ev (store e) x) as [st c].
    cbn [fst snd store simulations] in *.
    destruct Hstep as (S1 & S2 & S3).
    split; [split; [done|split; [done|by apply Forall_insert]]|].
    destruct (decide (who = who')) as [-> | Hne].
    + rewrite Hsim in Hwho. injection Hwho as ->.
      eexists. rewrite list_lookup_insert_eq by (by eapply lookup_lt_Some).
      split; [done|]. exact S3.
    + exists sim. rewrite list_lookup_insert_ne by done.
      split; [done|]. by rewrite Nat.sub_0_r.
  - split; [done|]. exists sim. split; [done|].
    destruct (decide (who = who')); [|by rewrite Nat.sub_0_r].
    subst who'. congruence.
Qed.

Lemma run_fail sched e who sim :
  allFail sched -> FailInv s0 e ->
  simulations e !! who = Some sim ->
  FailInv s0 (run Math_exp Math_pow cfg sched e) /\
  exists sim',
    simulations (run Math_exp Math_pow cfg sched e) !! who = Some sim' /\
    failRemaining (control sim')
    <= failRemaining (control sim) - resumes who sched.
Proof using root_not_terminal.
  intros Hall. revert e sim.
  induction Hall as [|[w ev] sched Hev _ IH]; intros e sim He Hsim.
  - split; [done|]. exists sim. split; [done|].
    change (resumes who []) with 0. lia.
  - cbn [run foldl fst snd]. simpl in Hev.
    destruct (resume_fail w who ev e sim Hev He Hsim) as (He1 & sim1 & H1 & L1).
    destruct (IH _ _ He1 H1) as (He2 & sim2 & H2 & L2).
    split; [exact He2|]. exists sim2. split; [exact H2|].
    unfold resumes in *. rewrite filter_cons. cbn [fst].
    destruct (decide (w = who)); cbn [length]; lia.
Qed.

Lemma run_fail_inv sched e :
  allFail sched -> FailInv s0 e ->
  FailInv s0 (run Math_exp Math_pow cfg sched e).
Proof using root_not_terminal.
  intros Hall. revert e.
  induction Hall as [|[w ev] sched Hev _ IH]; intros e He; [done|].
  cbn [run foldl fst snd]. simpl in Hev. apply IH.
  unfold FailInv in *. destruct He as (Hinv & Hb & Hf).
  pose proof (resume_inv Math_exp Math_pow cfg s0 root_not_terminal w ev e Hinv)
    as Hinv'.
  unfold resume in *. destruct (simulations e !! w) as [x|] eqn:Hw; [|done].
  destruct Hinv as (Hst & Hsims & _).
  pose proof (step_fail ev (store e) x Hev Hst
                (Forall_lookup_1 _ _ _ _ Hsims Hw)
                (Forall_lookup_1 _ _ _ _ Hf Hw) Hb) as Hstep.
  destruct (step Math_exp Math_pow cfg ev (store e) x) as [st c].
  cbn [fst snd store simulations] in *.
  destruct Hstep as (S1 & S2 & S3).
  split; [done|split; [done|by apply Forall_insert]].
Qed.

End FailingOracle.

(** X16.  When every call of the oracle fails, a search on a non-terminal
    initial state still ends: the tree stays the root alone, no token is
    counted, and once every simulation has resumed 7 times
    [findBestResponse] has resolved to the empty string, the root having
    been visited once by each simulation. *)
Theorem search_with_failing_oracle Math_exp Math_pow fuel cfg s0 sched e0 :
  isTerminal cfg s0 = false ->
  start fuel cfg s0 = Some e0 ->
  allFail sched ->
  let e := run Math_exp Math_pow cfg sched e0 in
  length (heap (store e)) = 1 /\
  rootChildren (store e) = [] /\
  completionTokens (store e) = 0%Z /\
  ((forall who, who < numSimulations cfg -> 7 <= resumes who sched) ->
   findBestResponse Math_exp Math_pow fuel cfg s0 sched = Resolved EmptyString
   /\ rootVisits (store e) = numSimulations cfg).
Proof.
  intros Hnt Hstart Hall e. unfold findBestResponse. rewrite Hstart.
  apply start_Some in Hstart as ->.
  set (e0 := {| store := initialStore s0;
                simulations := replicate (numSimulations cfg)
                                 {| path := [0]; control := AwaitSelect |} |})
    in *.
  assert (FailInv s0 e0) as He0.
  { split; [apply initial_inv|]. split; [done|].
    by apply Forall_replicate. }
  pose proof (run_fail_inv Math_exp Math_pow cfg s0 Hnt sched e0 Hall He0)
    as (Hinv & (B1 & B2 & B3) & Hf).
  fold e in Hinv, B1, B2, B3, Hf.
  split; [done|]. split; [done|]. split; [done|]. intros Hfair.
  assert (allFinished e = true) as Hfin.
  { apply allFinished_Forall. apply Forall_lookup_2. intros who sim' Hsim'.
    assert (who < numSimulations cfg) as Hwho.
    { apply lookup_lt_Some in Hsim'. unfold e in Hsim'.
      rewrite run_length in Hsim'. simpl in Hsim'.
      by rewrite length_replicate in Hsim'. }
    destruct (run_fail Math_exp Math_pow cfg s0 Hnt sched e0 who selectedAtRoot
                Hall He0) as (_ & sim2 & H2 & L2).
    { simpl. by apply lookup_replicate_2. }
    fold e in H2. rewrite Hsim' in H2. injection H2 as <-.
    specialize (Hfair who Hwho). cbn [control selectedAtRoot failRemaining] in L2.
    pose proof (Forall_lookup_1 _ _ _ _ Hf Hsim') as Hok. cbn beta in Hok.
    destruct Hinv as (_ & Hsims & _).
    pose proof (Forall_lookup_1 _ _ _ _ Hsims Hsim') as [_ Hc].
    destruct (control sim') as [|[] ? ? ?|[] ? ?| | | | | | | |];
      cbn [failRemaining] in L2; simpl in Hok, Hc; try done; exfalso; lia. }
  split.
  - change (settle e = Resolved EmptyString).
    rewrite (settle_finished s0 e Hinv Hfin).
    unfold firstAction. by rewrite B2.
  - destruct Hinv as (_ & _ & Hcount).
    rewrite Hcount, (allFinished_count _ Hfin). unfold e.
    rewrite run_length. simpl. by rewrite length_replicate.
Qed.

Lemma search_with_failing_oracle_witness :
  let e := run noExp noPow (scenarioConfig 2) (inTurn 2 7 failureInput)
             {| store := initialStore scenarioState;
                simulations := replicate 2 selectedAtRoot |} in
  length (heap (store e)) = 1 /\
  rootChildren (store e) = [] /\
  completionTokens (store e) = 0%Z /\
  ((forall who, who < numSimulations (scenarioConfig 2) ->
                7 <= resumes who (inTurn 2 7 failureInput)) ->
   findBestResponse noExp noPow 1 (scenarioConfig 2) scenarioState
     (inTurn 2 7 failureInput) = Resolved EmptyString
   /\ rootVisits (store e) = numSimulations (scenarioConfig 2)).
Proof.
  apply (search_with_failing_oracle noExp noPow 1 (scenarioConfig 2)
           scenarioState (inTurn 2 7 failureInput)).
  - reflexivity.
  - reflexivity.
  - vm_compute. repeat constructor.
Defined.

(** ** The edit distance *)

Lemma editRecurrence_nil_r s : editRecurrence s [] = length s.
Proof. by destruct s. Qed.

Lemma editRecurrence_nil_l t : editRecurrence [] t = length t.
Proof. by destruct t. Qed.

Lemma editRecurrence_cons a s b t :
  editRecurrence (a :: s) (b :: t)
  = if decide (a = b) then editRecurrence s t
    else S (Nat.min (Nat.min (editRecurrence s t) (editRecurrence (a :: s) t))
                    (editRecurrence s (b :: t))).
Proof. done. Qed.

Lemma rowOf_lookup f n j :
  rowOf f n !! j = if decide (j <= n) then Some (Some (f j)) else None.
Proof.
  unfold rowOf. rewrite list_lookup_fmap.
  destruct (decide (j <= n)).
  - rewrite lookup_seq_lt by lia. done.
  - rewrite lookup_seq_ge by lia. done.
Qed.

Lemma rowOf_length f n : length (rowOf f n) = S n.
Proof. unfold rowOf. by rewrite length_fmap, length_seq. Qed.

Lemma rowOf_ext f g n :
  (forall j, j <= n -> f j = g j) -> rowOf f n = rowOf g n.
Proof.
  intros H. apply list_eq. intros j. rewrite !rowOf_lookup.
  destruct (decide (j <= n)); [|done]. by rewrite H.
Qed.

Lemma arrayGet_rowOf f n j : j <= n -> arrayGet (rowOf f n) j = Some (f j).
Proof.
  intros H. unfold arrayGet. rewrite rowOf_lookup. by rewrite decide_True.
Qed.

Lemma arraySet_rowOf f n k v :
  k <= n ->
  arraySet k (Some v) (rowOf f n)
  = rowOf (fun j => if decide (j = k) then v else f j) n.
Proof.
  intros H. unfold arraySet. rewrite rowOf_length.
  rewrite decide_True by lia. apply list_eq. intros j.
  rewrite rowOf_lookup. destruct (decide (j = k)) as [-> | Hne].
  - rewrite list_lookup_insert_eq by (rewrite rowOf_length; lia).
    by rewrite decide_True.
  - rewrite list_lookup_insert_ne by done. by rewrite rowOf_lookup.
Qed.

Lemma get_list_ascii (s : string) (i : nat) :
  String.get i s = list_ascii_of_string s !! i.
Proof.
  revert i. induction s as [|c s IH]; intros [|i]; simpl; try done.
Qed.

Lemma length_list_ascii (s : string) :
  length (list_ascii_of_string s) = String.length s.
Proof. induction s as [|c s IH]; simpl; [done|]. by rewrite IH. Qed.

Lemma charAt_eqb (s1 s2 : string) i j x y :
  list_ascii_of_string s1 !! i = Some x ->
  list_ascii_of_string s2 !! j = Some y ->
  String.eqb (charAt s1 i) (charAt s2 j) = bool_decide (x = y).
Proof.
  intros H1 H2. unfold charAt. rewrite !get_list_ascii, H1, H2. simpl.
  destruct (Ascii.eqb_spec x y) as [-> | Hne].
  - by rewrite bool_decide_true.
  - by rewrite bool_decide_false.
Qed.

Section EditTable.

Variables s1 s2 : string.

Lemma table_zero_l j : j <= String.length s2 -> editTable s1 s2 0 j = j.
Proof.
  intros H. unfold editTable. rewrite take_0.
  change (reverse (@nil ascii)) with (@nil ascii).
  rewrite editRecurrence_nil_l, length_reverse, length_take.
  rewrite length_list_ascii. lia.
Qed.

Lemma table_zero_r i : i <= String.length s1 -> editTable s1 s2 i 0 = i.
Proof.
  intros H. unfold editTable. rewrite take_0.
  change (reverse (@nil ascii)) with (@nil ascii).
  rewrite editRecurrence_nil_r, length_reverse, length_take.
  rewrite length_list_ascii. lia.
Qed.

Lemma table_succ i j x y :
  list_ascii_of_string s1 !! i = Some x ->
  list_ascii_of_string s2 !! j = Some y ->
  editTable s1 s2 (S i) (S j)
  = if decide (x = y) then editTable s1 s2 i j
    else S (Nat.min (Nat.min (editTable s1 s2 i j) (editTable s1 s2 (S i) j))
                    (editTable s1 s2 i (S j))).
Proof.
  intros Hx Hy. unfold editTable.
  rewrite (take_S_r (list_ascii_of_string s1) i x Hx),
    (take_S_r (list_ascii_of_string s2) j y Hy).
  rewrite !reverse_snoc. apply editRecurrence_cons.
Qed.

Lemma inner_first k costs last :
  length costs = 0 ->
  foldl (editInner s1 s2 0) (costs, last) (seq 0 k)
  = ((fun j => Some j) <$> seq 0 k, last).
Proof.
  intros Hc. destruct costs; [|done]. clear Hc.
  induction k as [|k IH]; [done|].
  rewrite seq_S, foldl_app, IH. cbn [foldl editInner Nat.eqb plus].
  f_equal. unfold arraySet. rewrite length_fmap, length_seq.
  rewrite decide_False by lia. rewrite Nat.sub_diag. simpl.
  by rewrite fmap_app.
Qed.

Lemma inner_next i k :
  S i <= String.length s1 -> 1 <= k <= S (String.length s2) ->
  foldl (editInner s1 s2 (S i))
        (rowOf (editTable s1 s2 i) (String.length s2), Some (S i)) (seq 0 k)
  = (rowOf (fun j => if decide (j < k - 1) then editTable s1 s2 (S i) j
                     else editTable s1 s2 i j) (String.length s2),
     Some (editTable s1 s2 (S i) (k - 1))).
Proof.
  intros Hi [Hk1 Hk2]. induction k as [|k IH]; [lia|].
  destruct (decide (k = 0)) as [-> | Hk0].
  - simpl. rewrite table_zero_r by done. f_equal.
  - rewrite seq_S, foldl_app, IH by lia. cbn [foldl plus].
    unfold editInner. cbn [Nat.eqb].
    assert ((0 <? k)%nat = true) as -> by (apply Nat.ltb_lt; lia).
    rewrite !arrayGet_rowOf by lia.
    rewrite decide_False by lia. rewrite decide_False by lia.
    assert (is_Some (list_ascii_of_string s1 !! i)) as [x Hx].
    { apply lookup_lt_is_Some. rewrite length_list_ascii. lia. }
    assert (is_Some (list_ascii_of_string s2 !! (k - 1))) as [y Hy].
    { apply lookup_lt_is_Some. rewrite length_list_ascii. lia. }
    replace (S i - 1) with i by lia.
    rewrite (charAt_eqb s1 s2 i (k - 1) x y Hx Hy).
    rewrite arraySet_rowOf by lia.
    replace (S k - 1) with k by lia.
    pose proof (table_succ i (k - 1) x y Hx Hy) as Hd.
    replace (S (k - 1)) with k in Hd by lia.
    f_equal.
    + apply rowOf_ext. intros j Hj.
      destruct (decide (j = k - 1)) as [-> | Hne].
      * by rewrite decide_True by lia.
      * destruct (decide (j < k - 1)).
        -- by rewrite decide_True by lia.
        -- by rewrite decide_False by lia.
    + rewrite Hd. destruct (decide (x = y)) as [-> | Hne].
      * by rewrite bool_decide_true.
      * by rewrite bool_decide_false.
Qed.

Lemma outer_rows k :
  k <= String.length s1 ->
  foldl (editOuter s1 s2) [] (seq 0 (S k))
  = rowOf (editTable s1 s2 k) (String.length s2).
Proof.
  induction k as [|k IH]; intros Hk.
  - cbn [seq foldl]. unfold editOuter. rewrite inner_first by done.
    cbn [Nat.ltb Nat.leb]. unfold rowOf.
    apply list_eq. intros j. rewrite !list_lookup_fmap.
    destruct (decide (j <= String.length s2)).
    + rewrite lookup_seq_lt by lia. simpl. by rewrite table_zero_l.
    + by rewrite lookup_seq_ge by lia.
  - rewrite seq_S, foldl_app, IH by lia. cbn [foldl plus].
    unfold editOuter. rewrite (inner_next k (S (String.length s2))) by lia.
    cbn [Nat.ltb Nat.leb]. rewrite arraySet_rowOf by lia.
    apply rowOf_ext. intros j Hj.
    replace (S (String.length s2) - 1) with (String.length s2) by lia.
    destruct (decide (j = (String.length s2))) as [-> | Hne]; [done|].
    by rewrite decide_True by lia.
Qed.

Lemma editDistance_table :
  editDistance s1 s2
  = Some (editRecurrence (reverse (list_ascii_of_string s1))
                         (reverse (list_ascii_of_string s2))).
Proof.
  unfold editDistance. rewrite outer_rows by done.
  rewrite arrayGet_rowOf by done. unfold editTable.
  rewrite !firstn_all2; [done|..]; rewrite length_list_ascii; done.
Qed.

End EditTable.

Lemma levenshtein_nil_l t : levenshtein [] t = length t.
Proof. by destruct t. Qed.

Lemma levenshtein_nil_r s : levenshtein s [] = length s.
Proof. by destruct s. Qed.

Lemma levenshtein_cons a s b t :
  levenshtein (a :: s) (b :: t)
  = Nat.min (Nat.min (S (levenshtein s (b :: t))) (S (levenshtein (a :: s) t)))
            (levenshtein s t + (if decide (a = b) then 0 else 1)).
Proof. done. Qed.

Lemma levenshtein_sym s t : levenshtein s t = levenshtein t s.
Proof.
  revert t. induction s as [|a s IHs]; intros t.
  - by rewrite levenshtein_nil_l, levenshtein_nil_r.
  - induction t as [|b t IHt].
    + by rewrite levenshtein_nil_l, levenshtein_nil_r.
    + rewrite !levenshtein_cons, IHt, (IHs t), (IHs (b :: t)).
      destruct (decide (a = b)), (decide (b = a)); try congruence; lia.
Qed.

Lemma levenshtein_lower s t :
  length s - length t <= levenshtein s t /\
  length t - length s <= levenshtein s t.
Proof.
  revert t. induction s as [|a s IHs]; intros t.
  - rewrite levenshtein_nil_l. cbn [length]. lia.
  - induction t as [|b t IHt].
    + rewrite levenshtein_nil_r. cbn [length]. lia.
    + rewrite levenshtein_cons.
      pose proof (IHs t). pose proof (IHs (b :: t)). cbn [length] in *.
      destruct (decide (a = b)); lia.
Qed.

Lemma levenshtein_drop_l a s t :
  levenshtein (a :: s) t <= S (levenshtein s t).
Proof.
  destruct t as [|b t].
  - rewrite !levenshtein_nil_r. cbn [length]. lia.
  - rewrite levenshtein_cons. lia.
Qed.

Lemma levenshtein_grow_r s t b :
  levenshtein s t <= S (levenshtein s (b :: t)).
Proof.
  revert t b. induction s as [|a s IHs]; intros t b.
  - rewrite !levenshtein_nil_l. cbn [length]. lia.
  - rewrite levenshtein_cons.
    pose proof (levenshtein_drop_l a s t).
    pose proof (IHs t b). lia.
Qed.

Lemma levenshtein_grow_l s t a :
  levenshtein s t <= S (levenshtein (a :: s) t).
Proof.
  rewrite (levenshtein_sym s t), (levenshtein_sym (a :: s) t).
  apply levenshtein_grow_r.
Qed.

Lemma editRecurrence_levenshtein s t :
  editRecurrence s t = levenshtein s t.
Proof.
  revert t. induction s as [|a s IHs]; intros t.
  - by rewrite editRecurrence_nil_l, levenshtein_nil_l.
  - induction t as [|b t IHt].
    + by rewrite editRecurrence_nil_r, levenshtein_nil_r.
    + rewrite editRecurrence_cons, levenshtein_cons, IHt, (IHs t),
        (IHs (b :: t)).
      destruct (decide (a = b)) as [-> | Hne]; [|lia].
      pose proof (levenshtein_grow_r s t b).
      pose proof (levenshtein_grow_l s t b). lia.
Qed.

Lemma levenshtein_refl s : levenshtein s s = 0.
Proof.
  rewrite <- editRecurrence_levenshtein.
  induction s as [|a s IH]; [done|].
  rewrite editRecurrence_cons. by rewrite decide_True.
Qed.

Lemma levenshtein_zero s t : levenshtein s t = 0 -> s = t.
Proof.
  rewrite <- editRecurrence_levenshtein.
  revert t. induction s as [|a s IHs]; intros t.
  - rewrite editRecurrence_nil_l. by destruct t.
  - destruct t as [|b t]; [by rewrite editRecurrence_nil_r|].
    rewrite editRecurrence_cons.
    destruct (decide (a = b)) as [-> | Hne]; [|done].
    intros H. f_equal. by apply IHs.
Qed.

Lemma levenshtein_upper s t :
  levenshtein s t <= Nat.max (length s) (length t).
Proof.
  revert t. induction s as [|a s IHs]; intros t.
  - rewrite levenshtein_nil_l. cbn [length]. lia.
  - destruct t as [|b t].
    + rewrite levenshtein_nil_r. cbn [length]. lia.
    + rewrite levenshtein_cons. pose proof (IHs t). cbn [length].
      destruct (decide (a = b)); lia.
Qed.

Lemma list_ascii_inj (s1 s2 : string) :
  list_ascii_of_string s1 = list_ascii_of_string s2 -> s1 = s2.
Proof.
  intros H. rewrite <- (string_of_list_ascii_of_string s1),
    <- (string_of_list_ascii_of_string s2). by rewrite H.
Qed.

Lemma editDistance_levenshtein (s1 s2 : string) :
  editDistance s1 s2
  = Some (levenshtein (reverse (list_ascii_of_string s1))
                      (reverse (list_ascii_of_string s2))).
Proof. by rewrite editDistance_table, editRecurrence_levenshtein. Qed.

(** X17.  [editDistance] is the Levenshtein distance: the single row it
    rewrites in place holds, after the pass for the first [i] characters
    of [s1], the distances between that prefix and the prefixes of [s2],
    and the value returned is the distance between the two strings (read
    from their ends).  The array is never read out of range, so the result
    is never [undefined] nor [NaN]. *)
Theorem editDistance_is_levenshtein (s1 s2 : string) :
  editDistance s1 s2
  = Some (levenshtein (reverse (list_ascii_of_string s1))
                      (reverse (list_ascii_of_string s2))) /\
  forall i, i <= String.length s1 ->
    foldl (editOuter s1 s2) [] (seq 0 (S i))
    = rowOf (fun j => levenshtein
                        (reverse (take i (list_ascii_of_string s1)))
                        (reverse (take j (list_ascii_of_string s2))))
            (String.length s2).
Proof.
  split; [apply editDistance_levenshtein|].
  intros i Hi. rewrite outer_rows by done. apply rowOf_ext. intros j _.
  unfold editTable. apply editRecurrence_levenshtein.
Qed.

(** X18.  The distance [editDistance] returns is 0 exactly between equal
    strings, is the same in both directions, is at most the length of the
    longer string and at least the difference of the lengths. *)
Theorem editDistance_bounds (s1 s2 : string) :
  exists d,
    editDistance s1 s2 = Some d /\
    editDistance s2 s1 = Some d /\
    (d = 0 <-> s1 = s2) /\
    d <= Nat.max (String.length s1) (String.length s2) /\
    String.length s1 - String.length s2 <= d /\
    String.length s2 - String.length s1 <= d.
Proof.
  eexists. split; [apply editDistance_levenshtein|].
  split; [by rewrite editDistance_levenshtein, levenshtein_sym|].
  pose proof (levenshtein_upper (reverse (list_ascii_of_string s1))
                (reverse (list_ascii_of_string s2))) as Hu.
  pose proof (levenshtein_lower (reverse (list_ascii_of_string s1))
                (reverse (list_ascii_of_string s2))) as [Hl1 Hl2].
  rewrite !length_reverse, !length_list_ascii in Hu, Hl1, Hl2.
  split; [|done]. split.
  - intros H%levenshtein_zero. apply list_ascii_inj.
    by apply (inj reverse).
  - intros ->. apply levenshtein_refl.
Qed.

(** ** Similarity and clusters *)

(** X19.  [calculateSimilarity] is symmetric in its two arguments, also for
    strings of equal length, where the call with the arguments swapped
    passes them to [editDistance] in the other order. *)
Theorem calculateSimilarity_sym (a b : string) :
  calculateSimilarity a b = calculateSimilarity b a.
Proof.
  unfold calculateSimilarity.
  destruct (String.length b <? String.length a)%nat eqn:Hba;
    destruct (String.length a <? String.length b)%nat eqn:Hab; try done.
  - apply Nat.ltb_lt in Hba, Hab. lia.
  - apply Nat.ltb_ge in Hba, Hab.
    assert (String.length a = String.length b) as Hlen by lia.
    rewrite Hlen. destruct (String.length b =? 0)%nat; [done|].
    do 3 f_equal. rewrite !editDistance_levenshtein. f_equal.
    apply levenshtein_sym.
Qed.

Lemma pushOnSimilar_spec th response cl :
  Forall (fun c => c <> []) cl ->
  exists added cl',
    pushOnSimilar th response cl = Some (added, cl') /\
    (added = false ->
     cl' = cl /\
     forall first rest, first :: rest ∈ cl -> similar th response first = false)
    /\
    (added = true ->
     exists k first rest,
       cl !! k = Some (first :: rest) /\
       similar th response first = true /\
       cl' = <[k := first :: rest ++ [response]]> cl /\
       forall i fi ci, i < k -> cl !! i = Some (fi :: ci) ->
         similar th response fi = false).
Proof.
  induction 1 as [|c cl Hc Hcl IH]; cbn [pushOnSimilar].
  - exists false, []. split; [done|]. split; [|done]. intros _. split; [done|].
    intros first rest H. by apply elem_of_nil in H.
  - destruct c as [|first rest]; [done|].
    fold (similar th response first).
    destruct (similar th response first) eqn:Hs.
    + exists true, ((first :: rest ++ [response]) :: cl).
      split; [done|]. split; [done|]. intros _.
      exists 0, first, rest. split; [done|]. split; [done|]. split; [done|].
      intros i fi ci Hi. lia.
    + destruct IH as (added & cl' & -> & Hf & Ht).
      exists added, ((first :: rest) :: cl'). split; [done|]. split.
      * intros Ha. destruct (Hf Ha) as [-> Hno]. split; [done|].
        intros f r [[= -> ->] | H]%elem_of_cons; [done|]. by eapply Hno.
      * intros Ha. destruct (Ht Ha) as (k & f & r & Hk & Hsim & -> & Hbefore).
        exists (S k), f, r. split; [done|]. split; [done|]. split; [done|].
        intros [|i] fi ci Hi; simpl.
        -- by intros [= -> ->].
        -- apply Hbefore. lia.
Qed.

Lemma Clustered_nil th : Clustered th [].
Proof.
  split.
  - constructor.
  - intros first rest H. by apply elem_of_nil in H.
  - intros i k first ci ck r _ H. done.
Qed.

Lemma clusterStep_spec th response cl :
  Clustered th cl ->
  exists cl',
    clusterStep th cl response = Some cl' /\
    Clustered th cl' /\
    concat cl' ≡ₚ concat cl ++ [response] /\
    length cl <= length cl' /\
    (forall first rest ctl, cl = (first :: rest) :: ctl ->
       exists rest' ctl', cl' = (first :: rest') :: ctl').
Proof.
  intros [Hne Hsim Hapart].
  destruct (pushOnSimilar_spec th response cl Hne)
    as (added & cl' & Hpush & Hf & Ht).
  unfold clusterStep. rewrite Hpush. cbn [fmap option_fmap option_map fst snd].
  destruct added.
  - destruct (Ht eq_refl) as (k & first & rest & Hk & Hs & -> & Hbefore).
    clear Hf Ht. eexists. split; [done|]. split; [split|split; [|split]].
    + apply Forall_insert; [done|done].
    + intros f r [j Hj]%list_elem_of_lookup.
      destruct (decide (j = k)) as [-> | Hjk].
      * rewrite list_lookup_insert_eq in Hj by (by eapply lookup_lt_Some).
        injection Hj as <- <-. apply Forall_app. split.
        -- apply Hsim. by eapply list_elem_of_lookup_2.
        -- by apply Forall_singleton.
      * rewrite list_lookup_insert_ne in Hj by done.
        apply Hsim. by eapply list_elem_of_lookup_2.
    + intros i k' fi ci ck r Hik Hi Hk' Hr.
      assert (exists ci0, cl !! i = Some (fi :: ci0)) as [ci0 Hi0].
      { destruct (decide (i = k)) as [-> | Hne'].
        - rewrite list_lookup_insert_eq in Hi by (by eapply lookup_lt_Some).
          injection Hi as <- <-. by exists rest.
        - rewrite list_lookup_insert_ne in Hi by done. by exists ci. }
      destruct (decide (k' = k)) as [-> | Hne'].
      * rewrite list_lookup_insert_eq in Hk' by (by eapply lookup_lt_Some).
        injection Hk' as <-.
        change (first :: rest ++ [response])
          with ((first :: rest) ++ [response]) in Hr.
        apply elem_of_app in Hr as [Hr | ->%list_elem_of_singleton].
        -- by eapply (Hapart i k).
        -- by eapply Hbefore.
      * rewrite list_lookup_insert_ne in Hk' by done. by eapply (Hapart i k').
    + rewrite <- (take_drop_middle cl k (first :: rest) Hk) at 2.
      rewrite insert_take_drop by (by eapply lookup_lt_Some).
      rewrite !concat_app, !concat_cons.
      rewrite <- !app_assoc. apply Permutation_app_head.
      cbn [app]. apply Permutation_skip.
      rewrite <- !app_assoc. apply Permutation_app_head.
      apply Permutation_app_comm.
    + by rewrite length_insert.
    + intros f r ctl ->. destruct k as [|k]; simpl in *.
      * injection Hk as -> ->. by eexists _, _.
      * by eexists _, _.
  - destruct (Hf eq_refl) as [-> Hno]. clear Hf Ht.
    eexists. split; [done|]. split; [split|split; [|split]].
    + apply Forall_app. split; [done|]. by apply Forall_singleton.
    + intros f r [H | [= -> ->]%list_elem_of_singleton]%elem_of_app;
        [by apply Hsim|constructor].
    + intros i k fi ci ck r Hik Hi Hk Hr.
      assert (k < length cl \/ k = length cl) as [Hlt | ->].
      { apply lookup_lt_Some in Hk. rewrite length_app in Hk. simpl in Hk. lia. }
      * rewrite lookup_app_l in Hi, Hk by lia. by eapply (Hapart i k).
      * rewrite lookup_app_l in Hi by lia.
        rewrite lookup_app_r in Hk by lia. rewrite Nat.sub_diag in Hk.
        injection Hk as <-. apply list_elem_of_singleton in Hr as ->.
        eapply Hno. by eapply list_elem_of_lookup_2.
    + rewrite concat_app. simpl. done.
    + rewrite length_app. lia.
    + intros f r ctl ->. by eexists _, _.
Qed.

Lemma clusterFold_spec th responses cl :
  Clustered th cl ->
  exists cl',
    foldl (fun acc response =>
             acc ≫= fun clusters => clusterStep th clusters response)
          (Some cl) responses = Some cl' /\
    Clustered th cl' /\
    concat cl' ≡ₚ concat cl ++ responses /\
    length cl <= length cl' /\
    (forall first rest ctl, cl = (first :: rest) :: ctl ->
       exists rest' ctl', cl' = (first :: rest') :: ctl').
Proof.
  revert cl. induction responses as [|r responses IH]; intros cl Hcl.
  - exists cl. split; [done|]. split; [done|]. rewrite app_nil_r.
    split; [done|]. split; [done|]. intros f rest ctl ->. by eexists _, _.
  - destruct (clusterStep_spec th r cl Hcl) as (cl1 & H1 & C1 & P1 & L1 & F1).
    destruct (IH cl1 C1) as (cl2 & H2 & C2 & P2 & L2 & F2).
    exists cl2. cbn [foldl mbind option_bind]. rewrite H1.
    split; [exact H2|]. split; [done|]. split; [|split; [lia|]].
    + rewrite P2, P1. by rewrite <- app_assoc.
    + intros f rest ctl Hcl0. destruct (F1 f rest ctl Hcl0) as (r1 & t1 & ->).
      by eapply F2.
Qed.

Lemma clusters_partition_helper th responses :
  exists cl,
    clusterSimilarResponses th responses = Some cl /\
    Clustered th cl /\
    concat cl ≡ₚ responses /\
    length cl <= length responses.
Proof.
  destruct (clusterFold_spec th responses [] (Clustered_nil th))
    as (cl & H & C & P & _ & _).
  exists cl. split; [done|]. split; [done|]. split; [done|].
  rewrite <- P.
  destruct C as [Hne _ _]. clear -Hne.
  induction Hne as [|c cl Hc _ IH]; [done|].
  simpl. rewrite length_app. destruct c; [done|]. simpl. lia.
Qed.

(** X20.  [clusterSimilarResponses] never throws and sorts every response
    into exactly one cluster: the clusters together hold the responses,
    each as often as it was given; no cluster is empty; every member of a
    cluster is similar (at the threshold) to the first element of its
    cluster and to the first element of no earlier cluster; there are at
    most as many clusters as responses; and the first response opens the
    first cluster. *)
Theorem clusters_partition_responses th responses :
  exists cl,
    clusterSimilarResponses th responses = Some cl /\
    Clustered th cl /\
    concat cl ≡ₚ responses /\
    length cl <= length responses /\
    (forall r rest, responses = r :: rest ->
       exists members others, cl = (r :: members) :: others).
Proof.
  destruct (clusterFold_spec th responses [] (Clustered_nil th))
    as (cl & H & C & P & _ & _).
  exists cl. split; [done|]. split; [done|]. split; [done|]. split.
  - rewrite <- P.
    destruct C as [Hne _ _]. clear -Hne.
    induction Hne as [|c cl Hc _ IH]; [done|].
    simpl. rewrite length_app. destruct c; [done|]. simpl. lia.
  - intros r rest ->. unfold clusterSimilarResponses in H.
    cbn [foldl mbind option_bind] in H.
    change (clusterStep th [] r) with (Some [[r]]) in H.
    assert (Clustered th [[r]]) as Hc.
    { destruct (clusterStep_spec th r [] (Clustered_nil th))
        as (cl1 & [= <-] & C1 & _). done. }
    destruct (clusterFold_spec th rest [[r]] Hc) as (cl' & H' & _ & _ & _ & F).
    rewrite H in H'. injection H' as <-. by eapply F.
Qed.

(** ** The aggregated result *)

Lemma insertByFrequency_perm x l : insertByFrequency x l ≡ₚ x :: l.
Proof.
  induction l as [|y l IH]; [done|]. cbn [insertByFrequency].
  destruct (frequency x <? frequency y)%nat; [|done].
  rewrite IH. apply Permutation_swap.
Qed.

Lemma sortByFrequency_perm l : sortByFrequency l ≡ₚ l.
Proof.
  induction l as [|x l IH]; [done|]. cbn [sortByFrequency foldr].
  rewrite insertByFrequency_perm. by apply Permutation_skip.
Qed.

Lemma insertByFrequency_descending x l :
  descending l -> descending (insertByFrequency x l).
Proof.
  induction l as [|y l IH]; intros Hl; cbn [insertByFrequency].
  - by split.
  - destruct Hl as [Hy Hl].
    destruct (frequency x <? frequency y)%nat eqn:Hlt.
    + apply Nat.ltb_lt in Hlt. split; [|by apply IH].
      rewrite insertByFrequency_perm. constructor; [lia|done].
    + apply Nat.ltb_ge in Hlt. split; [|by split].
      constructor; [done|]. eapply Forall_impl; [exact Hy|].
      intros z Hz. simpl in Hz. lia.
Qed.

Lemma sortByFrequency_descending l : descending (sortByFrequency l).
Proof.
  induction l as [|x l IH]; [done|]. by apply insertByFrequency_descending.
Qed.

Lemma totalFrequency_perm l l' :
  l ≡ₚ l' -> totalFrequency l = totalFrequency l'.
Proof.
  unfold totalFrequency.
  induction 1 as [|x l l' _ IH|x y l|l l' l'' _ IH1 _ IH2]; simpl; lia.
Qed.

Lemma totalFrequency_clusters (cl : list (list string)) :
  totalFrequency (clusterInfoOf <$> cl) = length (concat cl).
Proof.
  induction cl as [|c cl IH]; [done|].
  rewrite fmap_cons. cbn [concat]. rewrite length_app, <- IH. done.
Qed.

(** The first entry of the sorted list is the earliest entry of the
    greatest frequency. *)
Lemma sortByFrequency_head l x rest :
  sortByFrequency l = x :: rest ->
  exists pre post,
    l = pre ++ x :: post /\
    Forall (fun y => frequency y < frequency x) pre /\
    Forall (fun y => frequency y <= frequency x) post.
Proof.
  revert x rest. induction l as [|y l IH]; intros x rest; [done|].
  cbn [sortByFrequency foldr]. fold (sortByFrequency l).
  destruct (sortByFrequency l) as [|x' rest'] eqn:Hs.
  - intros [= <- <-]. exists [], l. split; [done|]. split; [done|].
    pose proof (sortByFrequency_perm l) as Hp. rewrite Hs in Hp.
    apply Permutation_nil_l in Hp. by subst l.
  - destruct (IH x' rest' eq_refl) as (pre & post & -> & Hpre & Hpost).
    cbn [insertByFrequency].
    destruct (frequency y <? frequency x')%nat eqn:Hlt.
    + apply Nat.ltb_lt in Hlt. intros [= <- <-].
      exists (y :: pre), post. split; [done|]. split; [|done].
      by constructor.
    + apply Nat.ltb_ge in Hlt. intros [= <- <-].
      exists [], (pre ++ x' :: post). split; [done|]. split; [done|].
      apply Forall_app. split.
      * eapply Forall_impl; [exact Hpre|]. intros z Hz. simpl in Hz. lia.
      * constructor; [done|].
        eapply Forall_impl; [exact Hpost|]. intros z Hz. simpl in Hz. lia.
Qed.

Lemma clusterInfoOf_ok th cl responses :
  Clustered th cl -> concat cl ≡ₚ responses ->
  Forall (fun c => exists a, answer c = Some a /\ a ∈ responses /\
                             head (variants c) = Some a /\
                             frequency c = length (variants c) /\
                             1 <= frequency c)
         (clusterInfoOf <$> cl).
Proof.
  intros [Hne _ _] Hp. apply Forall_fmap. apply Forall_forall.
  intros c Hc. pose proof (proj1 (Forall_forall _ _) Hne c Hc) as Hc0.
  destruct c as [|a c]; [done|]. exists a. simpl.
  split; [done|]. split; [|split; [done|split; [done|lia]]].
  rewrite <- Hp. apply list_elem_of_In, in_concat.
  exists (a :: c). split; [by apply list_elem_of_In|by left].
Qed.

(** X21.  [aggregateResults] never throws; the frequencies of its
    clusters add up to [totalResponses], the number of responses; the
    clusters are in descending order of frequency;
    [numUniqueClusters] is their number, at most [totalResponses]; and
    the answer of a cluster is its first variant, one of the responses,
    its frequency the number of its variants, at least 1. *)
Theorem aggregateResults_counts th responses :
  exists ag,
    aggregateResults th responses = Some ag /\
    totalResponses ag = length responses /\
    totalFrequency (clusters ag) = totalResponses ag /\
    descending (clusters ag) /\
    numUniqueClusters ag = length (clusters ag) /\
    numUniqueClusters ag <= totalResponses ag /\
    Forall (fun c => exists a, answer c = Some a /\ a ∈ responses /\
                               head (variants c) = Some a /\
                               frequency c = length (variants c) /\
                               1 <= frequency c)
           (clusters ag).
Proof.
  destruct (clusters_partition_helper th responses) as (cl & H & C & P & L).
  unfold aggregateResults. rewrite H. eexists. split; [done|].
  cbn [clusters totalResponses numUniqueClusters].
  split; [done|]. split.
  { rewrite (totalFrequency_perm _ _ (sortByFrequency_perm _)).
    rewrite totalFrequency_clusters. by rewrite P. }
  split; [apply sortByFrequency_descending|]. split.
  { rewrite (Permutation_length (sortByFrequency_perm _)).
    by rewrite length_fmap. }
  split; [done|].
  rewrite (sortByFrequency_perm _). by eapply clusterInfoOf_ok.
Qed.

(** ** [selfConsistency] *)

Lemma generateResponsesLoop_spec oracle n i responses tokens :
  generateResponsesLoop oracle n i responses tokens
  = if forallb (fun j => isSample (oracle j)) (seq i n)
    then Some (responses ++ sampledTexts oracle i n,
               (tokens + sampledTokens oracle i n)%Z)
    else None.
Proof.
  revert i responses tokens.
  induction n as [|n IH]; intros i responses tokens.
  - simpl. by rewrite app_nil_r, Z.add_0_r.
  - cbn [generateResponsesLoop seq forallb].
    destruct (oracle i) as [text usage|] eqn:Ho; [|done].
    rewrite IH. cbn [isSample andb].
    destruct (forallb _ (seq (S i) n)); [|done].
    unfold sampledTexts, sampledTokens. cbn [seq fmap list_fmap foldr].
    rewrite Ho. cbn [textOf usageOf]. rewrite <- app_assoc. cbn [app].
    do 2 f_equal. lia.
Qed.

(** X22.  [selfConsistency] rejects exactly when one of its five calls of
    the oracle throws.  Otherwise it has counted the tokens of the five
    replies (0 for a reply without usage) and its final answer is the
    first member of a cluster of the five texts that no cluster exceeds
    in size and no earlier cluster equals; in particular it never
    reports that there is no consistent answer. *)
Theorem selfConsistency_answer (oracle : nat -> SampleReply) :
  match selfConsistency oracle with
  | None => exists i, i < 5 /\ oracle i = SampleFailure
  | Some (verdict, tokens) =>
      (forall i, i < 5 -> oracle i <> SampleFailure) /\
      tokens = sampledTokens oracle 0 5 /\
      exists a members pre post,
        verdict = FinalAnswer (Some a) /\
        clusterSimilarResponses 0.8 (sampledTexts oracle 0 5)
        = Some (pre ++ (a :: members) :: post) /\
        Forall (fun c => length c < length (a :: members)) pre /\
        Forall (fun c => length c <= length (a :: members)) post
  end.
Proof.
  unfold selfConsistency, generateResponses.
  rewrite generateResponsesLoop_spec.
  destruct (forallb _ (seq 0 5)) eqn:Hall.
  - cbn [mbind option_bind fst snd app].
    destruct (clusters_partition_helper 0.8 (sampledTexts oracle 0 5))
      as (raw & Hraw & C & P & L).
    unfold aggregateResults. rewrite Hraw.
    cbn [fmap option_fmap option_map mbind option_bind clusters].
    split.
    { intros i Hi Hf.
      assert (isSample (oracle i) = true) as H
        by (apply (proj1 (forallb_forall _ _) Hall i); apply in_seq; lia).
      by rewrite Hf in H. }
    split; [lia|].
    destruct (sortByFrequency (clusterInfoOf <$> raw)) as [|x rest] eqn:Hs.
    { pose proof (sortByFrequency_perm (clusterInfoOf <$> raw)) as Hp.
      rewrite Hs in Hp. apply Permutation_nil_l in Hp. symmetry in Hp.
      apply fmap_nil_inv in Hp. subst raw. simpl in P.
      apply Permutation_nil_l in P. discriminate P. }
    destruct (sortByFrequency_head _ _ _ Hs) as (pre & post & Heq & Hpre & Hpost).
    apply fmap_app_inv in Heq as (pre' & tl & -> & Htl & ->).
    symmetry in Htl. apply fmap_cons_inv in Htl as (c & post' & -> & -> & ->).
    destruct C as [Hne _ _].
    apply Forall_app in Hne as [_ Hne]. apply Forall_cons in Hne as [Hc _].
    destruct c as [|a members]; [done|].
    exists a, members, pre', post'. split; [done|]. split; [done|].
    apply Forall_fmap in Hpre, Hpost. done.
  - cbn [mbind option_bind].
    assert (~ forall j, j < 5 -> isSample (oracle j) = true) as Hn.
    { intros H. apply not_true_iff_false in Hall. apply Hall.
      apply forallb_forall. intros j Hj%in_seq. apply H. lia. }
    destruct (oracle 0) eqn:H0; [|by exists 0; split; [lia|]].
    destruct (oracle 1) eqn:H1; [|by exists 1; split; [lia|]].
    destruct (oracle 2) eqn:H2; [|by exists 2; split; [lia|]].
    destruct (oracle 3) eqn:H3; [|by exists 3; split; [lia|]].
    destruct (oracle 4) eqn:H4; [|by exists 4; split; [lia|]].
    exfalso. apply Hn. intros [|[|[|[|[|j]]]]] Hj; try lia;
      by rewrite ?H0, ?H1, ?H2, ?H3, ?H4.
Qed.

(** ** [extractSection] *)

Lemma asciiLowerCase_length (s : string) :
  String.length (asciiLowerCase s) = String.length s.
Proof. induction s as [|c s IH]; simpl; [done|]. by rewrite IH. Qed.

Lemma skip_app (a b : string) : skip (String.length a) (a +:+ b) = b.
Proof. induction a as [|c a IH]; simpl; [by destruct b|done]. Qed.

Lemma startsWith_app_l (a b : string) : startsWith (a +:+ b) a = true.
Proof. apply startsWith_spec. by exists b. Qed.

(** A prefix of [a +:+ b] is a prefix of [a], or [a] followed by a
    non-empty prefix of [b]. *)
Lemma startsWith_app_inv (a b pattern : string) :
  startsWith (a +:+ b) pattern = true ->
  startsWith a pattern = true \/
  exists p, p <> EmptyString /\ pattern = (a +:+ p)%string /\
            startsWith b p = true.
Proof.
  revert a. induction pattern as [|x pattern IH]; intros a; [by left|].
  destruct a as [|y a].
  - intros H. right. exists (String x pattern). by repeat split.
  - simpl. destruct (decide (x = y)) as [-> | Hne]; [|done].
    intros [H | (p & Hp & -> & Hb)]%IH; [by left|].
    right. exists p. by repeat split.
Qed.

Lemma without_app (c : ascii) (a b : string) :
  without c (a +:+ b) <-> without c a /\ without c b.
Proof. induction a as [|d a IH]; simpl; [tauto|]. rewrite IH. tauto. Qed.

Lemma includes_cons (c : ascii) (s pattern : string) :
  includes (String c s) pattern = false ->
  startsWith (String c s) pattern = false /\ includes s pattern = false.
Proof. simpl. by intros [? ?]%orb_false_elim. Qed.

Lemma beforeFirst_unfold (pattern text : string) :
  beforeFirst pattern text
  = if startsWith (asciiLowerCase text) pattern then Some EmptyString
    else match text with
         | EmptyString => None
         | String c text' => String c <$> beforeFirst pattern text'
         end.
Proof. by destruct text. Qed.

Lemma afterFirst_unfold (pattern text : string) :
  afterFirst pattern text
  = if startsWith (asciiLowerCase text) pattern
    then Some (skip (String.length pattern) text)
    else match text with
         | EmptyString => None
         | String _ text' => afterFirst pattern text'
         end.
Proof. by destruct text. Qed.

Lemma match_here (pattern o rest : string) :
  asciiLowerCase o = pattern ->
  beforeFirst pattern (o +:+ rest) = Some EmptyString /\
  afterFirst pattern (o +:+ rest) = Some rest.
Proof.
  intros Ho. rewrite beforeFirst_unfold, afterFirst_unfold.
  rewrite asciiLowerCase_app, Ho, startsWith_app_l. split; [done|].
  f_equal. rewrite <- Ho, asciiLowerCase_length. apply skip_app.
Qed.

(** The first match of a pattern that begins with a character it does
    not repeat, behind a text that does not hold the pattern. *)
Lemma first_match (c : ascii) (pattern pre o rest : string) :
  without c pattern ->
  asciiLowerCase o = String c pattern ->
  includes (asciiLowerCase pre) (String c pattern) = false ->
  beforeFirst (String c pattern) (pre +:+ o +:+ rest) = Some pre /\
  afterFirst (String c pattern) (pre +:+ o +:+ rest) = Some rest.
Proof.
  intros Hc Ho. induction pre as [|d pre IH]; intros Hpre.
  - exact (match_here _ o rest Ho).
  - cbn [asciiLowerCase] in Hpre. apply includes_cons in Hpre as [Hs Hpre].
    specialize (IH Hpre) as [IH1 IH2].
    assert (startsWith (asciiLowerCase (String d pre +:+ o +:+ rest))
              (String c pattern) = false) as Hno.
    { apply not_true_is_false. rewrite asciiLowerCase_app.
      intros [H | (p & Hp & Heq & Hb)]%startsWith_app_inv.
      - cbn [asciiLowerCase] in H. congruence.
      - cbn [asciiLowerCase String.app] in Heq. injection Heq as _ Heq.
        rewrite asciiLowerCase_app, Ho in Hb.
        destruct p as [|p0 p]; [done|]. simpl in Hb.
        destruct (decide (p0 = c)) as [-> | ?]; [|done].
        rewrite Heq in Hc. apply without_app in Hc as [_ [Hc _]]. done. }
    rewrite beforeFirst_unfold, afterFirst_unfold, Hno.
    change (String d pre +:+ o +:+ rest)%string
      with (String d (pre +:+ o +:+ rest)).
    cbn beta iota. rewrite IH1, IH2. done.
Qed.

Lemma afterFirst_none (pattern text : string) :
  includes (asciiLowerCase text) pattern = false ->
  afterFirst pattern text = None.
Proof.
  induction text as [|c text IH]; simpl.
  - intros H. apply orb_false_elim in H as [-> _]. done.
  - intros [-> H]%orb_false_elim. by apply IH.
Qed.

Lemma beforeFirst_none (pattern text : string) :
  includes (asciiLowerCase text) pattern = false ->
  beforeFirst pattern text = None.
Proof.
  induction text as [|c text IH]; simpl.
  - intros H. apply orb_false_elim in H as [-> _]. done.
  - intros [-> H]%orb_false_elim. by rewrite IH.
Qed.

Lemma afterFirst_suffix (pattern text rest : string) :
  afterFirst pattern text = Some rest ->
  exists pre, text = (pre +:+ rest)%string.
Proof.
  induction text as [|c text IH]; simpl.
  - destruct (startsWith _ _); [|done]. intros [= <-].
    exists EmptyString. by destruct pattern.
  - destruct (startsWith _ _).
    + intros [= <-]. clear.
      assert (forall n s, exists pre, s = (pre +:+ skip n s)%string) as H.
      { intros n. induction n as [|n IHn]; intros s.
        - exists EmptyString. by destruct s.
        - destruct s as [|d s]; [by exists EmptyString|].
          destruct (IHn s) as [pre Hpre]. exists (String d pre).
          cbn [skip].
          change (String d pre +:+ skip n s)%string
            with (String d (pre +:+ skip n s)).
          by rewrite <- Hpre. }
      apply H.
    + intros [pre ->]%IH. by exists (String c pre).
Qed.

Lemma append_assoc (a b c : string) :
  ((a +:+ b) +:+ c = a +:+ b +:+ c)%string.
Proof.
  induction a as [|x a IH]; [done|].
  change (String x ((a +:+ b) +:+ c) = String x (a +:+ b +:+ c))%string.
  by rewrite IH.
Qed.

Lemma includes_suffix (pre rest pattern : string) :
  includes (asciiLowerCase (pre +:+ rest)) pattern = false ->
  includes (asciiLowerCase rest) pattern = false.
Proof.
  intros H. apply not_true_is_false. intros (a & b & Hab)%includes_spec.
  apply not_true_iff_false in H. apply H. apply includes_spec.
  exists (asciiLowerCase pre +:+ a)%string, b.
  rewrite asciiLowerCase_app, Hab. symmetry. apply append_assoc.
Qed.

Lemma isWordChar_lower (c : ascii) :
  isWordChar c = true -> lowerChar c <> "<"%char.
Proof. destruct c as [[] [] [] [] [] [] [] []]; simpl; done. Qed.

Lemma plainTag_without (tag : string) :
  plainTag tag = true -> without "<" (asciiLowerCase tag).
Proof.
  induction tag as [|c tag IH]; [done|]. cbn [plainTag asciiLowerCase without].
  intros [Hc Ht]%andb_prop. split; [by apply isWordChar_lower|by apply IH].
Qed.

(** X23.  [extractSection] on a text that holds the section, for a tag of
    letters and digits (as the four tags of [send]) and a body of characters
    below U+0080: when the text before the opening tag does not hold that
    tag and the body does not hold the closing tag (the case of the letters
    A-Z ignored throughout, in the tags of the text too), the result is the
    body, trimmed; unless the body is empty, for which the result is the
    message that no section was provided.  A body of white space only gives
    the empty string, not the message. *)
Theorem extractSection_of_section (tag pre o body c post : string) :
  plainTag tag = true ->
  isAscii body = true ->
  asciiLowerCase o = openingTag tag ->
  asciiLowerCase c = closingTag tag ->
  includes (asciiLowerCase pre) (openingTag tag) = false ->
  includes (asciiLowerCase body) (closingTag tag) = false ->
  extractSection (pre +:+ o +:+ body +:+ c +:+ post) tag
  = match body with
    | EmptyString => noSection tag
    | _ => trim body
    end.
Proof.
  intros Htag%plainTag_without _ Ho Hc Hpre Hbody.
  unfold extractSection, matchSection.
  assert (without "<" (asciiLowerCase tag +:+ ">")) as H1.
  { apply without_app. split; [done|]. by split. }
  assert (without "<" ("/" +:+ asciiLowerCase tag +:+ ">")) as H2.
  { split; [done|exact H1]. }
  destruct (first_match "<" _ pre o (body +:+ c +:+ post) H1 Ho Hpre)
    as [_ Hafter].
  destruct (first_match "<" _ body c post H2 Hc Hbody) as [Hbefore _].
  change (String "<" (asciiLowerCase tag +:+ ">")) with (openingTag tag)
    in Hafter.
  change (String "<" ("/" +:+ asciiLowerCase tag +:+ ">")) with (closingTag tag)
    in Hbefore.
  rewrite Hafter. cbn [mbind option_bind]. rewrite Hbefore.
  by destruct body.
Qed.

Lemma extractSection_of_section_witness :
  extractSection
    ("<thinking>x</thinking>" +:+ "<OUTPUT>" +:+ " 42 " +:+ "</Output>"
     +:+ "!") "output"
  = trim " 42 ".
Proof.
  apply (extractSection_of_section "output" "<thinking>x</thinking>"
           "<OUTPUT>" " 42 " "</Output>" "!"); reflexivity.
Defined.

(** X24.  For a tag of letters and digits (as the four tags of [send]),
    [extractSection] returns the message that no section was provided when
    the text holds no opening tag, and when it holds no closing tag (the
    case of the letters A-Z ignored). *)
Theorem extractSection_without_section (text tag : string) :
  plainTag tag = true ->
  includes (asciiLowerCase text) (openingTag tag) = false \/
  includes (asciiLowerCase text) (closingTag tag) = false ->
  extractSection text tag = noSection tag.
Proof.
  intros _ [H | H]; unfold extractSection, matchSection.
  - by rewrite (afterFirst_none _ _ H).
  - destruct (afterFirst (openingTag tag) text) as [rest|] eqn:Ha; [|done].
    apply afterFirst_suffix in Ha as [pre ->].
    cbn [mbind option_bind].
    by rewrite (beforeFirst_none _ _ (includes_suffix _ _ _ H)).
Qed.

Lemma extractSection_without_section_witness :
  extractSection "<output>never closed" "output" = noSection "output".
Proof.
  apply extractSection_without_section; [reflexivity|]. right. reflexivity.
Defined.

(** ** [shuffleArray] and [zip] *)

Lemma insert_perm {A : Type} (l : list A) (j : nat) (x y : A) :
  l !! j = Some y -> y :: <[j := x]> l ≡ₚ x :: l.
Proof.
  revert j. induction l as [|z l IH]; intros [|j] H; simpl in *; try done.
  - injection H as ->. apply Permutation_swap.
  - rewrite (Permutation_swap z y), (IH j H). apply Permutation_swap.
Qed.

Lemma swap_perm {A : Type} (l : list A) (i j : nat) (x y : A) :
  l !! i = Some x -> l !! j = Some y ->
  <[j := x]> (<[i := y]> l) ≡ₚ l.
Proof.
  revert i j. induction l as [|z l IH]; intros [|i] [|j] Hi Hj;
    simpl in *; try done.
  - injection Hi as ->. injection Hj as ->. done.
  - injection Hi as ->. by apply insert_perm.
  - injection Hj as ->. by apply insert_perm.
  - apply Permutation_skip. by apply IH.
Qed.

Lemma swapDefined_perm {A : Type} (i j : nat) (l : list (option A)) :
  swapDefined i j l ≡ₚ l.
Proof.
  unfold swapDefined.
  destruct (l !! i) as [[x|]|] eqn:Hi; simpl; try done.
  destruct (l !! j) as [[y|]|] eqn:Hj; simpl; try done.
  by apply swap_perm.
Qed.

Lemma shuffleLoop_perm {A : Type} (draw : nat -> nat) (i : nat)
    (l : list (option A)) :
  shuffleLoop draw i l ≡ₚ l.
Proof.
  revert l. induction i as [|i IH]; intros l; [done|].
  cbn [shuffleLoop]. rewrite IH. apply swapDefined_perm.
Qed.

(** X25.  [shuffleArray] returns a permutation of the array it is given,
    of the same length, whatever [Math.random] draws; with an array of at
    most one element nothing is drawn and the result is the array. *)
Theorem shuffleArray_permutes {A : Type} (draw : nat -> nat)
    (array : list (option A)) :
  shuffleArray draw array ≡ₚ array /\
  length (shuffleArray draw array) = length array /\
  (length array <= 1 -> shuffleArray draw array = array).
Proof.
  split; [apply shuffleLoop_perm|]. split.
  - apply Permutation_length, shuffleLoop_perm.
  - intros H. unfold shuffleArray.
    by replace (length array - 1) with 0 by lia.
Qed.

Lemma zipLoop_spec {T U : Type} (arr1 : list T) (arr2 : list U)
    (remaining i : nat) (result : list (option T * option U)) :
  zipLoop arr1 arr2 remaining i result
  = result ++ ((fun k => (arr1 !! k, arr2 !! k)) <$> seq i remaining).
Proof.
  revert i result. induction remaining as [|n IH]; intros i result.
  - by rewrite app_nil_r.
  - cbn [zipLoop seq fmap list_fmap]. rewrite IH, <- app_assoc. done.
Qed.

(** X26.  [zip] pairs the elements of the two arrays index by index up to
    the length of the shorter one: the result has that length, no
    component of a pair is [undefined], and the components are, in order,
    the first elements of the two arrays. *)
Theorem zip_pairs_prefixes {T U : Type} (arr1 : list T) (arr2 : list U) :
  length (zip arr1 arr2) = Nat.min (length arr1) (length arr2) /\
  fst <$> zip arr1 arr2
  = Some <$> take (Nat.min (length arr1) (length arr2)) arr1 /\
  snd <$> zip arr1 arr2
  = Some <$> take (Nat.min (length arr1) (length arr2)) arr2.
Proof.
  unfold zip. rewrite zipLoop_spec. cbn [app].
  set (n := Nat.min (length arr1) (length arr2)).
  split; [by rewrite length_fmap, length_seq|].
  rewrite <- !list_fmap_compose.
  split; apply list_eq; intros k; rewrite !list_lookup_fmap;
    destruct (decide (k < n)) as [Hk|Hk].
  - rewrite lookup_seq_lt by done. rewrite lookup_take_lt by done. simpl.
    destruct (lookup_lt_is_Some_2 arr1 k) as [x ->]; [lia|done].
  - rewrite lookup_seq_ge by lia. rewrite lookup_take_ge by lia. done.
  - rewrite lookup_seq_lt by done. rewrite lookup_take_lt by done. simpl.
    destruct (lookup_lt_is_Some_2 arr2 k) as [x ->]; [lia|done].
  - rewrite lookup_seq_ge by lia. rewrite lookup_take_ge by lia. done.
Qed.

(** ** Sampling and unifying demonstrations *)

Lemma generate_spec oracle prompt st reply st' :
  generate oracle prompt st = Some (reply, st') ->
  exists used,
    oracle (calls st) prompt = Generated reply used /\
    st' = {| tokens := (tokens st + used)%Z; calls := S (calls st) |}.
Proof.
  unfold generate. destruct (oracle (calls st) prompt) as [r u|]; [|done].
  intros [= <- <-]. by exists u.
Qed.

Lemma insertByDistance_perm Math_pow Math_sqrt c x l :
  insertByDistance Math_pow Math_sqrt c x l ≡ₚ x :: l.
Proof.
  induction l as [|y l IH]; [done|]. cbn [insertByDistance].
  destruct (_ <? _)%float; [|done]. rewrite IH. apply Permutation_swap.
Qed.

Lemma sortClusterPoints_perm Math_pow Math_sqrt cluster :
  sortClusterPoints Math_pow Math_sqrt cluster ≡ₚ points cluster.
Proof.
  unfold sortClusterPoints. induction (points cluster) as [|x l IH]; [done|].
  cbn [foldr]. rewrite insertByDistance_perm. by apply Permutation_skip.
Qed.

Lemma sampleCluster_spec oracle qs st r st' :
  sampleCluster oracle qs st = Some (r, st') ->
  exists m,
    calls st' = calls st + 2 * m /\ m <= length qs /\
    match r with
    | Some d => question d ∈ qs /\ accepted oracle d
    | None => m = length qs
    end.
Proof.
  revert st r st'. induction qs as [|q qs IH]; intros st r st'.
  - intros [= <- <-]. exists 0. split; [simpl; lia|]. done.
  - cbn [sampleCluster]. unfold generateZeroShotCoT, satisfiesSelectionCriteria.
    destruct (generate oracle _ st) as [[r1 st1]|] eqn:H1; [|done].
    cbn [mbind option_bind fst snd].
    destruct (generate oracle _ st1) as [[r2 st2]|] eqn:H2; [|done].
    cbn [fmap option_fmap option_map mbind option_bind fst snd].
    apply generate_spec in H1 as (u1 & O1 & ->).
    apply generate_spec in H2 as (u2 & O2 & ->). cbn [calls] in O2.
    destruct (bool_decide (r2 = "yes"%string)) eqn:Hyes.
    + intros [= <- <-]. apply bool_decide_eq_true in Hyes as ->.
      exists 1. cbn [calls length]. split; [lia|]. split; [lia|].
      split; [left|]. unfold accepted. cbn [rationale].
      eexists (calls st), _, _, u1, u2. split; [exact O1|exact O2].
    + intros (m & Hc & Hm & Hr)%IH. cbn [calls] in Hc.
      exists (S m). cbn [length]. split; [lia|]. split; [lia|].
      destruct r as [d|]; [|lia]. destruct Hr as [Hin Hacc].
      split; [by right|done].
Qed.

Lemma sampleDemonstrations_spec Math_pow Math_sqrt oracle clusters demos0 st
    demos st' :
  sampleDemonstrations Math_pow Math_sqrt oracle clusters demos0 st
  = Some (demos, st') ->
  exists picks m,
    Forall2 (pickedFrom oracle) clusters picks /\
    demos = demos0 ++ omap id picks /\
    calls st' = calls st + 2 * m /\
    m <= sum_list_with (fun c => length (points c)) clusters.
Proof.
  revert demos0 st. induction clusters as [|c clusters IH]; intros demos0 st.
  - intros [= <- <-]. exists [], 0. split; [constructor|].
    rewrite app_nil_r. split; [done|]. simpl. lia.
  - cbn [sampleDemonstrations].
    destruct (sampleCluster oracle _ st) as [[r st1]|] eqn:H1; [|done].
    cbn [mbind option_bind fst snd].
    apply sampleCluster_spec in H1 as (m1 & Hc1 & Hm1 & Hr).
    rewrite (Permutation_length (sortClusterPoints_perm _ _ c)) in Hm1.
    intros (picks & m & F & -> & Hc & Hm)%IH.
    exists (r :: picks), (m1 + m). split; [|split; [|split]].
    + constructor; [|done]. destruct r as [d|]; [|done].
      destruct Hr as [Hin Hacc]. split; [|done].
      by rewrite <- (sortClusterPoints_perm Math_pow Math_sqrt c).
    + destruct r as [d|]; simpl; [by rewrite <- app_assoc|done].
    + lia.
    + cbn [sum_list_with]. lia.
Qed.

(** X27.  [sampleDemonstrations] takes at most one demonstration from
    each cluster, in the order of the clusters: a question of the cluster
    with a rationale the model produced and then accepted with a reply
    that is exactly "yes".  It calls the model twice for every question it
    tries, so an even number of times, at most twice the number of
    points. *)
Theorem sampleDemonstrations_picks Math_pow Math_sqrt oracle clusters st
    demos st' :
  sampleDemonstrations Math_pow Math_sqrt oracle clusters [] st
  = Some (demos, st') ->
  exists picks m,
    Forall2 (pickedFrom oracle) clusters picks /\
    demos = omap id picks /\
    length demos <= length clusters /\
    calls st' = calls st + 2 * m /\
    m <= sum_list_with (fun c => length (points c)) clusters.
Proof.
  intros (picks & m & F & -> & Hc & Hm)%sampleDemonstrations_spec.
  exists picks, m. split; [done|]. split; [done|]. split; [|done].
  cbn [app]. rewrite (Forall2_length _ _ _ F). clear.
  induction picks as [|[d|] picks IH]; [done| |];
    cbn [omap list_omap id length] in *; lia.
Qed.

Lemma sampleDemonstrations_picks_witness :
  exists picks m,
    Forall2 (pickedFrom yesOracle)
            [{| centroid := [1%float]; points := [sampleQuestion] |}] picks /\
    [{| question := sampleQuestion; rationale := "yes" |}] = omap id picks /\
    length [{| question := sampleQuestion; rationale := "yes" |}]
    <= length [{| centroid := [1%float]; points := [sampleQuestion] |}] /\
    calls {| tokens := 2; calls := 2 |}
    = calls {| tokens := 0; calls := 0 |} + 2 * m /\
    m <= sum_list_with (fun c => length (points c))
           [{| centroid := [1%float]; points := [sampleQuestion] |}].
Proof.
  apply (sampleDemonstrations_picks noPow (fun x => x) yesOracle
           [{| centroid := [1%float]; points := [sampleQuestion] |}]
           {| tokens := 0; calls := 0 |}).
  reflexivity.
Defined.

Lemma alter_rationale_question (r : string) (j : nat)
    (l : list Demonstration) :
  question <$> alter (fun d => {| question := question d; rationale := r |})
                     j l
  = question <$> l.
Proof.
  apply list_eq. intros k. rewrite !list_lookup_fmap.
  destruct (decide (j = k)) as [-> | Hne].
  - rewrite list_lookup_alter_eq. by destruct (l !! k).
  - by rewrite list_lookup_alter_ne.
Qed.

Lemma unifyInner_spec oracle draw remaining j cur st cur' st' :
  unifyInner oracle draw remaining j cur st = Some (cur', st') ->
  question <$> cur' = question <$> cur /\
  calls st' = calls st + remaining /\
  forall k d, cur' !! k = Some d ->
    (k < j \/ j + remaining <= k -> cur !! k = Some d) /\
    (j <= k < j + remaining ->
     exists prompt used,
       oracle (calls st + (k - j)) prompt = Generated (rationale d) used).
Proof.
  revert j cur st. induction remaining as [|n IH]; intros j cur st.
  - intros [= <- <-]. split; [done|]. split; [lia|].
    intros k d Hk. split; [done|lia].
  - cbn [unifyInner]. unfold generateWithContext.
    destruct (generate oracle _ st) as [[r st1]|] eqn:H1; [|done].
    cbn [mbind option_bind fst snd].
    apply generate_spec in H1 as (u & O1 & ->).
    intros (Hq & Hc & Hk)%IH. cbn [calls] in Hc, Hk.
    rewrite alter_rationale_question in Hq.
    split; [done|]. split; [lia|].
    intros k d Hd. destruct (Hk k d Hd) as [Hout Hin]. split.
    + intros Hrange. rewrite <- (list_lookup_alter_ne
        (fun d => {| question := question d; rationale := r |}) cur j k)
        by lia. apply Hout. lia.
    + intros Hrange. destruct (decide (k = j)) as [-> | Hne].
      * assert (alter (fun d => {| question := question d; rationale := r |})
                      j cur !! j = Some d) as Hj by (apply Hout; lia).
        rewrite list_lookup_alter_eq in Hj.
        destruct (cur !! j) as [d0|]; [|done]. injection Hj as <-.
        rewrite Nat.sub_diag, Nat.add_0_r. by eexists _, _.
      * destruct Hin as (prompt & used & Ho); [lia|].
        exists prompt, used.
        by replace (calls st + (k - j)) with (S (calls st) + (k - S j)) by lia.
Qed.

Lemma unifyOuter_spec oracle draw numIterations cur st cur' st' :
  unifyOuter oracle draw numIterations cur st = Some (cur', st') ->
  question <$> cur' = question <$> cur /\
  calls st' = calls st + numIterations * length cur /\
  (0 < numIterations ->
   forall k d, cur' !! k = Some d ->
     exists prompt used,
       oracle (calls st + (numIterations - 1) * length cur + k) prompt
       = Generated (rationale d) used).
Proof.
  revert cur st. induction numIterations as [|n IH]; intros cur st.
  - intros [= <- <-]. split; [done|]. split; [lia|]. lia.
  - cbn [unifyOuter].
    destruct (unifyInner oracle draw _ 0 cur st) as [[cur1 st1]|] eqn:H1;
      [|done].
    cbn [mbind option_bind fst snd].
    apply unifyInner_spec in H1 as (Hq1 & Hc1 & Hk1).
    assert (length cur1 = length cur) as Hlen.
    { by rewrite <- (length_fmap question cur1), Hq1, length_fmap. }
    intros H. destruct (IH _ _ H) as (Hq & Hc & Hk). rewrite Hlen in Hc, Hk.
    split; [congruence|]. split; [lia|]. intros _ k d Hd.
    replace (S n - 1) with n by lia.
    destruct n as [|n].
    + injection H as <- <-.
      destruct (Hk1 k d Hd) as [_ Hin].
      apply lookup_lt_Some in Hd. rewrite Hlen in Hd.
      destruct Hin as (prompt & used & Ho); [lia|].
      exists prompt, used.
      by replace (calls st + 0 * length cur + k) with (calls st + (k - 0))
        by lia.
    + destruct (Hk ltac:(lia) k d Hd) as (prompt & used & Ho).
      exists prompt, used.
      replace (S n - 1) with n in Ho by lia.
      by replace (calls st + S n * length cur + k)
        with (calls st1 + n * length cur + k) by lia.
Qed.

(** X28.  [unifyDemonstrations] keeps the questions and replaces only the
    rationales: it returns the first [finalCount] demonstrations, with
    their questions as given; it calls the model [numIterations] times for
    every demonstration, also for those beyond [finalCount]; and when
    [numIterations] is positive the rationale of the demonstration at
    index [k] is the reply to its call in the last iteration. *)
Theorem unifyDemonstrations_keeps_questions oracle draw demonstrations
    numIterations finalCount st result st' :
  unifyDemonstrations oracle draw demonstrations numIterations finalCount st
  = Some (result, st') ->
  question <$> result = question <$> take finalCount demonstrations /\
  length result = Nat.min finalCount (length demonstrations) /\
  calls st' = calls st + numIterations * length demonstrations /\
  (0 < numIterations ->
   forall k d, result !! k = Some d ->
     exists prompt used,
       oracle (calls st + (numIterations - 1) * length demonstrations + k)
         prompt = Generated (rationale d) used).
Proof.
  unfold unifyDemonstrations.
  destruct (unifyOuter oracle draw numIterations demonstrations st)
    as [[cur st1]|] eqn:H; [|done].
  cbn [fmap option_fmap option_map fst snd]. intros [= <- <-].
  apply unifyOuter_spec in H as (Hq & Hc & Hk).
  assert (length cur = length demonstrations) as Hlen.
  { by rewrite <- (length_fmap question cur), Hq, length_fmap. }
  split; [by rewrite !fmap_take, Hq|]. split; [rewrite length_take; lia|].
  split; [done|]. intros Hpos k d Hd.
  apply lookup_take_Some in Hd as [Hd _]. by apply Hk.
Qed.

Lemma unifyDemonstrations_keeps_questions_witness :
  let demonstrations := [{| question := sampleQuestion; rationale := "4" |}] in
  let result := [{| question := sampleQuestion; rationale := "yes" |}] in
  question <$> result = question <$> take 2 demonstrations /\
  length result = Nat.min 2 (length demonstrations) /\
  calls {| tokens := 5; calls := 5 |}
  = calls {| tokens := 0; calls := 0 |} + 5 * length demonstrations /\
  (0 < 5 ->
   forall k d, result !! k = Some d ->
     exists prompt used,
       yesOracle (calls {| tokens := 0; calls := 0 |}
                  + (5 - 1) * length demonstrations + k) prompt
       = Generated (rationale d) used).
Proof.
  intros demonstrations result.
  apply (unifyDemonstrations_keeps_questions yesOracle (fun _ _ => 0)
           demonstrations 5 2 {| tokens := 0; calls := 0 |}).
  reflexivity.
Defined.

(** ** The child [findBestResponse] returns *)

Lemma mostVisited_spec (st : Store) (best : nat) (rest : list nat) :
  Forall (fun c => is_Some (heap st !! c)) (best :: rest) ->
  exists w,
    mostVisited st best rest = Some w /\
    is_Some (heap st !! w) /\
    visitsOf st best <= visitsOf st w /\
    Forall (fun c => visitsOf st c <= visitsOf st w) rest /\
    ((w = best /\ Forall (fun c => visitsOf st c <= visitsOf st best) rest) \/
     exists pre post,
       rest = pre ++ w :: post /\
       Forall (fun c => visitsOf st c < visitsOf st w) (best :: pre)).
Proof.
  revert best. induction rest as [|c rest IH]; intros best H.
  - apply Forall_cons in H as [Hb _]. exists best. simpl.
    split; [done|]. split; [done|]. split; [done|]. split; [done|]. by left.
  - apply Forall_cons in H as [Hb H]. pose proof H as [Hc H']%Forall_cons.
    destruct Hb as [nb Hnb]. destruct Hc as [nc Hnc].
    cbn [mostVisited]. rewrite Hnb, Hnc. unfold getVisits.
    assert (visitsOf st best = visits nb) as Vb by (unfold visitsOf; by rewrite Hnb).
    assert (visitsOf st c = visits nc) as Vc by (unfold visitsOf; by rewrite Hnc).
    destruct (visits nb <? visits nc)%nat eqn:Hlt.
    + apply Nat.ltb_lt in Hlt.
      destruct (IH c H) as (w & Hw & Hsome & Hle & Hall & Hpos).
      exists w. split; [done|]. split; [done|]. split; [lia|].
      split; [by constructor|]. right.
      destruct Hpos as [[-> _] | (pre & post & -> & Hpre)].
      * exists [], rest. split; [done|]. constructor; [lia|done].
      * exists (c :: pre), post. split; [done|].
        apply Forall_cons in Hpre as [Hcw Hpre].
        constructor; [lia|]. by constructor.
    + apply Nat.ltb_ge in Hlt.
      assert (Forall (fun c => is_Some (heap st !! c)) (best :: rest)) as Hbr
        by (constructor; [by exists nb|done]).
      destruct (IH best Hbr) as (w & Hw & Hsome & Hle & Hall & Hpos).
      exists w. split; [done|]. split; [done|]. split; [done|].
      split; [constructor; [lia|done]|].
      destruct Hpos as [[-> Hrest] | (pre & post & -> & Hpre)].
      * left. split; [done|]. constructor; [lia|done].
      * right. exists (c :: pre), post. split; [done|].
        apply Forall_cons in Hpre as [Hbw Hpre].
        constructor; [done|]. constructor; [lia|done].
Qed.

(** X29.  The response of [findBestResponse] on any tree whose root has
    children: it is the action (the empty string for none) of a child of
    the root that no child exceeds in visits, and of the earliest such
    child: every child before it in the list has strictly fewer visits.
    With no child the response is the empty string. *)
Theorem bestAction_most_visited (st : Store) (r : MCTSNode) :
  heap st !! 0 = Some r ->
  Forall (fun c => is_Some (heap st !! c)) (children r) ->
  match children r with
  | [] => bestAction st = Some EmptyString
  | _ :: _ =>
      exists pre w post nw,
        children r = pre ++ w :: post /\
        heap st !! w = Some nw /\
        bestAction st = Some (default EmptyString (action nw)) /\
        Forall (fun c => visitsOf st c < visits nw) pre /\
        Forall (fun c => visitsOf st c <= visits nw) post
  end.
Proof.
  intros Hr Hch. unfold bestAction. rewrite Hr.
  destruct (children r) as [|first rest]; [done|].
  destruct (mostVisited_spec st first rest Hch)
    as (w & Hw & [nw Hnw] & Hle & Hall & Hpos).
  rewrite Hw, Hnw.
  assert (visitsOf st w = visits nw) as Vw by (unfold visitsOf; by rewrite Hnw).
  rewrite Vw in *.
  destruct Hpos as [[-> Hrest] | (pre & post & -> & Hpre)].
  - exists [], first, rest, nw. split; [done|]. split; [done|].
    split; [done|]. split; [done|]. by rewrite Vw in Hrest.
  - exists (first :: pre), w, post, nw. split; [done|]. split; [done|].
    split; [done|]. split; [done|].
    apply Forall_app in Hall as [_ Hall]. by apply Forall_cons in Hall as [_ ?].
Qed.

Lemma bestAction_most_visited_witness :
  exists pre w post nw,
    [1] = pre ++ w :: post /\
    heap expandedStore !! w = Some nw /\
    bestAction expandedStore = Some (default EmptyString (action nw)) /\
    Forall (fun c => visitsOf expandedStore c < visits nw) pre /\
    Forall (fun c => visitsOf expandedStore c <= visits nw) post.
Proof.
  apply (bestAction_most_visited expandedStore
           (markFullyExpanded
              (pushChild 1 (newMCTSNode scenarioState None None)))).
  - reflexivity.
  - repeat constructor. by eexists.
Defined.

(** ** Terminal states *)

Lemma extend_fields (s : DialogueState) (msgs : list (Role * string)) :
  depth (extend s msgs) = (depth s + Z.of_nat (length msgs))%Z /\
  currentQuery (extend s msgs) = currentQuery s /\
  systemPrompt (extend s msgs) = systemPrompt s /\
  conversationHistory (extend s msgs)
  = conversationHistory s
    ++ ((fun m => {| role := m.1; content := m.2 |}) <$> msgs).
Proof.
  revert s. induction msgs as [|m msgs IH]; intros s.
  - simpl. rewrite app_nil_r. split; [lia|done].
  - cbn [extend foldl]. fold (extend (withNewMessage s m.1 m.2) msgs).
    destruct (IH (withNewMessage s m.1 m.2)) as (H1 & H2 & H3 & H4).
    rewrite H1, H2, H3, H4. cbn [length fmap list_fmap].
    unfold withNewMessage, DialogueState_create. cbn.
    split; [lia|]. split; [done|]. split; [done|].
    by rewrite <- app_assoc.
Qed.

(** X30.  A terminal state stays terminal whatever messages are added to
    it, and every state is terminal once [maxDepth - depth] messages have
    been added: [withNewMessage] keeps the query and adds 1 to the depth.
    So no path of the tree and no rollout leaves a terminal state, and a
    path from a state at depth [d] holds at most [maxDepth - d]
    non-terminal states. *)
Theorem terminal_is_absorbing (cfg : Config) (s : DialogueState)
    (msgs : list (Role * string)) :
  (isTerminal cfg s = true -> isTerminal cfg (extend s msgs) = true) /\
  ((maxDepth (options cfg) - depth s <= Z.of_nat (length msgs))%Z ->
   isTerminal cfg (extend s msgs) = true).
Proof.
  destruct (extend_fields s msgs) as (Hd & Hq & _).
  unfold isTerminal. rewrite Hd, Hq. split.
  - intros [[H | H]%orb_prop | H]%orb_prop.
    + apply Z.leb_le in H. apply orb_true_intro. left.
      apply orb_true_intro. left. apply Z.leb_le. lia.
    + rewrite H. by rewrite orb_true_r.
    + rewrite H. by rewrite orb_true_r.
  - intros H. apply orb_true_intro. left. apply orb_true_intro. left.
    apply Z.leb_le. lia.
Qed.

(** ** One simulation among the others *)

Lemma inputsOf_cons who w ev (sched : list (nat * EnvInput)) :
  inputsOf who ((w, ev) :: sched)
  = if decide (w = who) then ev :: inputsOf who sched else inputsOf who sched.
Proof.
  unfold inputsOf. cbn [omap list_omap fst snd]. by destruct (decide (w = who)).
Qed.

Lemma inputsOf_split who sched xs ys :
  inputsOf who sched = xs ++ ys ->
  exists s1 s2, sched = s1 ++ s2 /\ inputsOf who s1 = xs /\
                inputsOf who s2 = ys.
Proof.
  revert sched. induction xs as [|x xs IH]; intros sched H.
  - by exists [], sched.
  - induction sched as [|[w ev] sched IHs]; [done|].
    rewrite inputsOf_cons in H.
    destruct (decide (w = who)) as [->|Hne].
    + injection H as Hx H. subst x.
      destruct (IH _ H) as (s1 & s2 & -> & H1 & H2).
      exists ((who, ev) :: s1), s2. split; [done|]. split; [|done].
      rewrite inputsOf_cons, decide_True by done. by rewrite <- H1.
    + destruct (IHs H) as (s1 & s2 & -> & H1 & H2).
      exists ((w, ev) :: s1), s2. split; [done|]. split; [|done].
      by rewrite inputsOf_cons, decide_False by done.
Qed.

Lemma expandAction_heap_length node s act prior st :
  length (heap st) <= length (heap (expandAction node s act prior st)).
Proof.
  unfold expandAction.
  destruct (transpositionTable st !! hash (withNewMessage s assistant act));
    simpl; rewrite length_alter; [done|]. rewrite length_app. lia.
Qed.

Lemma expandLoop_heap_length node s actions priors i st :
  length (heap st) <= length (heap (expandLoop node s actions priors i st)).
Proof.
  revert i st. induction actions as [|act actions IH]; intros i st; [done|].
  cbn [expandLoop]. etrans; [|apply IH]. apply expandAction_heap_length.
Qed.

Section Interleaved.

Context {rt : Runtime}.
Variable Math_exp : float -> float.
Variable Math_pow : float -> float -> float.
Variable cfg : Config.

Lemma generateActionsLoop_heap k s i comps st :
  heap (generateActionsLoop cfg k s i comps st).1 = heap st.
Proof. unfold generateActionsLoop. by destruct (_ <? _)%Z. Qed.

Lemma simulateLoop_heap s d v st :
  heap (simulateLoop cfg s d v st).1 = heap st.
Proof.
  unfold simulateLoop. destruct (_ && _); [|done].
  apply generateActionsLoop_heap.
Qed.

(** The heap only grows: a reference stays valid. *)
Lemma step_heap_length ev st sim :
  length (heap st)
  <= length (heap (step Math_exp Math_pow cfg ev st sim).1).
Proof.
  unfold step. destruct (control sim) as [|k s i comps|k s acts| | | | | | | |].
  - destruct (last (path sim)); [|done].
    destruct (heap st !! n) as [nd|] eqn:Hn; [|done].
    destruct (negb _); [|done]. unfold expandEnter. rewrite Hn.
    destruct (isTerminal _ _); [done|]. by rewrite generateActionsLoop_heap.
  - destruct (reply ev); [|done]. by rewrite generateActionsLoop_heap.
  - destruct k; destruct acts; simpl; rewrite ?length_alter; done.
  - by destruct (reply ev).
  - set (st' := expandAttach _ _ _ _ _).
    assert (length (heap st) <= length (heap st')) as H.
    { unfold st', expandAttach. simpl. rewrite length_alter.
      apply expandLoop_heap_length. }
    destruct (heap st' !! node) as [nd|]; [|done].
    by destruct (children nd).
  - destruct (heap st !! expandedNode); [|done]. by rewrite simulateLoop_heap.
  - destruct (evaluate s (reply ev)). by destruct (reply ev).
  - by rewrite simulateLoop_heap.
  - simpl. by rewrite (proj1 (backpropagate_store _ _ _ _)).
  - done.
  - done.
Qed.

Lemma resume_heap_length who ev e :
  length (heap (store e))
  <= length (heap (store (resume Math_exp Math_pow cfg who ev e))).
Proof.
  unfold resume. destruct (simulations e !! who) as [sim|]; [|done].
  pose proof (step_heap_length ev (store e) sim) as H.
  by destruct (step _ _ _ _ _ _).
Qed.

Lemma run_heap_length sched e :
  length (heap (store e))
  <= length (heap (store (run Math_exp Math_pow cfg sched e))).
Proof.
  revert e. induction sched as [|[w ev] sched IH]; intros e; [done|].
  etrans; [apply (resume_heap_length w ev)|]. apply IH.
Qed.

Lemma resume_other who w ev e :
  w <> who ->
  simulations (resume Math_exp Math_pow cfg w ev e) !! who
  = simulations e !! who.
Proof.
  intros Hne. unfold resume. destruct (simulations e !! w) as [sim|]; [|done].
  destruct (step _ _ _ _ _ _). simpl. by rewrite list_lookup_insert_ne.
Qed.

Lemma resume_self who ev e sim :
  simulations e !! who = Some sim ->
  resume Math_exp Math_pow cfg who ev e
  = {| store := (step Math_exp Math_pow cfg ev (store e) sim).1;
       simulations :=
         <[who := {| path := path sim;
                     control := (step Math_exp Math_pow cfg ev (store e) sim).2 |}]>
           (simulations e) |}.
Proof.
  intros H. unfold resume. rewrite H. by destruct (step _ _ _ _ _ _).
Qed.

(** The other simulations leave a suspended simulation as it is. *)
Lemma run_others who sched e :
  inputsOf who sched = [] ->
  simulations (run Math_exp Math_pow cfg sched e) !! who
  = simulations e !! who.
Proof.
  revert e. induction sched as [|[w ev] sched IH]; intros e H; [done|].
  rewrite inputsOf_cons in H. destruct (decide (w = who)); [done|].
  change (run Math_exp Math_pow cfg ((w, ev) :: sched) e)
    with (run Math_exp Math_pow cfg sched (resume Math_exp Math_pow cfg w ev e)).
  rewrite IH by done. by apply resume_other.
Qed.

(** A simulation that receives one input takes one step, in the store the
    others have left. *)
Lemma run_one who sched e sim ev :
  inputsOf who sched = [ev] ->
  simulations e !! who = Some sim ->
  exists st,
    simulations (run Math_exp Math_pow cfg sched e) !! who
    = Some {| path := path sim;
              control := (step Math_exp Math_pow cfg ev st sim).2 |}.
Proof.
  revert e. induction sched as [|[w ev'] sched IH]; intros e H Hsim; [done|].
  rewrite inputsOf_cons in H.
  change (run Math_exp Math_pow cfg ((w, ev') :: sched) e)
    with (run Math_exp Math_pow cfg sched (resume Math_exp Math_pow cfg w ev' e)).
  destruct (decide (w = who)) as [->|Hne].
  - injection H as -> H. exists (store e).
    rewrite run_others by done. rewrite (resume_self _ _ _ _ Hsim). simpl.
    apply list_lookup_insert_eq. by eapply lookup_lt_Some.
  - apply IH; [done|]. by rewrite resume_other.
Qed.

(** [generateActions] among the others: the texts arrive one by one. *)
Lemma generateActions_interleaved who k s p m replies :
  maxChildren (options cfg) = Z.of_nat m ->
  forall evs sched e i comps,
    carry evs replies ->
    inputsOf who sched = evs ->
    simulations e !! who
    = Some {| path := p; control := AwaitGenerateText k s i comps |} ->
    i + length replies = m -> 0 < length replies ->
    simulations (run Math_exp Math_pow cfg sched e) !! who
    = Some {| path := p;
              control := AwaitGenerateActions k s (comps ++ replies.*1) |}.
Proof.
  intros Hm. induction replies as [|[t u] replies IH];
    intros evs sched e i comps Hc Hin Hsim Hlen Hpos; [simpl in Hpos; lia|].
  destruct evs as [|ev evs]; [done|]. injection Hc as Hev Hc.
  change (ev :: evs) with ([ev] ++ evs) in Hin.
  apply inputsOf_split in Hin as (s1 & s2 & -> & H1 & H2).
  replace (run Math_exp Math_pow cfg (s1 ++ s2) e)
    with (run Math_exp Math_pow cfg s2 (run Math_exp Math_pow cfg s1 e))
    by (unfold run; by rewrite foldl_app).
  destruct (run_one who s1 e _ ev H1 Hsim) as (st & Hst).
  cbn [path control step] in Hst. rewrite Hev in Hst. cbn [fst snd] in Hst.
  unfold generateActionsLoop in Hst. rewrite Hm in Hst.
  cbn [length] in Hlen.
  destruct (Z.of_nat (S i) <? Z.of_nat m)%Z eqn:Hlt; cbn [snd] in Hst.
  - apply Z.ltb_lt in Hlt.
    rewrite (IH evs s2 _ (S i) (comps ++ [t])); try done.
    + cbn [fmap list_fmap fst]. by rewrite <- app_assoc.
    + lia.
    + destruct replies; [simpl in *; lia|simpl; lia].
  - apply Z.ltb_ge in Hlt.
    assert (replies = []) as -> by (destruct replies; [done|simpl in Hlen; lia]).
    destruct evs; [|done].
    rewrite run_others by done. exact Hst.
Qed.

Lemma step_AwaitPriors ev st p node s actions priors :
  (step Math_exp Math_pow cfg ev st
     {| path := p; control := AwaitPriors node s actions priors |}).1
  = expandAttach node s actions priors st.
Proof.
  cbn [step control].
  destruct (heap (expandAttach node s actions priors st) !! node) as [nd|];
    [|done].
  by destruct (children nd).
Qed.

(** C3, amended.  [expand] is not guarded.  A simulation that reached the
    node [leaf] as its frontier, whatever [isFullyExpanded] and the child
    list of [leaf] are when it resumes, and whatever the other simulations do
    while it waits for the oracle ([sched] is any interleaving, in which the
    others may expand and mark [leaf]): once it has received the [m]
    proposals and the priors, it attaches one child entry per proposal to
    the entries the node has by then, and marks the node.  The entries are
    the nodes the transposition table holds for the states the proposals
    lead to; when the table held them already, as after an expansion with the
    same proposals, no node is made and the same nodes are appended once
    more. *)
Theorem expand_attaches_again who p leaf n m ev0 evs replies ev1 evp ev2
    sched e :
  simulations e !! who = Some {| path := p; control := AwaitSelect |} ->
  last p = Some leaf ->
  heap (store e) !! leaf = Some n ->
  isTerminal cfg (state n) = false ->
  maxChildren (options cfg) = Z.of_nat m -> 0 < m ->
  length replies = m -> carry evs replies ->
  inputsOf who sched = evs ++ [ev1; evp] ->
  let actions := replies.*1 in
  let e1 := run Math_exp Math_pow cfg sched
              (resume Math_exp Math_pow cfg who ev0 e) in
  let e2 := resume Math_exp Math_pow cfg who ev2 e1 in
  simulations e1 !! who
  = Some {| path := p;
            control := AwaitPriors leaf (state n) actions
                         (calculateActionPriors Math_exp actions (reply evp)) |} /\
  exists n1 n2 cs,
    heap (store e1) !! leaf = Some n1 /\
    heap (store e2) !! leaf = Some n2 /\
    isFullyExpanded n2 = true /\
    children n2 = children n1 ++ cs /\
    Forall2 (fun act c =>
               transpositionTable (store e2) !! childHash (state n) act
               = Some c) actions cs /\
    (forall cs',
       Forall2 (fun act c =>
                  transpositionTable (store e1) !! childHash (state n) act
                  = Some c) actions cs' ->
       cs = cs' /\
       length (heap (store e2)) = length (heap (store e1)) /\
       transpositionTable (store e2) = transpositionTable (store e1)).
Proof.
  intros Hsim Hlast Hn Hnt Hm Hpos Hlen Hc Hin actions e1 e2.
  set (e0 := resume Math_exp Math_pow cfg who ev0 e) in *.
  assert (simulations e0 !! who
          = Some {| path := p;
                    control := AwaitGenerateText (ByExpand leaf) (state n) 0 [] |})
    as H0.
  { unfold e0. rewrite (resume_self _ _ _ _ Hsim). cbn [simulations path].
    rewrite list_lookup_insert_eq by (by eapply lookup_lt_Some).
    do 2 f_equal. unfold step. cbn [control path]. rewrite Hlast, Hn, Hnt.
    cbn [negb]. unfold expandEnter. rewrite Hn, Hnt.
    unfold generateActionsLoop. rewrite Hm.
    destruct (Z.of_nat 0 <? Z.of_nat m)%Z eqn:Hlt; [done|].
    apply Z.ltb_ge in Hlt. lia. }
  apply inputsOf_split in Hin as (s1 & s23 & -> & H1 & H23).
  change [ev1; evp] with ([ev1] ++ [evp]) in H23.
  apply inputsOf_split in H23 as (s2 & s3 & -> & H2 & H3).
  assert (e1 = run Math_exp Math_pow cfg s3
                 (run Math_exp Math_pow cfg s2
                    (run Math_exp Math_pow cfg s1 e0))) as He1.
  { unfold e1, run. by rewrite !foldl_app. }
  pose proof (generateActions_interleaved who (ByExpand leaf) (state n) p m
                replies Hm evs s1 e0 0 [] Hc H1 H0) as K1.
  rewrite Hlen in K1. specialize (K1 eq_refl Hpos). cbn [app] in K1.
  destruct (run_one who s2 _ _ ev1 H2 K1) as (st2 & K2).
  cbn [path control step] in K2.
  assert (exists a l, replies.*1 = a :: l) as (a & l & Hal).
  { destruct replies as [|[a u] l]; [simpl in Hlen; lia|]. by eexists _, _. }
  rewrite Hal in K2. cbn [snd] in K2. rewrite <- Hal in K2.
  destruct (run_one who s3 _ _ evp H3 K2) as (st3 & K3).
  cbn [path control step snd] in K3. rewrite <- He1 in K3.
  split; [exact K3|].
  assert (is_Some (heap (store e1) !! leaf)) as [n1 Hn1].
  { apply lookup_lt_is_Some. apply lookup_lt_Some in Hn.
    eapply Nat.lt_le_trans; [exact Hn|].
    etrans; [apply (resume_heap_length who ev0)|]. apply run_heap_length. }
  assert (store e2
          = expandAttach leaf (state n) actions
              (calculateActionPriors Math_exp actions (reply evp)) (store e1))
    as He2.
  { unfold e2. rewrite (resume_self _ _ _ _ K3). cbn [store].
    apply step_AwaitPriors. }
  set (priors := calculateActionPriors Math_exp actions (reply evp)) in *.
  destruct (expandLoop_attach leaf (state n) actions priors 0 (store e1) n1 Hn1)
    as (n' & cs & L1 & L2 & L3 & L4 & L5).
  exists n1, (markFullyExpanded n'), cs.
  split; [done|]. rewrite He2. unfold expandAttach. cbn [heap setHeap].
  split; [by rewrite list_lookup_alter_eq, L1|].
  split; [done|]. split; [done|]. split; [exact L4|].
  intros cs' Hcs'.
  destruct (expandLoop_again leaf (state n) actions priors 0 (store e1) n1 cs'
              Hn1 Hcs') as (n'' & M1 & M2 & M3 & M4).
  rewrite L1 in M1. injection M1 as <-. rewrite L2 in M2.
  apply app_inv_head in M2. split; [done|].
  split; [by rewrite length_alter|done].
Qed.

End Interleaved.

(** C3, witness: the second simulation of the scenario resumes when the
    first has expanded and marked the root; it expands the root again. *)
Lemma expand_attaches_again_witness :
  (exists r, heap (store expandedByFirst) !! 0 = Some r /\
             isFullyExpanded r = true /\ children r = [1; 2]) /\
  let e1 := run noExp noPow (scenarioConfig 2) secondExpands
              (resume noExp noPow (scenarioConfig 2) 1 failureInput
                 expandedByFirst) in
  let e2 := resume noExp noPow (scenarioConfig 2) 1 failureInput e1 in
  simulations e1 !! 1
  = Some {| path := [0];
            control := AwaitPriors 0 scenarioState ["A"; "B"]%string
                         (calculateActionPriors noExp ["A"; "B"]%string
                            Failure) |} /\
  exists n1 n2 cs,
    heap (store e1) !! 0 = Some n1 /\
    heap (store e2) !! 0 = Some n2 /\
    isFullyExpanded n2 = true /\
    children n2 = children n1 ++ cs /\
    Forall2 (fun act c =>
               transpositionTable (store e2) !! childHash scenarioState act
               = Some c) ["A"; "B"]%string cs /\
    (forall cs',
       Forall2 (fun act c =>
                  transpositionTable (store e1) !! childHash scenarioState act
                  = Some c) ["A"; "B"]%string cs' ->
       cs = cs' /\
       length (heap (store e2)) = length (heap (store e1)) /\
       transpositionTable (store e2) = transpositionTable (store e1)).
Proof.
  split.
  { eexists. split; [vm_compute; reflexivity|]. split; reflexivity. }
  apply (expand_attaches_again noExp noPow (scenarioConfig 2) 1 [0] 0
           (markFullyExpanded
              (pushChild 2 (pushChild 1 (newMCTSNode scenarioState None None))))
           2 failureInput [textInput "A"; textInput "B"]
           [("A"%string, 1%Z); ("B"%string, 1%Z)]
           failureInput failureInput failureInput secondExpands
           expandedByFirst).
  - vm_compute. reflexivity.
  - reflexivity.
  - vm_compute. reflexivity.
  - vm_compute. reflexivity.
  - reflexivity.
  - lia.
  - reflexivity.
  - reflexivity.
  - reflexivity.
Defined.

(** ** [select] as the search calls it *)


(** ** A rollout that draws *)

(** X12, witness: one simulation expands the root, enters [simulate] and
    receives the proposals "C" and "D"; at the next resumption it draws
    among the proposals it keeps.  With 0 or with 7 drawn the rollout goes
    on with "C", and the two runs end in the same state. *)
Lemma random_draw_unused_witness :
  let e0 := {| store := initialStore scenarioState;
               simulations := replicate 1 selectedAtRoot |} in
  (exists s,
     simulations (run noExp noPow rolloutConfig upToDraw e0) !! 0
     = Some {| path := [0];
               control := AwaitGenerateActions (BySimulate 0 0) s
                            ["C"; "D"]%string |}) /\
  (exists s v,
     simulations (run noExp noPow rolloutConfig (drawSchedule 7) e0) !! 0
     = Some {| path := [0]; control := AwaitEvaluate s 0 0 v |} /\
     getLastResponse s = Some "C"%string) /\
  run noExp noPow rolloutConfig (drawSchedule 0) e0
  = run noExp noPow rolloutConfig (drawSchedule 7) e0.
Proof.
  intros e0. split; [eexists; vm_compute; reflexivity|].
  split; [eexists _, _; split; vm_compute; reflexivity|].
  apply (random_draw_unused noExp noPow 1 rolloutConfig scenarioState).
  - vm_compute. discriminate.
  - reflexivity.
  - repeat constructor.
Defined.

(** ** A count that is no array length *)

Example arrayLength_default : arrayLength 10 = Some 10.
Proof. vm_compute. reflexivity. Qed.

Example arrayLength_zero : arrayLength (-0) = Some 0.
Proof. vm_compute. reflexivity. Qed.

Example arrayLength_fraction : arrayLength 2.5 = None.
Proof. vm_compute. reflexivity. Qed.

Example arrayLength_nan : arrayLength nan = None.
Proof. vm_compute. reflexivity. Qed.

Example arrayLength_large : arrayLength 4294967296 = None.
Proof. vm_compute. reflexivity. Qed.

(** X15.  [findBestResponse] rejects exactly when [numSimulations] is no
    array length: [Array(this.numSimulations)] then throws a RangeError
    before a simulation is made, as for the count -1.  For a count that
    [Array] accepts it never rejects, whatever the configuration, the
    initial state, the replies of the oracle and the order in which the
    simulations resume: [generateActions], [calculateActionPriors] and
    [evaluate] catch every failure of the oracle, and no simulation ever
    reads a node that is missing. *)
Theorem search_rejects_only_bad_count :
  (forall Math_exp Math_pow fuel simulationDepth count options s0 sched,
     findBestResponseOfCount Math_exp Math_pow fuel simulationDepth count
       options s0 sched = Rejected
     <-> arrayLength count = None) /\
  arrayLength (-1) = None.
Proof.
  split; [|vm_compute; reflexivity].
  intros Math_exp Math_pow fuel sd count opts s0 sched.
  unfold findBestResponseOfCount.
  destruct (arrayLength count) as [n|]; [|done].
  split; [|done]. intros H.
  by apply findBestResponse_never_rejects in H.
Qed.
